(** * Road roughness condition analysis: data preparation functions

    A shallow embedding of [functions.py]: [dataset_preparation],
    [approximate_ts] and [moving_average], together with the part of the
    PySpark DataFrame API and of NumPy those three functions call.

    Conventions of the embedding.
    - A DataFrame is its list of column names and its rows, kept in
      partitions (only [monotonically_increasing_id] looks at them).
    - Engine settings are the defaults of Spark 3.4/3.5, the first releases
      with [F.mode]: ANSI mode off (division by zero and failed casts give
      NULL, a double cast to a 32-bit integer saturates), column names
      resolved without regard to case.
    - A double is the rational number it holds, as a reduced fraction;
      every arithmetic operation rounds its exact result to the nearest
      binary64 number, ties to even ([round64]). Infinities, NaN and the
      sign of zero are not represented.
    - Row order after a shuffle (join, groupBy) is the order of first
      occurrence; [orderBy] is a stable sort. *)

From Stdlib Require Import ZArith QArith Qround Qreduction List String Ascii Bool Lia.
From Stdlib Require Import Qabs Qpower Permutation Sorted Lqa.
Import ListNotations.

Local Open Scope Z_scope.

(** ** Exceptions and results *)

Inductive exn : Type :=
| AnalysisException        (* unresolved or ambiguous column, missing path *)
| IllegalArgumentException (* toDF with the wrong number of names *)
| ValueError.              (* NumPy argument errors *)

Inductive result (A : Type) : Type :=
| Ok (a : A)
| Raise (e : exn).

Arguments Ok {A} a.
Arguments Raise {A} e.

Definition bind {A B : Type} (c : result A) (k : A -> result B) : result B :=
  match c with
  | Ok a => k a
  | Raise e => Raise e
  end.

Notation "x <- c ;; k" := (bind c (fun x => k))
  (at level 61, c at next level, right associativity).

Fixpoint mapM {A B : Type} (f : A -> result B) (l : list A) : result (list B) :=
  match l with
  | [] => Ok []
  | x :: xs => y <- f x ;; ys <- mapM f xs ;; Ok (y :: ys)
  end.

(** ** Cell values *)

Inductive value : Type :=
| VNull
| VStr (s : string)
| VInt (z : Z)       (* IntegerType and LongType *)
| VDouble (q : Q).   (* DoubleType: the number held, a reduced fraction *)

Definition int_min : Z := - 2 ^ 31.
Definition int_max : Z := 2 ^ 31 - 1.

(** Java's narrowing of a long to an int keeps the low 32 bits. *)
Definition wrap32 (z : Z) : Z := (z + 2 ^ 31) mod 2 ^ 32 - 2 ^ 31.

(** 64-bit two's complement wrap-around of long arithmetic. *)
Definition wrap64 (z : Z) : Z := (z + 2 ^ 63) mod 2 ^ 64 - 2 ^ 63.

(** Java's narrowing of a double to an int saturates. *)
Definition saturate32 (z : Z) : Z := Z.max int_min (Z.min int_max z).

(** Rounding toward zero. *)
Definition Qtrunc (q : Q) : Z :=
  if Qle_bool 0 q then Qfloor q else Qceiling q.

(** *** Binary64 rounding *)

(** [2^e] for an exponent of either sign. *)
Definition pow2 (e : Z) : Q := Qpower 2 e.

(** The integer nearest to [a / b] for [b > 0], the even one at a tie. *)
Definition nearest_even (a b : Z) : Z :=
  let q := a / b in
  match 2 * (a mod b) ?= b with
  | Lt => q
  | Gt => q + 1
  | Eq => if Z.even q then q else q + 1
  end.

(** The binary order of magnitude of [n / d] for positive [n] and [d]:
    [2^magnitude <= n / d < 2^(magnitude + 1)]. *)
Definition magnitude (n d : Z) : Z :=
  let k := Z.log2 n - Z.log2 d in
  if (if 0 <=? k then d * 2 ^ k <=? n else d <=? n * 2 ^ (- k)) then k else k - 1.

(** The binary64 number nearest to [q], ties to even: 53 significant bits,
    and no bit below [2^-1074]. *)
Definition round64 (q : Q) : Q :=
  let n := Qnum q in
  let d := Zpos (Qden q) in
  if n =? 0 then 0%Q
  else
    let e := Z.max (magnitude (Z.abs n) d - 52) (-1074) in
    let m := if 0 <=? e then nearest_even n (d * 2 ^ e)
             else nearest_even (n * 2 ^ (- e)) d in
    Qred (inject_Z m * pow2 e).

(** *** Strings read as numbers *)

Definition is_digit (c : ascii) : bool :=
  let n := nat_of_ascii c in (48 <=? n)%nat && (n <=? 57)%nat.

Definition digit_val (c : ascii) : Z := Z.of_nat (nat_of_ascii c) - 48.

(** Whitespace and ISO control characters, which the casts trim. *)
Definition is_blank (c : ascii) : bool :=
  let n := nat_of_ascii c in (n <=? 32)%nat || (n =? 127)%nat.

Fixpoint ltrim (s : list ascii) : list ascii :=
  match s with
  | c :: s' => if is_blank c then ltrim s' else s
  | [] => []
  end.

Definition trim (s : list ascii) : list ascii := rev (ltrim (rev (ltrim s))).

(** Leading digits of [s], accumulated onto [acc], and the rest. *)
Fixpoint read_digits (s : list ascii) (acc : Z) : Z * list ascii :=
  match s with
  | c :: s' => if is_digit c then read_digits s' (10 * acc + digit_val c) else (acc, s)
  | [] => (acc, [])
  end.

Definition read_sign (s : list ascii) : bool * list ascii :=
  match s with
  | "-"%char :: s' => (true, s')
  | "+"%char :: s' => (false, s')
  | _ => (false, s)
  end.

(** Cast of a string to IntegerType with ANSI mode off: blanks trimmed, an
    optional sign, digits, an optional fraction that is checked and dropped;
    NULL on anything else and on 32-bit overflow. *)
Definition string_to_int (s : string) : option Z :=
  match trim (list_ascii_of_string s) with
  | [] => None
  | t =>
    let (neg, body) := read_sign t in
    match body with
    | [] => None
    | _ =>
      let (n, rest) := read_digits body 0 in
      let well_formed :=
        match rest with
        | [] => true
        | "."%char :: frac => match snd (read_digits frac 0) with [] => true | _ => false end
        | _ => false
        end in
      let z := if neg then - n else n in
      if well_formed && (int_min <=? z) && (z <=? int_max) then Some z else None
    end
  end.

(** Cast of a string to DoubleType: a decimal literal with an optional
    fraction and an optional exponent, rounded to the nearest double. *)
Definition string_to_double (s : string) : option Q :=
  let (neg, body) := read_sign (trim (list_ascii_of_string s)) in
  let (ip, rest) := read_digits body 0 in
  let int_len := (List.length body - List.length rest)%nat in
  let '(fp, frac_len, rest') :=
    match rest with
    | "."%char :: frac =>
      let (m, r) := read_digits frac ip in
      (m, (List.length frac - List.length r)%nat, r)
    | _ => (ip, 0%nat, rest)
    end in
  let exponent :=
    match rest' with
    | [] => Some 0
    | c :: e =>
      if (c =? "e")%char || (c =? "E")%char then
        let (eneg, ebody) := read_sign e in
        match ebody, read_digits ebody 0 with
        | _ :: _, (k, []) => Some (if eneg then - k else k)
        | _, _ => None
        end
      else None
    end in
  match exponent with
  | Some e =>
    if (int_len + frac_len =? 0)%nat then None
    else
      let mant := inject_Z (if neg then - fp else fp) in
      let sh := e - Z.of_nat frac_len in
      Some (round64 (mant * Qpower (inject_Z 10) sh))
  | None => None
  end.

(** The number an arithmetic expression or a numeric aggregate sees in a
    cell (implicit cast to double). *)
Definition as_double (v : value) : option Q :=
  match v with
  | VNull => None
  | VStr s => string_to_double s
  | VInt z => Some (round64 (inject_Z z))
  | VDouble q => Some (round64 q)
  end.

(** [.cast('integer')], to the 32-bit IntegerType: a long keeps its low 32
    bits, a double is rounded toward zero and saturates, a string is parsed. *)
Definition cast_integer (v : value) : value :=
  match v with
  | VNull => VNull
  | VStr s => match string_to_int s with Some z => VInt z | None => VNull end
  | VInt z => VInt (wrap32 z)
  | VDouble q => VInt (saturate32 (Qtrunc q))
  end.

(** [a / b]: both sides become doubles, the quotient is a double; a zero
    divisor gives NULL. *)
Definition divide (a b : value) : value :=
  match as_double a, as_double b with
  | Some x, Some y => if Qeq_bool y 0 then VNull else VDouble (round64 (x / y))
  | _, _ => VNull
  end.

(** [c == n] for an integer literal [n], in three-valued logic: a string is
    first cast to an integer. *)
Definition equal_to (v : value) (n : Z) : option bool :=
  match v with
  | VNull => None
  | VStr s => option_map (fun z => z =? n) (string_to_int s)
  | VInt z => Some (z =? n)
  | VDouble q => Some (Qeq_bool q (inject_Z n))
  end.

(** [a | b], Kleene disjunction. *)
Definition or3 (a b : option bool) : option bool :=
  match a, b with
  | Some true, _ | _, Some true => Some true
  | Some false, Some false => Some false
  | _, _ => None
  end.

(** A [when] branch is taken only when its condition is TRUE. *)
Definition holds (c : option bool) : bool :=
  match c with
  | Some true => true
  | _ => false
  end.

(** [F.when(c1, v1).when(c2, v2).otherwise(d)]. *)
Fixpoint when_otherwise (branches : list (option bool * value)) (d : value) : value :=
  match branches with
  | [] => d
  | (c, v) :: rest => if holds c then v else when_otherwise rest d
  end.

(** ** DataFrames *)

Definition Row : Type := list value.

Record DataFrame : Type := mkDataFrame {
  columns : list string;
  partitions : list (list Row)
}.

Definition collect (df : DataFrame) : list Row := List.concat (partitions df).

Definition count (df : DataFrame) : nat := List.length (collect df).

(** *** Column names

    The analyzer compares column names without regard to case
    ([spark.sql.caseSensitive] is false by default); names are byte strings
    here, and the letters [A] to [Z] are folded. *)

Definition lower_char (c : ascii) : ascii :=
  let n := nat_of_ascii c in
  if (65 <=? n)%nat && (n <=? 90)%nat then ascii_of_nat (n + 32) else c.

Fixpoint lower (s : string) : string :=
  match s with
  | EmptyString => EmptyString
  | String c s' => String (lower_char c) (lower s')
  end.

Definition same_name (a b : string) : bool := String.eqb (lower a) (lower b).

Definition mem (name : string) (names : list string) : bool :=
  existsb (same_name name) names.

Definition occurrences (name : string) (names : list string) : nat :=
  List.length (filter (same_name name) names).

Fixpoint index_of (name : string) (cols : list string) : option nat :=
  match cols with
  | [] => None
  | c :: cs => if same_name c name then Some 0%nat else option_map S (index_of name cs)
  end.

(** Name resolution of the analyzer: the name must denote one column. *)
Definition resolve (cols : list string) (name : string) : result nat :=
  match index_of name cols with
  | Some i => if (occurrences name cols =? 1)%nat then Ok i else Raise AnalysisException
  | None => Raise AnalysisException
  end.

Definition cell (r : Row) (i : nat) : value := nth i r VNull.

Definition field (cols : list string) (r : Row) (name : string) : value :=
  match index_of name cols with
  | Some i => cell r i
  | None => VNull
  end.

(** Positions and names of the columns that are not listed in [names]. *)
Fixpoint others_from (i : nat) (names cols : list string) : list nat :=
  match cols with
  | [] => []
  | c :: cs => if mem c names then others_from (S i) names cs else i :: others_from (S i) names cs
  end.

Definition others (names cols : list string) : list nat := others_from 0 names cols.

Definition other_names (names cols : list string) : list string :=
  filter (fun c => negb (mem c names)) cols.

Definition project (idxs : list nat) (r : Row) : Row := map (cell r) idxs.

(** *** Column expressions

    An expression lists the columns it refers to and computes a result from
    the row; [eval] also receives the partition number and the position of
    the row in its partition. *)

Record Column (T : Type) : Type := mkColumn {
  references : list string;
  eval : nat -> nat -> (string -> value) -> T
}.

Arguments mkColumn {T} references eval.
Arguments references {T} c.
Arguments eval {T} c p j env.

Definition col (name : string) : Column value :=
  mkColumn [name] (fun _ _ env => env name).

Definition col_div (c : Column value) (n : Z) : Column value :=
  mkColumn (references c) (fun p j env => divide (eval c p j env) (VInt n)).

Definition col_cast_integer (c : Column value) : Column value :=
  mkColumn (references c) (fun p j env => cast_integer (eval c p j env)).

Definition col_eq (c : Column value) (n : Z) : Column (option bool) :=
  mkColumn (references c) (fun p j env => equal_to (eval c p j env) n).

Definition col_or (a b : Column (option bool)) : Column (option bool) :=
  mkColumn (references a ++ references b)
           (fun p j env => or3 (eval a p j env) (eval b p j env)).

(** [F.when(c1, v1).when(c2, v2).otherwise(d)] on string literals. *)
Definition col_when (c1 : Column (option bool)) (v1 : string)
                    (c2 : Column (option bool)) (v2 : string) (d : string) : Column value :=
  mkColumn (references c1 ++ references c2)
           (fun p j env =>
              when_otherwise [(eval c1 p j env, VStr v1); (eval c2 p j env, VStr v2)] (VStr d)).

(** The identifier of record [j] of partition [p]: the partition number in
    the upper 31 bits, the record number in the lower 33 bits of a long. *)
Definition row_id (p j : nat) : Z := wrap64 (Z.shiftl (Z.of_nat p) 33 + Z.of_nat j).

(** [F.monotonically_increasing_id()]. *)
Definition monotonically_increasing_id : Column value :=
  mkColumn [] (fun p j _ => VInt (row_id p j)).

(** *** Transformations *)

Fixpoint mapi_from {A B : Type} (i : nat) (f : nat -> A -> B) (l : list A) : list B :=
  match l with
  | [] => []
  | x :: xs => f i x :: mapi_from (S i) f xs
  end.

Definition mapi {A B : Type} (f : nat -> A -> B) (l : list A) : list B := mapi_from 0 f l.

(** The row laid out on [cols], with [v] in every column called [name]. *)
Fixpoint replace_named (name : string) (cols : list string) (r : Row) (v : value) : Row :=
  match cols with
  | [] => []
  | c :: cs => (if same_name c name then v else hd VNull r) :: replace_named name cs (tl r) v
  end.

Definition put (name : string) (cols : list string) (r : Row) (v : value) : Row :=
  if mem name cols then replace_named name cols r v
  else replace_named name cols r v ++ [v].

(** The columns after [withColumn name]: a column of that name is replaced
    and takes the name as it is written in the call, otherwise the new
    column comes last. *)
Definition with_name (name : string) (cols : list string) : list string :=
  if mem name cols then map (fun c => if same_name c name then name else c) cols
  else cols ++ [name].

Definition withColumn (name : string) (c : Column value) (df : DataFrame) : result DataFrame :=
  let cols := columns df in
  _ <- mapM (resolve cols) (references c) ;;
  Ok {| columns := with_name name cols;
        partitions :=
          mapi (fun p part => mapi (fun j r => put name cols r (eval c p j (field cols r))) part)
               (partitions df) |}.

(** The names of the columns at the positions [idxs]. *)
Definition names_at (cols : list string) (idxs : list nat) : list string :=
  map (fun i => nth i cols ""%string) idxs.

(** [df.select(names)]: the selected columns keep the names they have in
    [df]. *)
Definition select (names : list string) (df : DataFrame) : result DataFrame :=
  idxs <- mapM (resolve (columns df)) names ;;
  Ok {| columns := names_at (columns df) idxs;
        partitions := map (map (project idxs)) (partitions df) |}.

Definition toDF (names : list string) (df : DataFrame) : result DataFrame :=
  if (List.length names =? List.length (columns df))%nat
  then Ok {| columns := names; partitions := partitions df |}
  else Raise IllegalArgumentException.

(** [df.drop(names)]: the columns of these names, in any spelling, are
    removed; a name that is no column is ignored. *)
Definition drop (names : list string) (df : DataFrame) : DataFrame :=
  {| columns := other_names names (columns df);
     partitions := map (map (project (others names (columns df)))) (partitions df) |}.

(** Order of the values of a column, ascending with NULL first. *)
Definition value_leb (a b : value) : bool :=
  match a, b with
  | VNull, _ => true
  | _, VNull => false
  | VStr s, VStr t => String.leb s t
  | VStr _, _ => false
  | _, VStr _ => true
  | VInt x, VInt y => x <=? y
  | VInt x, VDouble y => Qle_bool (inject_Z x) y
  | VDouble x, VInt y => Qle_bool x (inject_Z y)
  | VDouble x, VDouble y => Qle_bool x y
  end.

Fixpoint insert_by (key : Row -> value) (x : Row) (l : list Row) : list Row :=
  match l with
  | [] => [x]
  | y :: ys => if value_leb (key x) (key y) then x :: l else y :: insert_by key x ys
  end.

Fixpoint sort_by (key : Row -> value) (l : list Row) : list Row :=
  match l with
  | [] => []
  | x :: xs => insert_by key x (sort_by key xs)
  end.

Definition orderBy (name : string) (df : DataFrame) : result DataFrame :=
  i <- resolve (columns df) name ;;
  Ok {| columns := columns df;
        partitions := [sort_by (fun r => cell r i) (collect df)] |}.

(** Equality of join keys: NULL matches nothing. *)
Definition join_eqb (a b : value) : bool :=
  match a, b with
  | VStr s, VStr t => String.eqb s t
  | VInt x, VInt y => x =? y
  | VNull, _ | _, VNull => false
  | x, y =>
    match as_double x, as_double y with
    | Some p, Some q => Qeq_bool p q
    | _, _ => false
    end
  end.

Fixpoint keys_match (l r : list value) : bool :=
  match l, r with
  | a :: l', b :: r' => join_eqb a b && keys_match l' r'
  | _, _ => true
  end.

(** [left.join(right, on=[...], how='left')]: the [on] columns once, under
    the names they have in [left], then the other columns of [left], then the
    other columns of [right]; a left row without a match is kept with NULLs
    on the right. *)
Definition join_left (left right : DataFrame) (on : list string) : result DataFrame :=
  li <- mapM (resolve (columns left)) on ;;
  ri <- mapM (resolve (columns right)) on ;;
  let lrest := others on (columns left) in
  let rrest := others on (columns right) in
  let joined (l : Row) : list Row :=
    let base := project li l ++ project lrest l in
    match filter (fun r => keys_match (project li l) (project ri r)) (collect right) with
    | [] => [base ++ map (fun _ => VNull) rrest]
    | ms => map (fun r => base ++ project rrest r) ms
    end in
  Ok {| columns := names_at (columns left) li
                     ++ other_names on (columns left) ++ other_names on (columns right);
        partitions := [flat_map joined (collect left)] |}.

(** *** Grouping and aggregation *)

(** Equality of grouping keys: all NULLs form one group. *)
Definition group_eqb (a b : value) : bool :=
  match a, b with
  | VNull, VNull => true
  | VStr s, VStr t => String.eqb s t
  | VInt x, VInt y => x =? y
  | VDouble x, VDouble y => Qeq_bool x y
  | _, _ => false
  end.

(** The keys in order of first occurrence. *)
Fixpoint distinct (l : list value) : list value :=
  match l with
  | [] => []
  | k :: ks => k :: filter (fun k' => negb (group_eqb k k')) (distinct ks)
  end.

(** An aggregation expression: [fn(source).alias(alias)]. *)
Record AggExpr : Type := mkAgg {
  alias : string;
  source : string;
  aggregate : list value -> value
}.

Definition non_null (l : list value) : list value :=
  filter (fun v => match v with VNull => false | _ => true end) l.

Fixpoint maximum (best : value) (l : list value) : value :=
  match l with
  | [] => best
  | v :: vs => maximum (if value_leb best v then v else best) vs
  end.

Definition agg_max (l : list value) : value :=
  match non_null l with
  | [] => VNull
  | v :: vs => maximum v vs
  end.

Fixpoint numbers (l : list value) : list Q :=
  match l with
  | [] => []
  | v :: vs => match as_double v with Some q => q :: numbers vs | None => numbers vs end
  end.

(** A sum of doubles, added one after the other. *)
Definition double_sum (qs : list Q) : Q :=
  fold_left (fun acc q => round64 (acc + q)) qs 0%Q.

(** [avg]: the sum of the numbers of the group, added in row order, divided
    by their count (the order in which the engine merges partial sums is not
    fixed by the source). *)
Definition agg_avg (l : list value) : value :=
  match numbers l with
  | [] => VNull
  | qs => VDouble (round64 (double_sum qs / round64 (inject_Z (Z.of_nat (List.length qs)))))
  end.

Definition frequency (v : value) (l : list value) : nat :=
  List.length (filter (group_eqb v) l).

(** The most frequent value. Among equally frequent values the engine
    returns the one its hash map yields first, which depends on hash codes;
    here it is the first one seen, and no statement below rests on a tie. *)
Fixpoint most_frequent (all : list value) (best : value) (cands : list value) : value :=
  match cands with
  | [] => best
  | v :: vs =>
    most_frequent all (if (frequency best all <? frequency v all)%nat then v else best) vs
  end.

Definition agg_mode (l : list value) : value :=
  match distinct (non_null l) with
  | [] => VNull
  | v :: vs => most_frequent (non_null l) v vs
  end.

Definition F_max (c : string) : AggExpr := mkAgg c c agg_max.
Definition F_avg (c : string) : AggExpr := mkAgg c c agg_avg.
Definition F_mode (c : string) : AggExpr := mkAgg c c agg_mode.

(** [df.groupBy(key).agg(...)]: the grouping column is kept and comes
    first, one row for each distinct key. *)
Definition groupBy_agg (key : string) (aggs : list AggExpr) (df : DataFrame) : result DataFrame :=
  let cols := columns df in
  k <- resolve cols key ;;
  _ <- mapM (fun a => resolve cols (source a)) aggs ;;
  let rows := collect df in
  let group (g : value) := filter (fun r => group_eqb g (cell r k)) rows in
  let summary (g : value) : Row :=
    g :: map (fun a => aggregate a (map (fun r => field cols r (source a)) (group g))) aggs in
  Ok {| columns := nth k cols ""%string :: map alias aggs;
        partitions := [map summary (distinct (map (fun r => cell r k) rows))] |}.

(** ** The part of NumPy used by [moving_average] *)

(** Index into an array of [n >= 2] elements that position [i] (possibly
    outside [0, n)) takes its value from under reflection at both edges. *)
Definition reflect_index (n i : Z) : Z :=
  let period := 2 * (n - 1) in
  let j := i mod period in
  if j <? n then j else period - j.

(** [np.pad(arr, (before, after), mode='reflect')]. An array of one element
    is extended by that element. *)
Definition np_pad_reflect (arr : list Q) (before after : Z) : result (list Q) :=
  let n := Z.of_nat (List.length arr) in
  if (before <? 0) || (after <? 0) then Raise ValueError
  else if (n =? 0) && ((0 <? before) || (0 <? after)) then Raise ValueError
  else
    let source (k : nat) : Z :=
      if n =? 1 then 0 else reflect_index n (Z.of_nat k - before) in
    Ok (map (fun k => nth (Z.to_nat (source k)) arr 0%Q)
            (seq 0 (Z.to_nat (before + n + after)))).

(** [np.ones(n)]. *)
Definition np_ones (n : Z) : result (list Q) :=
  if n <? 0 then Raise ValueError else Ok (repeat 1%Q (Z.to_nat n)).

(** One output of a convolution, [sum_j v[j] * a[k + M - 1 - j]]: the
    elements are doubles, and the products are added one after the other
    along [a]. *)
Definition convolve_at (a v : list Q) (k : nat) : Q :=
  let m := List.length v in
  fold_left (fun acc i =>
               round64 (acc + round64 (round64 (nth (k + i) a 0)
                                       * round64 (nth (m - 1 - i) v 0))))%Q
            (seq 0 m) 0%Q.

(** [np.convolve(a, v, mode='valid')]: the longer argument is the signal. *)
Definition np_convolve_valid (a v : list Q) : result (list Q) :=
  match a, v with
  | [], _ | _, [] => Raise ValueError
  | _, _ =>
    let (a, v) := if (List.length a <? List.length v)%nat then (v, a) else (a, v) in
    Ok (map (convolve_at a v) (seq 0 (List.length a - List.length v + 1)))
  end.

(** ** The functions of [functions.py] *)

Local Open Scope string_scope.

(** [spark_session.read.csv(path, header=True)]: every column is a string
    column, a missing path raises. *)
Definition SparkSession : Type := string -> result DataFrame.

Definition shared_columns : list string :=
  ["timestep"; "latitude"; "longitude"; "speed"].

(** [colname in names], as Python compares strings. *)
Definition listed (colname : string) (names : list string) : bool :=
  existsb (String.eqb colname) names.

Definition rename (suffix : string) (colname : string) : string :=
  if negb (listed colname shared_columns) then (colname ++ suffix)%string else colname.

(** The derived label: bad wins over regular, regular over good. *)
Definition cond : Column value :=
  col_when
    (col_or (col_eq (col "bad_road_left") 1) (col_eq (col "bad_road_right") 1)) "bad"
    (col_or (col_eq (col "regular_road_left") 1) (col_eq (col "regular_road_right") 1))
    "regular"
    "good".

(** [f'{data_path}/{name}/file'] *)
Definition run_file (data_path name file : string) : string :=
  data_path ++ "/" ++ name ++ "/" ++ file.

Definition dataset_preparation (name : string) (spark_session : SparkSession)
                               (data_path : string) : result DataFrame :=
  pvs_df_left <- spark_session (run_file data_path name "dataset_gps_mpu_left.csv") ;;
  pvs_df_right <- spark_session (run_file data_path name "dataset_gps_mpu_right.csv") ;;
  pvs_labels <- spark_session (run_file data_path name "dataset_labels.csv") ;;
  pvs_df_left <- withColumn "timestep" monotonically_increasing_id pvs_df_left ;;
  pvs_df_right <- withColumn "timestep" monotonically_increasing_id pvs_df_right ;;
  pvs_labels <- withColumn "timestep" monotonically_increasing_id pvs_labels ;;
  let left_colnames := map (rename "_L") (columns pvs_df_left) in
  let right_colnames := map (rename "_R") (columns pvs_df_right) in
  pvs_labels <- select ["timestep"; "good_road_left"; "good_road_right";
                        "regular_road_left"; "regular_road_right";
                        "bad_road_left"; "bad_road_right"] pvs_labels ;;
  pvs_labels <- withColumn "road_condition" cond pvs_labels ;;
  pvs_labels <- select ["timestep"; "road_condition"] pvs_labels ;;
  pvs_df_left <- toDF left_colnames pvs_df_left ;;
  pvs_df_right <- toDF right_colnames pvs_df_right ;;
  joined <- join_left pvs_df_left pvs_df_right shared_columns ;;
  joined <- join_left joined pvs_labels ["timestep"] ;;
  pvs_df <- orderBy "timestep" joined ;;
  Ok (drop ["timestamp_L"; "timestamp_R"; "timestamp_gps_L"; "timestamp_gps_R"] pvs_df).

(** [features] are the caller's aggregation expressions; the defaults of the
    source are [timesteps = 200] and [label = True]. *)
Definition approximate_ts (df : DataFrame) (features : list AggExpr)
                          (timesteps : Z) (label : bool) : result DataFrame :=
  df <- withColumn "group_by" (col_cast_integer (col_div (col "timestep") timesteps)) df ;;
  if label then
    res <- groupBy_agg "group_by"
             ([F_max "timestep"; F_mode "road_condition";
               F_avg "latitude"; F_avg "longitude"] ++ features)%list df ;;
    orderBy "timestep" res
  else
    res <- groupBy_agg "group_by"
             ([F_max "timestep"; F_avg "latitude"; F_avg "longitude"] ++ features)%list df ;;
    orderBy "timestep" res.

Definition moving_average (arr : list Q) (window_size : Z) : result (list Q) :=
  padded_arr <- np_pad_reflect arr (window_size / 2) (window_size / 2) ;;
  ones <- np_ones window_size ;;
  moving_avg <- np_convolve_valid padded_arr
                  (map (fun x => round64 (x / round64 (inject_Z window_size))) ones) ;;
  Ok (removelast moving_avg).

(** ** Vocabulary of the statements *)

(** The comparison [c == 1] is TRUE on the cell. *)
Definition is_one (v : value) : bool := holds (equal_to v 1).

(** The three steps [dataset_preparation] applies to the label table once
    it carries its [timestep]. *)
Definition label_steps (pvs_labels : DataFrame) : result DataFrame :=
  pvs_labels <- select ["timestep"; "good_road_left"; "good_road_right";
                        "regular_road_left"; "regular_road_right";
                        "bad_road_left"; "bad_road_right"] pvs_labels ;;
  pvs_labels <- withColumn "road_condition" cond pvs_labels ;;
  select ["timestep"; "road_condition"] pvs_labels.

Definition label_columns : list string :=
  ["good_road_left"; "good_road_right"; "regular_road_left"; "regular_road_right";
   "bad_road_left"; "bad_road_right"; "timestep"].

(** bad_road_left=0, bad_road_right=1, regular_road_left=1,
    regular_road_right=0, good_road_left=0, good_road_right=0. *)
Definition scenario_row : Row :=
  [VStr "0"; VStr "0"; VStr "1"; VStr "0"; VStr "0"; VStr "1"; VInt 0].

Definition zlength {A : Type} (l : list A) : Z := Z.of_nat (List.length l).

Definition has_column (cols : list string) (name : string) : bool :=
  (occurrences name cols =? 1)%nat.

(** *** Windows of [approximate_ts] *)

(** The value [approximate_ts] stores in [group_by]. *)
Definition window_index (cols : list string) (timesteps : Z) (r : Row) : value :=
  cast_integer (divide (field cols r "timestep") (VInt timesteps)).

Definition aggregations (label : bool) (features : list AggExpr) : list AggExpr :=
  if label
  then ([F_max "timestep"; F_mode "road_condition"; F_avg "latitude"; F_avg "longitude"]
          ++ features)%list
  else ([F_max "timestep"; F_avg "latitude"; F_avg "longitude"] ++ features)%list.

(** Every name [approximate_ts] looks up denotes one column: [timestep] in
    the input, [group_by] and the aggregated columns once [group_by] is
    added, [timestep] in the aggregated table. *)
Definition aggregable (df : DataFrame) (features : list AggExpr) (label : bool) : bool :=
  let cols' := with_name "group_by" (columns df) in
  has_column (columns df) "timestep"
  && has_column cols' "group_by"
  && forallb (fun a => has_column cols' (source a)) (aggregations label features)
  && has_column ("group_by" :: map alias (aggregations label features)) "timestep".

Definition windows (df : DataFrame) (timesteps : Z) : list value :=
  distinct (map (window_index (columns df) timesteps) (collect df)).

Definition window_rows (df : DataFrame) (timesteps : Z) (g : value) : list Row :=
  filter (fun r => group_eqb g (window_index (columns df) timesteps r)) (collect df).

(** A cell of a row once [group_by] is added. *)
Definition reading (df : DataFrame) (timesteps : Z) (r : Row) (name : string) : value :=
  if same_name name "group_by" then window_index (columns df) timesteps r
  else field (columns df) r name.

Definition summary (df : DataFrame) (features : list AggExpr) (timesteps : Z)
                   (label : bool) (g : value) : Row :=
  g :: map (fun a => aggregate a (map (fun r => reading df timesteps r (source a))
                                      (window_rows df timesteps g)))
           (aggregations label features).

Definition approximated (df : DataFrame) (features : list AggExpr) (timesteps : Z)
                        (label : bool) : DataFrame :=
  {| columns := "group_by" :: map alias (aggregations label features);
     partitions := [sort_by (fun r => cell r 1)
                            (map (summary df features timesteps label)
                                 (windows df timesteps))] |}.

Definition ceil_div (n d : Z) : Z := (n + d - 1) / d.

Definition timestep_values (df : DataFrame) : list value :=
  map (fun r => field (columns df) r "timestep") (collect df).

(** The timestep values [0 .. n-1]. *)
Definition range_values (n : nat) : list value :=
  map (fun i => VInt (Z.of_nat i)) (seq 0 n).

(** Values whose grouping equality is plain equality. *)
Definition exact (v : value) : Prop :=
  match v with
  | VDouble _ => False
  | _ => True
  end.

(** Two cells hold the same number, or both hold none. *)
Definition numerically_equal (a b : value) : Prop :=
  match as_double a, as_double b with
  | Some x, Some y => (x == y)%Q
  | None, None => True
  | _, _ => False
  end.

(** A cell of a double column: NULL or a double. *)
Definition plain_number (v : value) : Prop :=
  v = VNull \/ exists q, v = VDouble (round64 q).

(** The output row [o] carries the cells of the input row [r]: the same
    [timestep], the same numbers in [latitude] and [longitude] (the same
    cells when those are cells of a double column; [avg] turns a string into
    the double it denotes) and, with [label], the same [road_condition]. *)
Definition carried_over (cols out_cols : list string) (label : bool) (r o : Row) : Prop :=
  field out_cols o "timestep" = field cols r "timestep"
  /\ numerically_equal (field out_cols o "latitude") (field cols r "latitude")
  /\ numerically_equal (field out_cols o "longitude") (field cols r "longitude")
  /\ (plain_number (field cols r "latitude") ->
      field out_cols o "latitude" = field cols r "latitude")
  /\ (plain_number (field cols r "longitude") ->
      field out_cols o "longitude" = field cols r "longitude")
  /\ (label = true -> field out_cols o "road_condition" = field cols r "road_condition").

(** A table of [n] rows with timesteps [0 .. n-1] in one partition. *)
Definition range_table (n : nat) : DataFrame :=
  {| columns := ["timestep"; "latitude"; "longitude"];
     partitions := [map (fun i => [VInt (Z.of_nat i); VStr "-27.7"; VStr "-51.1"]) (seq 0 n)] |}.

(** A small aligned table, as [dataset_preparation] returns them. *)
Definition sample_aligned : DataFrame :=
  {| columns := ["timestep"; "latitude"; "longitude"; "speed"; "acc_x_L"; "road_condition"];
     partitions :=
       [[[VInt 0; VStr "-27.71"; VStr "-51.11"; VStr "0.1"; VStr "0.5"; VStr "good"];
         [VInt 1; VStr "-27.72"; VStr "-51.12"; VStr "0.2"; VStr "0.7"; VStr "good"];
         [VInt 2; VStr "-27.73"; VStr "-51.13"; VStr "0.3"; VStr "0.9"; VStr "bad"];
         [VInt 3; VStr "-27.74"; VStr "-51.14"; VStr "0.4"; VStr "1.1"; VStr "bad"];
         [VInt 4; VStr "-27.75"; VStr "-51.15"; VStr "0.5"; VStr "1.3"; VStr "regular"]]] |}.

(** The relation [orderBy] establishes between consecutive rows. *)
Definition ascending (key : Row -> value) (a b : Row) : Prop :=
  value_leb (key a) (key b) = true.

(** *** Steps of [dataset_preparation] *)

Definition position (cols : list string) (name : string) : nat :=
  match index_of name cols with
  | Some i => i
  | None => 0%nat
  end.

Definition positions (cols names : list string) : list nat := map (position cols) names.

Definition all_columns (cols names : list string) : bool := forallb (has_column cols) names.

(** The timesteps [monotonically_increasing_id] gives to the rows of a
    frame, in row order. *)
Definition assigned_ids (df : DataFrame) : list Z :=
  List.concat (mapi (fun p part => mapi (fun j _ => row_id p j) part) (partitions df)).

Definition with_timestep (df : DataFrame) : DataFrame :=
  {| columns := with_name "timestep" (columns df);
     partitions :=
       mapi (fun p part =>
               mapi (fun j r => put "timestep" (columns df) r (VInt (row_id p j))) part)
            (partitions df) |}.

Definition renamed (suffix : string) (df : DataFrame) : DataFrame :=
  {| columns := map (rename suffix) (columns df); partitions := partitions df |}.

Definition label_names : list string :=
  ["timestep"; "good_road_left"; "good_road_right"; "regular_road_left";
   "regular_road_right"; "bad_road_left"; "bad_road_right"].

Definition labelled (df : DataFrame) : DataFrame :=
  {| columns := ["timestep"; "road_condition"];
     partitions :=
       map (map (fun r => [field (columns df) r "timestep";
                           eval cond 0 0 (field (columns df) r)]))
           (partitions df) |}.

(** The rows a left row [l] contributes to a left join. *)
Definition join_rows (left right : DataFrame) (on : list string) (l : Row) : list Row :=
  let li := positions (columns left) on in
  let ri := positions (columns right) on in
  let base := (project li l ++ project (others on (columns left)) l)%list in
  match filter (fun r => keys_match (project li l) (project ri r)) (collect right) with
  | [] => [(base ++ map (fun _ => VNull) (others on (columns right)))%list]
  | ms => map (fun r => (base ++ project (others on (columns right)) r)%list) ms
  end.

Definition joined (left right : DataFrame) (on : list string) : DataFrame :=
  {| columns := (names_at (columns left) (positions (columns left) on)
                   ++ other_names on (columns left) ++ other_names on (columns right))%list;
     partitions := [flat_map (join_rows left right on) (collect left)] |}.

Definition ordered (name : string) (df : DataFrame) : DataFrame :=
  {| columns := columns df;
     partitions := [sort_by (fun r => cell r (position (columns df) name)) (collect df)] |}.

Definition raw_timestamps : list string :=
  ["timestamp_L"; "timestamp_R"; "timestamp_gps_L"; "timestamp_gps_R"].

(** The columns of a sensor file that get a suffix: those that are not,
    letter for letter, one of the shared columns. A [timestep] column of the
    file, in any spelling, is not among them: [withColumn] has replaced it. *)
Definition unshared (cols : list string) : list string :=
  filter (fun c => negb (listed c shared_columns || same_name c "timestep")) cols.

(** The three files of a run, as the session reads them. *)
Definition reads (spark_session : SparkSession) (data_path name : string)
                 (L R Lb : DataFrame) : Prop :=
  spark_session (run_file data_path name "dataset_gps_mpu_left.csv") = Ok L
  /\ spark_session (run_file data_path name "dataset_gps_mpu_right.csv") = Ok R
  /\ spark_session (run_file data_path name "dataset_labels.csv") = Ok Lb.

(** The name occurs once among [cols], letter for letter. *)
Definition listed_once (cols : list string) (name : string) : bool :=
  (List.length (filter (String.eqb name) cols) =? 1)%nat.

(** The sensor tables have the shared columns once each, in these very
    letters (a column in another spelling gets a suffix and is no join
    column), and the label table has the six indicator columns once each, in
    any spelling (a [timestep] column read from a file is replaced, so it may
    occur at most once). *)
Definition preparable (L R Lb : DataFrame) : bool :=
  forallb (listed_once (with_name "timestep" (columns L))) shared_columns
  && forallb (listed_once (with_name "timestep" (columns R))) shared_columns
  && all_columns (with_name "timestep" (columns Lb)) label_names.

Definition prepared (L R Lb : DataFrame) : DataFrame :=
  drop raw_timestamps
    (ordered "timestep"
       (joined (joined (renamed "_L" (with_timestep L)) (renamed "_R" (with_timestep R))
                       shared_columns)
               (labelled (with_timestep Lb)) ["timestep"])).

Fixpoint last_char (s : string) : option ascii :=
  match s with
  | EmptyString => None
  | String a s' => match s' with EmptyString => Some a | _ => last_char s' end
  end.

(** A suffix that sets a name apart from the shared ones. *)
Definition distinguishing (suffix : string) : Prop :=
  forall c, mem (c ++ suffix) shared_columns = false.

(** *** A sample run *)

Definition sample_left : DataFrame :=
  {| columns := ["timestamp"; "acc_x"; "timestamp_gps"; "latitude"; "longitude"; "speed"];
     partitions :=
       [[[VStr "1577218796.00"; VStr "0.36"; VStr "1577218796.0"; VStr "-27.71"; VStr "-51.11";
          VStr "0.01"];
         [VStr "1577218796.01"; VStr "0.39"; VStr "1577218796.0"; VStr "-27.71"; VStr "-51.11";
          VStr "0.01"]];
        [[VStr "1577218796.02"; VStr "0.37"; VStr "1577218796.0"; VStr "-27.72"; VStr "-51.12";
          VStr "0.02"]]] |}.

Definition sample_right : DataFrame :=
  {| columns := ["timestamp"; "acc_x"; "timestamp_gps"; "latitude"; "longitude"; "speed"];
     partitions :=
       [[[VStr "1577218796.00"; VStr "0.31"; VStr "1577218796.0"; VStr "-27.71"; VStr "-51.11";
          VStr "0.01"];
         [VStr "1577218796.01"; VStr "0.32"; VStr "1577218796.0"; VStr "-27.71"; VStr "-51.11";
          VStr "0.01"]];
        [[VStr "1577218796.02"; VStr "0.33"; VStr "1577218796.0"; VStr "-27.72"; VStr "-51.12";
          VStr "0.02"]]] |}.

Definition sample_labels : DataFrame :=
  {| columns := ["paved_road"; "good_road_left"; "regular_road_left"; "bad_road_left";
                 "good_road_right"; "regular_road_right"; "bad_road_right"];
     partitions :=
       [[[VStr "1"; VStr "1"; VStr "0"; VStr "0"; VStr "1"; VStr "0"; VStr "0"];
         [VStr "1"; VStr "0"; VStr "1"; VStr "0"; VStr "0"; VStr "0"; VStr "1"]];
        [[VStr "1"; VStr "0"; VStr "1"; VStr "0"; VStr "1"; VStr "0"; VStr "0"]]] |}.

Definition sample_session : SparkSession :=
  fun path =>
    if String.eqb path "data/PVS 1/dataset_gps_mpu_left.csv" then Ok sample_left
    else if String.eqb path "data/PVS 1/dataset_gps_mpu_right.csv" then Ok sample_right
    else if String.eqb path "data/PVS 1/dataset_labels.csv" then Ok sample_labels
    else Raise AnalysisException.

(** *** Moving average: padded array and kernel *)

(** The reflect-padded array of a non-empty [arr] for [h] elements on each
    side. *)
Definition padded_of (arr : list Q) (h : Z) : list Q :=
  map (fun k => nth (Z.to_nat (if (zlength arr =? 1)%Z then 0
                               else reflect_index (zlength arr) (Z.of_nat k - h)))
                    arr 0%Q)
      (seq 0 (Z.to_nat (h + zlength arr + h))).

(** [np.ones(window_size) / window_size]. *)
Definition kernel_of (window_size : Z) : list Q :=
  map (fun x => round64 (x / round64 (inject_Z window_size)))
      (repeat 1%Q (Z.to_nat window_size)).

(** A number that is a double, in lowest terms. *)
Definition representable (q : Q) : Prop := round64 q = q.

(** *** Windows over the timesteps [0 .. N-1] *)

(** The integer in a cell ([0] for a cell that holds none). *)
Definition int_of (v : value) : Z :=
  match v with
  | VInt z => z
  | _ => 0
  end.

(** The last timestep of window [k] among the timesteps [0 .. N-1]. *)
Definition window_end (timesteps N k : Z) : Z := Z.min ((k + 1) * timesteps) N - 1.

(** The integers [0 .. m-1]. *)
Definition upto (m : nat) : list Z := map Z.of_nat (seq 0 m).

(** The sizes [monotonically_increasing_id] is documented for: fewer than
    [2^30] partitions (about one billion) of at most [2^33] records (about
    eight billion) each. *)
Definition within_id_limits (df : DataFrame) : Prop :=
  Z.of_nat (List.length (partitions df)) <= 2 ^ 30
  /\ Forall (fun part : list Row => Z.of_nat (List.length part) <= 2 ^ 33) (partitions df).

(** A table that is read into one partition. *)
Definition one_partition (df : DataFrame) : Prop :=
  exists rows, partitions df = [rows] /\ Z.of_nat (List.length rows) <= 2 ^ 33.

(** What [approximate_ts] needs of a feature on the table [df]: its source
    is one column of the table, or the [group_by] column that is added, and
    its name is not [timestep] (names compared without regard to case). *)
Definition usable_feature (df : DataFrame) (a : AggExpr) : Prop :=
  (has_column (columns df) (source a) = true \/ same_name (source a) "group_by" = true)
  /\ same_name (alias a) "timestep" = false.

(** *** The sample run, each file read into one partition *)

Definition whole (df : DataFrame) : DataFrame :=
  {| columns := columns df; partitions := [collect df] |}.

Definition whole_session : SparkSession :=
  fun path =>
    if String.eqb path "data/PVS 1/dataset_gps_mpu_left.csv" then Ok (whole sample_left)
    else if String.eqb path "data/PVS 1/dataset_gps_mpu_right.csv" then Ok (whole sample_right)
    else if String.eqb path "data/PVS 1/dataset_labels.csv" then Ok (whole sample_labels)
    else Raise AnalysisException.

(** *** Cells of the merged rows *)

(** The rows [l] and [r] agree on the key columns [on], as a join compares
    them. *)
Definition same_keys (lcols rcols on : list string) (l r : Row) : bool :=
  forallb (fun s => join_eqb (field lcols l s) (field rcols r s)) on.

(** * Properties *)

(** ** Results *)

Lemma mapM_ok {A B : Type} (f : A -> result B) (l : list A) :
  Forall (fun x => exists y, f x = Ok y) l ->
  exists ys, mapM f l = Ok ys /\ List.length ys = List.length l.
Proof.
  induction 1 as [|x l [y Hy] _ [ys [Hys Hlen]]]; simpl.
  - now exists [].
  - rewrite Hy, Hys. simpl. exists (y :: ys). simpl. now rewrite Hlen.
Qed.

Lemma mapM_raise {A B : Type} (f : A -> result B) (l : list A) (e0 : exn) :
  (forall x e, f x = Raise e -> e = e0) ->
  Exists (fun x => exists e, f x = Raise e) l ->
  mapM f l = Raise e0.
Proof.
  intros Hf. induction 1 as [x l [e He]|x l _ IH]; simpl.
  - rewrite He. simpl. now rewrite (Hf _ _ He).
  - destruct (f x) eqn:Hx; simpl.
    + now rewrite IH.
    + now rewrite (Hf _ _ Hx).
Qed.

(** ** Column names *)

Lemma same_name_eq (a b : string) : same_name a b = true <-> lower a = lower b.
Proof. apply String.eqb_eq. Qed.

Lemma same_name_refl (a : string) : same_name a a = true.
Proof. apply String.eqb_refl. Qed.

Lemma same_name_sym (a b : string) : same_name a b = same_name b a.
Proof. apply String.eqb_sym. Qed.

(** Names that are the same are the same to every other name. *)
Lemma same_name_as (a b c : string) :
  same_name a b = true -> same_name a c = same_name b c.
Proof. unfold same_name. intros H. apply String.eqb_eq in H. now rewrite H. Qed.

Lemma same_name_false (a b : string) : a = b -> same_name a b = false -> False.
Proof. intros ->. now rewrite same_name_refl. Qed.

Lemma index_of_None (name : string) (cols : list string) :
  index_of name cols = None -> occurrences name cols = 0%nat.
Proof.
  unfold occurrences. induction cols as [|c cs IH]; simpl; [reflexivity|].
  rewrite (same_name_sym name c).
  destruct (same_name c name); [discriminate|].
  destruct (index_of name cs); [discriminate|]. auto.
Qed.

Lemma index_of_Some (name : string) (cols : list string) (i : nat) :
  index_of name cols = Some i ->
  (i < List.length cols)%nat /\ same_name (nth i cols ""%string) name = true.
Proof.
  revert i. induction cols as [|c cs IH]; simpl; intros i H; [discriminate|].
  destruct (same_name c name) eqn:E.
  - injection H as <-. split; [lia | exact E].
  - destruct (index_of name cs) as [k|]; [|discriminate].
    injection H as <-. destruct (IH k eq_refl). split; [lia | assumption].
Qed.

(** [resolve] succeeds exactly on the names that occur once. *)
Lemma resolve_spec (cols : list string) (name : string) :
  resolve cols name =
    if (occurrences name cols =? 1)%nat
    then match index_of name cols with Some i => Ok i | None => Raise AnalysisException end
    else Raise AnalysisException.
Proof.
  unfold resolve. destruct (index_of name cols); destruct (_ =? _)%nat; reflexivity.
Qed.

Lemma resolve_ok (cols : list string) (name : string) :
  occurrences name cols = 1%nat ->
  exists i, resolve cols name = Ok i /\ index_of name cols = Some i.
Proof.
  intros Hocc. unfold resolve. destruct (index_of name cols) as [i|] eqn:Hi.
  - rewrite Hocc. simpl. now exists i.
  - apply index_of_None in Hi. lia.
Qed.

Lemma resolve_raise (cols : list string) (name : string) (e : exn) :
  resolve cols name = Raise e -> e = AnalysisException /\ occurrences name cols <> 1%nat.
Proof.
  unfold resolve. destruct (index_of name cols) eqn:Hi.
  - destruct (Nat.eqb_spec (occurrences name cols) 1); [discriminate|].
    intros [= <-]. auto.
  - intros [= <-]. apply index_of_None in Hi. split; [reflexivity | lia].
Qed.

Lemma occurrences_app (name : string) (l1 l2 : list string) :
  occurrences name (l1 ++ l2) = (occurrences name l1 + occurrences name l2)%nat.
Proof. unfold occurrences. now rewrite filter_app, length_app. Qed.

Lemma mem_false_occurrences (name : string) (cols : list string) :
  mem name cols = false -> occurrences name cols = 0%nat.
Proof.
  unfold mem, occurrences. induction cols as [|c cs IH]; simpl; [reflexivity|].
  destruct (same_name name c); simpl; [discriminate | exact IH].
Qed.

Lemma mem_true_occurrences (name : string) (cols : list string) :
  mem name cols = true -> (0 < occurrences name cols)%nat.
Proof.
  unfold mem, occurrences. induction cols as [|c cs IH]; simpl; [discriminate|].
  destruct (same_name name c); simpl; [lia | exact IH].
Qed.

(** Names that are the same are looked up alike. *)
Lemma index_of_as (a b : string) (cols : list string) :
  same_name a b = true -> index_of a cols = index_of b cols.
Proof.
  intros H. induction cols as [|c cs IH]; simpl; [reflexivity|].
  rewrite (same_name_sym c a), (same_name_sym c b), (same_name_as a b c H). now rewrite IH.
Qed.

Lemma occurrences_as (a b : string) (cols : list string) :
  same_name a b = true -> occurrences a cols = occurrences b cols.
Proof.
  intros H. unfold occurrences. induction cols as [|c cs IH]; simpl; [reflexivity|].
  rewrite (same_name_as a b c H). destruct (same_name b c); simpl; now rewrite IH.
Qed.

Lemma mem_as (a b : string) (cols : list string) :
  same_name a b = true -> mem a cols = mem b cols.
Proof.
  intros H. unfold mem. induction cols as [|c cs IH]; simpl; [reflexivity|].
  now rewrite (same_name_as a b c H), IH.
Qed.

(** Two lists of names that are the same one by one resolve alike. *)
Lemma index_of_same_names (name : string) (cols cols' : list string) :
  Forall2 (fun c c' => same_name c c' = true) cols cols' ->
  index_of name cols = index_of name cols'.
Proof.
  induction 1 as [|c c' cs cs' Hc _ IH]; simpl; [reflexivity|].
  now rewrite (same_name_as c c' name Hc), IH.
Qed.

Lemma occurrences_same_names (name : string) (cols cols' : list string) :
  Forall2 (fun c c' => same_name c c' = true) cols cols' ->
  occurrences name cols = occurrences name cols'.
Proof.
  unfold occurrences. induction 1 as [|c c' cs cs' Hc _ IH]; simpl; [reflexivity|].
  rewrite (same_name_sym name c), (same_name_sym name c'), (same_name_as c c' name Hc).
  destruct (same_name c' name); simpl; now rewrite IH.
Qed.

Lemma mem_same_names (name : string) (cols cols' : list string) :
  Forall2 (fun c c' => same_name c c' = true) cols cols' ->
  mem name cols = mem name cols'.
Proof.
  unfold mem. induction 1 as [|c c' cs cs' Hc _ IH]; simpl; [reflexivity|].
  rewrite (same_name_sym name c), (same_name_sym name c'), (same_name_as c c' name Hc).
  now rewrite IH.
Qed.

(** The names [withColumn] rewrites are the same names. *)
Lemma renaming_same_names (name : string) (cols : list string) :
  Forall2 (fun c c' => same_name c c' = true)
          (map (fun c => if same_name c name then name else c) cols) cols.
Proof.
  induction cols as [|c cs IH]; simpl; constructor; [|exact IH].
  destruct (same_name c name) eqn:E; [now rewrite same_name_sym | apply same_name_refl].
Qed.

Lemma index_of_app_fresh (name other : string) (cols : list string) :
  same_name other name = false -> index_of other (cols ++ [name]) = index_of other cols.
Proof.
  intros Hne. induction cols as [|c cs IH]; simpl.
  - now rewrite same_name_sym, Hne.
  - now rewrite IH.
Qed.

Lemma index_of_app_new (name : string) (cols : list string) :
  mem name cols = false -> index_of name (cols ++ [name]) = Some (List.length cols).
Proof.
  unfold mem. induction cols as [|c cs IH]; simpl.
  - now rewrite same_name_refl.
  - rewrite (same_name_sym name c). destruct (same_name c name); simpl; [discriminate|].
    intros H. now rewrite (IH H).
Qed.

Lemma index_of_with_name (name other : string) (cols : list string) :
  same_name other name = false ->
  index_of other (with_name name cols) = index_of other cols.
Proof.
  intros Hne. unfold with_name. destruct (mem name cols).
  - apply index_of_same_names, renaming_same_names.
  - now apply index_of_app_fresh.
Qed.

Lemma occurrences_with_name_other (s name : string) (cols : list string) :
  same_name s name = false -> occurrences s (with_name name cols) = occurrences s cols.
Proof.
  intros Hne. unfold with_name. destruct (mem name cols).
  - apply occurrences_same_names, renaming_same_names.
  - rewrite occurrences_app. unfold occurrences at 2. simpl. rewrite Hne. simpl. lia.
Qed.

Lemma occurrences_with_name_same (name : string) (cols : list string) :
  occurrences name (with_name name cols) = Nat.max 1 (occurrences name cols).
Proof.
  unfold with_name. destruct (mem name cols) eqn:Hm.
  - rewrite (occurrences_same_names _ _ _ (renaming_same_names name cols)).
    apply mem_true_occurrences in Hm. lia.
  - rewrite occurrences_app, (mem_false_occurrences _ _ Hm).
    unfold occurrences. simpl. now rewrite same_name_refl.
Qed.

(** The column [withColumn] writes has the name as it is written. *)
Lemma nth_with_name (name : string) (cols : list string) (k : nat) :
  index_of name (with_name name cols) = Some k ->
  nth k (with_name name cols) ""%string = name.
Proof.
  unfold with_name. destruct (mem name cols) eqn:Hm.
  - intros H. apply index_of_Some in H. destruct H as [Hlt Hs].
    rewrite length_map in Hlt. revert Hs.
    rewrite (nth_indep _ ""%string
               ((fun c => if same_name c name then name else c) ""%string))
      by (now rewrite length_map).
    rewrite (map_nth (fun c => if same_name c name then name else c)).
    destruct (same_name (nth k cols ""%string) name) eqn:E; [reflexivity|].
    intros Hs. congruence.
  - rewrite (index_of_app_new _ _ Hm). intros [= <-].
    rewrite app_nth2 by lia. now rewrite Nat.sub_diag.
Qed.

(** ** Rows *)

Lemma length_replace_named (name : string) (cols : list string) (r : Row) (v : value) :
  List.length (replace_named name cols r v) = List.length cols.
Proof. revert r. induction cols; simpl; auto. Qed.

Lemma nth_replace_named (name : string) (cols : list string) (r : Row) (v : value) (i : nat) :
  (i < List.length cols)%nat ->
  nth i (replace_named name cols r v) VNull =
    if same_name (nth i cols ""%string) name then v else nth i r VNull.
Proof.
  revert r i. induction cols as [|c cs IH]; simpl; intros r i Hi; [lia|].
  destruct i as [|i].
  - destruct r; reflexivity.
  - rewrite IH by lia. destruct r; simpl; [destruct i|]; reflexivity.
Qed.

Lemma field_put_same (name : string) (cols : list string) (r : Row) (v : value) :
  field (with_name name cols) (put name cols r v) name = v.
Proof.
  unfold field, with_name, put. destruct (mem name cols) eqn:Hm.
  - rewrite (index_of_same_names _ _ _ (renaming_same_names name cols)).
    destruct (index_of name cols) as [i|] eqn:Hi.
    + destruct (index_of_Some _ _ _ Hi) as [Hlt Hnth].
      unfold cell. rewrite nth_replace_named by assumption.
      now rewrite Hnth.
    + apply index_of_None in Hi. apply mem_true_occurrences in Hm. lia.
  - rewrite (index_of_app_new _ _ Hm). unfold cell.
    rewrite app_nth2; rewrite length_replace_named; [|lia].
    now rewrite Nat.sub_diag.
Qed.

Lemma field_put_other (name other : string) (cols : list string) (r : Row) (v : value) :
  same_name other name = false ->
  field (with_name name cols) (put name cols r v) other = field cols r other.
Proof.
  intros Hne. unfold field. rewrite (index_of_with_name _ _ _ Hne).
  destruct (index_of other cols) as [i|] eqn:Hi; [|reflexivity].
  destruct (index_of_Some _ _ _ Hi) as [Hlt Hnth].
  unfold put, cell. destruct (mem name cols).
  - rewrite nth_replace_named by assumption.
    now rewrite (same_name_as _ _ name Hnth), Hne.
  - rewrite app_nth1 by (now rewrite length_replace_named).
    rewrite nth_replace_named by assumption.
    now rewrite (same_name_as _ _ name Hnth), Hne.
Qed.

Lemma mapi_from_const {A B : Type} (g : A -> B) (l : list A) (i : nat) :
  mapi_from i (fun _ x => g x) l = map g l.
Proof. revert i. induction l; simpl; intros; [|rewrite IHl]; reflexivity. Qed.

Lemma length_mapi_from {A B : Type} (f : nat -> A -> B) (l : list A) (i : nat) :
  List.length (mapi_from i f l) = List.length l.
Proof. revert i. induction l; simpl; auto. Qed.

Lemma concat_map_map {A B : Type} (g : A -> B) (ll : list (list A)) :
  List.concat (map (map g) ll) = map g (List.concat ll).
Proof. now rewrite concat_map. Qed.

Lemma concat_mapi_const {A B : Type} (g : A -> B) (parts : list (list A)) (i : nat) :
  List.concat (mapi_from i (fun _ part => mapi_from 0 (fun _ r => g r) part) parts)
  = map g (List.concat parts).
Proof.
  revert i. induction parts as [|part parts IH]; simpl; intros i; [reflexivity|].
  now rewrite mapi_from_const, IH, map_app.
Qed.

(** ** Binary64 rounding *)

Local Open Scope Z_scope.

Lemma pow2_pos (e : Z) : (0 < pow2 e)%Q.
Proof. apply Qpower_0_lt. reflexivity. Qed.

Lemma pow2_add (a b : Z) : (pow2 (a + b) == pow2 a * pow2 b)%Q.
Proof. apply Qpower_plus. discriminate. Qed.

Lemma pow2_succ (e : Z) : (pow2 (e + 1) == 2 * pow2 e)%Q.
Proof. rewrite pow2_add. change (pow2 1) with 2%Q. apply Qmult_comm. Qed.

Lemma pow2_le (a b : Z) : a <= b -> (pow2 a <= pow2 b)%Q.
Proof. intros H. apply Qpower_le_compat_l; [exact H | discriminate]. Qed.

Lemma pow2_lt (a b : Z) : a < b -> (pow2 a < pow2 b)%Q.
Proof. intros H. apply Qpower_lt_compat_l; [exact H | reflexivity]. Qed.

Lemma pow2_le_inv (a b : Z) : (pow2 a <= pow2 b)%Q -> a <= b.
Proof.
  intros H. destruct (Z.le_gt_cases a b) as [Hle|Hgt]; [exact Hle|].
  apply pow2_lt in Hgt. lra.
Qed.

Lemma pow2_lt_inv (a b : Z) : (pow2 a < pow2 b)%Q -> a < b.
Proof.
  intros H. destruct (Z.lt_ge_cases a b) as [Hlt|Hge]; [exact Hlt|].
  apply pow2_le in Hge. lra.
Qed.

Lemma pow2_Z (e : Z) : 0 <= e -> (pow2 e == inject_Z (2 ^ e))%Q.
Proof. intros H. unfold pow2. now rewrite Zpower_Qpower. Qed.

Lemma pow2_inv (e : Z) : (pow2 e * pow2 (- e) == 1)%Q.
Proof. rewrite <- pow2_add, Z.add_opp_diag_r. reflexivity. Qed.

Lemma nearest_even_spec (a b : Z) :
  0 < b -> - b <= 2 * (a - nearest_even a b * b) <= b.
Proof.
  intros Hb. unfold nearest_even.
  pose proof (Z.div_mod a b ltac:(lia)) as Ha.
  pose proof (Z.mod_pos_bound a b Hb) as Hr.
  destruct (Z.compare_spec (2 * (a mod b)) b); [destruct (Z.even (a / b))| |]; nia.
Qed.

Lemma nearest_even_opp (a b : Z) :
  0 < b -> nearest_even (- a) b = - nearest_even a b.
Proof.
  intros Hb. unfold nearest_even.
  pose proof (Z.mod_pos_bound a b Hb) as Hr.
  destruct (Z.eq_dec (a mod b) 0) as [Hz|Hnz].
  - rewrite (Z.div_opp_l_z a b) by lia. rewrite (Z.mod_opp_l_z a b) by lia.
    rewrite Hz. destruct (Z.compare_spec (2 * 0) b); lia.
  - rewrite (Z.div_opp_l_nz a b) by lia. rewrite (Z.mod_opp_l_nz a b) by lia.
    replace (- (a / b) - 1) with (- (a / b + 1)) by lia.
    rewrite Z.even_opp, Z.even_add. cbn [Z.even Pos.succ].
    destruct (Z.compare_spec (2 * (a mod b)) b);
      destruct (Z.compare_spec (2 * (b - a mod b)) b); try lia.
    change (Z.even 1) with false.
    destruct (Z.even (a / b)); cbn; lia.
Qed.

Lemma scaled_le (k n d : Z) :
  (if 0 <=? k then d * 2 ^ k <=? n else d <=? n * 2 ^ (- k)) = true
  <-> (pow2 k * inject_Z d <= inject_Z n)%Q.
Proof.
  destruct (Z.leb_spec 0 k) as [Hk|Hk]; rewrite Z.leb_le.
  - rewrite (pow2_Z k Hk), <- inject_Z_mult, <- Zle_Qle. lia.
  - pose proof (pow2_inv k) as Hinv. pose proof (pow2_pos k) as Hp.
    pose proof (pow2_pos (- k)) as Hq.
    rewrite Zle_Qle, inject_Z_mult, <- (pow2_Z (- k)) by lia.
    set (X := pow2 k) in *. set (Y := pow2 (- k)) in *.
    set (D := inject_Z d). set (N := inject_Z n).
    assert (E1 : (X * (N * Y) == N)%Q) by (rewrite Qmult_comm, <- Qmult_assoc, (Qmult_comm Y), Hinv; ring).
    assert (E2 : (X * D * Y == D)%Q) by (rewrite (Qmult_comm X), <- Qmult_assoc, Hinv; ring).
    split; intros H.
    + rewrite <- E1. apply Qmult_le_l; assumption.
    + rewrite <- E2. apply Qmult_le_r; assumption.
Qed.

Lemma magnitude_spec (n d : Z) :
  0 < n -> 0 < d ->
  (pow2 (magnitude n d) * inject_Z d <= inject_Z n
   /\ inject_Z n < pow2 (magnitude n d + 1) * inject_Z d)%Q.
Proof.
  intros Hn Hd.
  pose proof (Z.log2_spec n Hn) as [Hn1 Hn2]. pose proof (Z.log2_spec d Hd) as [Hd1 Hd2].
  pose proof (Z.log2_nonneg n) as Ha. pose proof (Z.log2_nonneg d) as Hb.
  rewrite Zle_Qle, <- pow2_Z in Hn1, Hd1 by lia.
  rewrite Zlt_Qlt, <- pow2_Z in Hn2, Hd2 by lia.
  unfold Z.succ in Hn2, Hd2.
  unfold magnitude. set (a := Z.log2 n) in *. set (b := Z.log2 d) in *.
  set (k := a - b).
  pose proof (pow2_add (k + 1) b) as E1. replace (k + 1 + b) with (a + 1) in E1 by lia.
  pose proof (pow2_add (k - 1) (b + 1)) as E2. replace (k - 1 + (b + 1)) with a in E2 by lia.
  pose proof (pow2_pos (k + 1)) as P1. pose proof (pow2_pos (k - 1)) as P2.
  pose proof (scaled_le k n d) as Ht.
  destruct (if 0 <=? k then d * 2 ^ k <=? n else d <=? n * 2 ^ (- k)).
  - split; [now apply Ht|].
    set (D := inject_Z d) in *. set (N := inject_Z n) in *. nra.
  - assert (Hlt : (inject_Z n < pow2 k * inject_Z d)%Q).
    { apply Qnot_le_lt. intros H. apply Ht in H. discriminate. }
    replace (k - 1 + 1) with k by lia. split; [|exact Hlt].
    set (D := inject_Z d) in *. set (N := inject_Z n) in *. nra.
Qed.

Ltac push_inject H :=
  unfold Z.sub in H;
  repeat first [rewrite inject_Z_mult in H | rewrite inject_Z_plus in H
               | rewrite inject_Z_opp in H].

Lemma Qnum_nonzero (q : Q) : ~ (q == 0)%Q <-> Qnum q <> 0.
Proof. unfold Qeq. cbn. rewrite Z.mul_1_r. tauto. Qed.

Lemma round64_0 (q : Q) : (q == 0)%Q -> round64 q = 0%Q.
Proof.
  intros H. unfold Qeq in H. cbn in H. rewrite Z.mul_1_r in H.
  unfold round64. now rewrite H.
Qed.

(** What [round64] returns on a number other than zero: a multiple [m * 2^e]
    of the spacing [2^e] of the binade of [q], at most half a spacing away. *)
Lemma round64_spec (q : Q) :
  ~ (q == 0)%Q ->
  exists g m : Z,
    round64 q = Qred (inject_Z m * pow2 (Z.max (g - 52) (-1074)))
    /\ (pow2 g <= Qabs q)%Q /\ (Qabs q < pow2 (g + 1))%Q
    /\ (- pow2 (Z.max (g - 52) (-1074))
        <= 2 * (q - inject_Z m * pow2 (Z.max (g - 52) (-1074))))%Q
    /\ (2 * (q - inject_Z m * pow2 (Z.max (g - 52) (-1074)))
        <= pow2 (Z.max (g - 52) (-1074)))%Q.
Proof.
  intros Hq. apply Qnum_nonzero in Hq. destruct q as [n d]. cbn [Qnum] in Hq.
  exists (magnitude (Z.abs n) (Zpos d)).
  unfold round64. cbn [Qnum Qden]. destruct (Z.eqb_spec n 0) as [|_]; [contradiction|].
  pose proof (magnitude_spec (Z.abs n) (Zpos d) ltac:(lia) ltac:(lia)) as [Hg1 Hg2].
  set (g := magnitude (Z.abs n) (Zpos d)) in *.
  set (e := Z.max (g - 52) (-1074)).
  eexists. split; [reflexivity|].
  assert (HD : (0 < inject_Z (Zpos d))%Q) by reflexivity.
  split; [|split].
  - change (Qabs (n # d)) with (Z.abs n # d). rewrite Qmake_Qdiv.
    now apply Qle_shift_div_l.
  - change (Qabs (n # d)) with (Z.abs n # d). rewrite Qmake_Qdiv.
    now apply Qlt_shift_div_r.
  - rewrite (Qmake_Qdiv n d).
    pose proof (pow2_pos e) as HP.
    assert (Hx : (inject_Z n == inject_Z n / inject_Z (Zpos d) * inject_Z (Zpos d))%Q)
      by (field; discriminate).
    set (D := inject_Z (Zpos d)) in *. set (x := (inject_Z n / D)%Q) in *.
    destruct (Z.leb_spec 0 e) as [He|He].
    + assert (Hb : 0 < Zpos d * 2 ^ e) by (apply Z.mul_pos_pos; [lia | now apply Z.pow_pos_nonneg]).
      pose proof (nearest_even_spec n (Zpos d * 2 ^ e) Hb) as [H1 H2].
      set (m := nearest_even n (Zpos d * 2 ^ e)) in *.
      rewrite Zle_Qle in H1, H2. push_inject H1. push_inject H2.
      rewrite <- (pow2_Z e He) in H1, H2.
      fold D in H1, H2. rewrite Hx in H1, H2.
      set (P := pow2 e) in *. set (M := inject_Z m) in *.
      change (inject_Z 2) with 2%Q in *. split; nra.
    + pose proof (nearest_even_spec (n * 2 ^ (- e)) (Zpos d) ltac:(lia)) as [H1 H2].
      set (m := nearest_even (n * 2 ^ (- e)) (Zpos d)) in *.
      rewrite Zle_Qle in H1, H2. push_inject H1. push_inject H2.
      rewrite <- (pow2_Z (- e)) in H1, H2 by lia.
      fold D in H1, H2. rewrite Hx in H1, H2.
      pose proof (pow2_inv e) as Hinv. pose proof (pow2_pos (- e)) as HF.
      set (P := pow2 e) in *. set (F := pow2 (- e)) in *. set (M := inject_Z m) in *.
      change (inject_Z 2) with 2%Q in *.
      assert (G1 : (-1 <= 2 * (x * F - M))%Q) by nra.
      assert (G2 : (2 * (x * F - M) <= 1)%Q) by nra.
      assert (E : (x * F * P == x)%Q) by (rewrite <- Qmult_assoc, (Qmult_comm F), Hinv; ring).
      split; nra.
Qed.

Lemma Qred_Qred (q : Q) : Qred (Qred q) = Qred q.
Proof. apply Qred_complete, Qred_correct. Qed.

Lemma round64_canonical (q : Q) : Qred (round64 q) = round64 q.
Proof. unfold round64. destruct (Qnum q =? 0); [reflexivity | apply Qred_Qred]. Qed.

Lemma round64_eq (q r : Q) : (round64 q == r)%Q -> Qred r = r -> round64 q = r.
Proof. intros H Hr. rewrite <- round64_canonical, <- Hr. now apply Qred_complete. Qed.

Lemma Qred_inject_Z (z : Z) : Qred (inject_Z z) = inject_Z z.
Proof.
  unfold Qred, inject_Z.
  pose proof (Z.ggcd_gcd z 1) as Hg. pose proof (Z.ggcd_correct_divisors z 1) as Hd.
  destruct (Z.ggcd z 1) as [g [a b]]. cbn [fst snd] in *.
  rewrite Z.gcd_1_r in Hg. subst g. destruct Hd as [Ha Hb].
  replace a with z by lia. replace b with 1 by lia. reflexivity.
Qed.

Lemma integers_close (a b : Z) :
  (-1 <= 2 * (inject_Z a - inject_Z b))%Q -> (2 * (inject_Z a - inject_Z b) <= 1)%Q -> a = b.
Proof.
  intros H1 H2.
  assert (G1 : (inject_Z (-1) <= inject_Z (2 * (a - b)))%Q).
  { unfold Z.sub. rewrite inject_Z_mult, inject_Z_plus, inject_Z_opp. exact H1. }
  assert (G2 : (inject_Z (2 * (a - b)) <= inject_Z 1)%Q).
  { unfold Z.sub. rewrite inject_Z_mult, inject_Z_plus, inject_Z_opp. exact H2. }
  rewrite <- Zle_Qle in G1, G2. lia.
Qed.

Lemma Qabs_scaled (m e : Z) : (Qabs (inject_Z m * pow2 e) == inject_Z (Z.abs m) * pow2 e)%Q.
Proof.
  rewrite Qabs_Qmult. rewrite (Qabs_pos (pow2 e)) by (apply Qlt_le_weak, pow2_pos).
  reflexivity.
Qed.

(** A number with at most 53 significant bits, none below [2^-1074], is a
    binary64 number: rounding leaves it alone. *)
Lemma round64_fixed (q : Q) (m e : Z) :
  (q == inject_Z m * pow2 e)%Q -> -1074 <= e -> Z.abs m <= 2 ^ 53 -> (round64 q == q)%Q.
Proof.
  intros Hq He Hm. destruct (Qeq_dec q 0) as [Hz|Hnz].
  - rewrite (round64_0 q Hz). now symmetry.
  - destruct (round64_spec q Hnz) as (g & m' & HR & Hg1 & _ & H1 & H2).
    set (e' := Z.max (g - 52) (-1074)) in *.
    rewrite HR, Qred_correct.
    pose proof (pow2_pos e) as HP. pose proof (pow2_pos e') as HP'.
    assert (Habs : (Qabs q == inject_Z (Z.abs m) * pow2 e)%Q) by (rewrite Hq; apply Qabs_scaled).
    assert (Hm' : (inject_Z (Z.abs m) <= inject_Z (2 ^ 53))%Q) by (now rewrite <- Zle_Qle).
    assert (E53 : (pow2 (e + 53) == pow2 e * inject_Z (2 ^ 53))%Q)
      by (rewrite pow2_add, (pow2_Z 53) by lia; reflexivity).
    assert (Hge : g <= e + 53).
    { apply pow2_le_inv. rewrite E53. rewrite Habs in Hg1.
      set (A := inject_Z (Z.abs m)) in *. set (B := inject_Z (2 ^ 53)) in *. nra. }
    assert (HK : exists K, (q == inject_Z K * pow2 e')%Q).
    { destruct (Z.eq_dec g (e + 53)) as [Heq|Hne].
      - assert (Hfull : Z.abs m = 2 ^ 53).
        { apply Z.le_antisymm; [exact Hm|]. rewrite Zle_Qle.
          rewrite Habs, Heq, E53 in Hg1.
          set (A := inject_Z (Z.abs m)) in *. set (B := inject_Z (2 ^ 53)) in *. nra. }
        assert (He' : e' = e + 1) by (unfold e'; lia).
        exists (Z.sgn m * 2 ^ 52). rewrite Hq, He', pow2_succ.
        replace m with (Z.sgn m * 2 ^ 52 * 2) at 1.
        + rewrite (inject_Z_mult _ 2). change (inject_Z 2) with 2%Q. ring.
        + change (2 ^ 53) with (2 ^ 52 * 2) in Hfull. lia.
      - assert (He' : e' <= e) by (unfold e'; lia).
        exists (m * 2 ^ (e - e')). rewrite Hq, inject_Z_mult, <- pow2_Z by lia.
        rewrite <- Qmult_assoc, <- pow2_add. now replace (e - e' + e') with e by lia. }
    destruct HK as [K HK]. rewrite HK.
    assert (K = m') as <-; [|reflexivity].
    rewrite HK in H1, H2.
    set (X := inject_Z K) in *. set (Y := inject_Z m') in *. set (P := pow2 e') in *.
    apply integers_close; fold X Y; nra.
Qed.

Lemma round64_integer (z : Z) : Z.abs z <= 2 ^ 53 -> round64 (inject_Z z) = inject_Z z.
Proof.
  intros H. apply round64_eq; [|apply Qred_inject_Z].
  apply (round64_fixed _ z 0); [|lia|exact H].
  change (pow2 0) with 1%Q. ring.
Qed.

(** Rounding twice is rounding once. *)
Lemma round64_idempotent (q : Q) : round64 (round64 q) = round64 q.
Proof.
  apply round64_eq; [|apply round64_canonical].
  destruct (Qeq_dec q 0) as [Hz|Hnz]; [now rewrite (round64_0 q Hz)|].
  destruct (round64_spec q Hnz) as (g & m & HR & _ & Hg2 & H1 & H2).
  set (e := Z.max (g - 52) (-1074)) in *.
  apply (round64_fixed _ m e); [rewrite HR; apply Qred_correct | unfold e; lia |].
  pose proof (pow2_pos e) as HP.
  assert (Hle : (pow2 (g + 1) <= pow2 e * inject_Z (2 ^ 53))%Q).
  { rewrite <- (pow2_Z 53), <- pow2_add by lia. apply pow2_le. unfold e. lia. }
  assert (Hq : (- (pow2 e * inject_Z (2 ^ 53)) < q /\ q < pow2 e * inject_Z (2 ^ 53))%Q).
  { apply Qabs_Qlt_condition. eapply Qlt_le_trans; [exact Hg2 | exact Hle]. }
  destruct Hq as [Hq1 Hq2].
  change (inject_Z (2 ^ 53)) with 9007199254740992%Q in *.
  set (P := pow2 e) in *. set (M := inject_Z m) in *.
  assert (G1 : (inject_Z (2 * m) < inject_Z (2 ^ 54 + 1))%Q).
  { rewrite inject_Z_mult. fold M. change (inject_Z 2) with 2%Q.
    change (inject_Z (2 ^ 54 + 1)) with 18014398509481985%Q. nra. }
  assert (G2 : (inject_Z (- (2 ^ 54 + 1)) < inject_Z (2 * m))%Q).
  { rewrite inject_Z_mult. fold M. change (inject_Z 2) with 2%Q.
    change (inject_Z (- (2 ^ 54 + 1))) with (-18014398509481985)%Q. nra. }
  rewrite <- Zlt_Qlt in G1, G2. change (2 ^ 54) with (2 * 2 ^ 53) in G1, G2. lia.
Qed.

Lemma round64_opp (q : Q) : round64 (- q) = (- round64 q)%Q.
Proof.
  destruct q as [n d]. unfold round64. change (Qnum (- (n # d))) with (- n).
  change (Qden (- (n # d))) with d. cbn [Qnum Qden].
  destruct (Z.eqb_spec n 0) as [->|Hn]; [reflexivity|].
  destruct (Z.eqb_spec (- n) 0) as [|_]; [lia|].
  rewrite Z.abs_opp. set (e := Z.max _ _).
  rewrite <- Qred_opp. apply Qred_complete.
  destruct (Z.leb_spec 0 e) as [He|He].
  - rewrite nearest_even_opp, inject_Z_opp; [ring|].
    apply Z.mul_pos_pos; [lia | now apply Z.pow_pos_nonneg].
  - rewrite Z.mul_opp_l, nearest_even_opp, inject_Z_opp by lia. ring.
Qed.

(** Rounding does not take a number below [2^53]. *)
Lemma round64_large (q : Q) :
  (inject_Z (2 ^ 53) <= q)%Q -> (inject_Z (2 ^ 53) <= round64 q)%Q.
Proof.
  intros Hq. change (inject_Z (2 ^ 53)) with 9007199254740992%Q in *.
  assert (Hnz : ~ (q == 0)%Q) by lra.
  destruct (round64_spec q Hnz) as (g & m & HR & Hg1 & Hg2 & H1 & H2).
  rewrite Qabs_pos in Hg1, Hg2 by lra.
  assert (Hg : 53 <= g).
  { assert (H : 53 < g + 1); [|lia]. apply pow2_lt_inv.
    change (pow2 53) with 9007199254740992%Q. lra. }
  replace (Z.max (g - 52) (-1074)) with (g - 52) in * by lia.
  rewrite HR, Qred_correct.
  assert (E : (pow2 g == 4503599627370496 * pow2 (g - 52))%Q).
  { replace g with (52 + (g - 52)) at 1 by lia. rewrite pow2_add. reflexivity. }
  assert (HP : (2 <= pow2 (g - 52))%Q).
  { change 2%Q with (pow2 1). apply pow2_le. lia. }
  set (P := pow2 (g - 52)) in *. set (M := inject_Z m) in *.
  assert (G : (inject_Z (2 ^ 53 - 1) <= inject_Z (2 * m))%Q).
  { rewrite inject_Z_mult. fold M. change (inject_Z 2) with 2%Q.
    change (inject_Z (2 ^ 53 - 1)) with 9007199254740991%Q. nra. }
  rewrite <- Zle_Qle in G.
  assert (Hm : 2 ^ 52 <= m) by (change (2 ^ 53) with (2 * 2 ^ 52) in G; lia).
  rewrite Zle_Qle in Hm. fold M in Hm. change (inject_Z (2 ^ 52)) with 4503599627370496%Q in Hm.
  nra.
Qed.

Lemma Qfloor_between (q : Q) (k : Z) :
  (inject_Z k <= q)%Q -> (q < inject_Z (k + 1))%Q -> Qfloor q = k.
Proof.
  intros H1 H2. pose proof (Qfloor_le q) as F1. pose proof (Qlt_floor q) as F2.
  assert (G1 : (inject_Z (Qfloor q) < inject_Z (k + 1))%Q) by lra.
  assert (G2 : (inject_Z k < inject_Z (Qfloor q + 1))%Q) by lra.
  rewrite <- Zlt_Qlt in G1, G2. lia.
Qed.

(** A number at least as far below the integer [k + 1] as half the spacing of
    its binade is not rounded up to [k + 1], nor below the integer [k]. *)
Lemma round64_between (x : Q) (k : Z) :
  0 <= k < 2 ^ 53 ->
  (inject_Z k <= x)%Q ->
  (x + x * pow2 (-53) < inject_Z (k + 1))%Q ->
  (x + pow2 (-1075) < inject_Z (k + 1))%Q ->
  (inject_Z k <= round64 x)%Q /\ (round64 x < inject_Z (k + 1))%Q.
Proof.
  intros Hk Hlo Hgap1 Hgap2.
  assert (Hk0 : (0 <= inject_Z k)%Q) by (change 0%Q with (inject_Z 0); rewrite <- Zle_Qle; lia).
  assert (Hk1 : (inject_Z (k + 1) <= 9007199254740992)%Q)
    by (change 9007199254740992%Q with (inject_Z (2 ^ 53)); rewrite <- Zle_Qle; lia).
  destruct (Qeq_dec x 0) as [Hz|Hnz].
  - rewrite (round64_0 x Hz). rewrite Hz in Hlo, Hgap2.
    pose proof (pow2_pos (-1075)). split; lra.
  - destruct (round64_spec x Hnz) as (g & m & HR & Hg1 & Hg2 & H1 & H2).
    rewrite Qabs_pos in Hg1, Hg2 by lra.
    set (e := Z.max (g - 52) (-1074)) in *.
    rewrite HR, Qred_correct.
    pose proof (pow2_pos (-53)) as Hp53. pose proof (pow2_pos (-1075)) as Hp1075.
    assert (Hx : (0 < x)%Q) by lra.
    assert (Hg : g < 53).
    { apply pow2_lt_inv. change (pow2 53) with 9007199254740992%Q. nra. }
    assert (He : e <= 0) by (unfold e; lia).
    pose proof (pow2_inv e) as Hinv. pose proof (pow2_pos e) as HP.
    rewrite (pow2_Z (- e)) in Hinv by lia.
    assert (Hhalf : (x + pow2 e * (1 # 2) < inject_Z (k + 1))%Q).
    { destruct (Z.max_spec (g - 52) (-1074)) as [[_ E]|[_ E]]; fold e in E; rewrite E.
      - pose proof (pow2_succ (-1075)) as E'. change (-1075 + 1) with (-1074) in E'.
        set (a := pow2 (-1074)) in *. set (b := pow2 (-1075)) in *. lra.
      - assert (E' : (pow2 g == pow2 (g - 52) * 4503599627370496)%Q).
        { replace g with (g - 52 + 52) at 1 by lia. rewrite pow2_add. reflexivity. }
        change (pow2 (-53)) with (1 # 9007199254740992)%Q in Hgap1.
        set (P := pow2 (g - 52)) in *. nra. }
    set (P := pow2 e) in *. set (F := inject_Z (2 ^ (- e))) in *.
    set (M := inject_Z m) in *.
    assert (HF : (0 < F)%Q) by nra.
    assert (EK : forall z : Z, (inject_Z z == inject_Z (z * 2 ^ (- e)) * P)%Q).
    { intros z. rewrite inject_Z_mult. fold F. rewrite <- Qmult_assoc, (Qmult_comm F), Hinv. ring. }
    split.
    + assert (G : (inject_Z (2 * (k * 2 ^ (- e))) <= inject_Z (2 * m + 1))%Q).
      { rewrite inject_Z_plus, !inject_Z_mult. fold M.
        rewrite (EK k) in Hlo. rewrite inject_Z_mult in *. fold F in Hlo |- *.
        change (inject_Z 2) with 2%Q. change (inject_Z 1) with 1%Q.
        set (K := inject_Z k) in *. nra. }
      rewrite <- Zle_Qle in G.
      assert (Hm : k * 2 ^ (- e) <= m) by lia.
      rewrite (EK k). rewrite Zle_Qle in Hm. fold M in Hm. nra.
    + assert (G : (inject_Z (2 * m) < inject_Z (2 * ((k + 1) * 2 ^ (- e))))%Q).
      { rewrite !inject_Z_mult. fold M.
        rewrite (EK (k + 1)) in Hhalf. rewrite inject_Z_mult in *. fold F in Hhalf |- *.
        change (inject_Z 2) with 2%Q.
        set (K := inject_Z (k + 1)) in *. nra. }
      rewrite <- Zlt_Qlt in G.
      assert (Hm : m < (k + 1) * 2 ^ (- e)) by lia.
      rewrite (EK (k + 1)). rewrite Zlt_Qlt in Hm. fold M in Hm. nra.
Qed.

Local Open Scope string_scope.

(** ** Road condition *)

Lemma holds_or3 (a b : option bool) : holds (or3 a b) = holds a || holds b.
Proof. destruct a as [[|]|], b as [[|]|]; reflexivity. Qed.

Lemma eval_cond (p j : nat) (row : string -> value) :
  eval cond p j row =
    if is_one (row "bad_road_left") || is_one (row "bad_road_right") then VStr "bad"
    else if is_one (row "regular_road_left") || is_one (row "regular_road_right")
         then VStr "regular"
         else VStr "good".
Proof.
  unfold is_one. cbn [cond col_when col_or col_eq col eval when_otherwise].
  now rewrite !holds_or3.
Qed.

(** C1. The derivation of [road_condition] is total with precedence
    bad > regular > good: on every row it gives ['bad'] when
    [bad_road_left == 1] or [bad_road_right == 1], otherwise ['regular'] when
    [regular_road_left == 1] or [regular_road_right == 1], otherwise ['good'];
    the result is one of the three labels; the row of the scenario
    (bad 0/1, regular 1/0, good 0/0) is labelled ['bad'], also when it goes
    through the label steps of [dataset_preparation]. *)
Theorem road_condition_precedence :
  forall (p j : nat) (row : string -> value),
    eval cond p j row =
      (if is_one (row "bad_road_left") || is_one (row "bad_road_right") then VStr "bad"
       else if is_one (row "regular_road_left") || is_one (row "regular_road_right")
            then VStr "regular"
            else VStr "good")
    /\ (eval cond p j row = VStr "bad" \/ eval cond p j row = VStr "regular"
        \/ eval cond p j row = VStr "good")
    /\ eval cond p j (field label_columns scenario_row) = VStr "bad"
    /\ label_steps (mkDataFrame label_columns [[scenario_row]])
       = Ok (mkDataFrame ["timestep"; "road_condition"] [[[VInt 0; VStr "bad"]]]).
Proof.
  intros p j row. rewrite !eval_cond. repeat split.
  destruct (is_one (row "bad_road_left") || is_one (row "bad_road_right")); auto.
  destruct (is_one (row "regular_road_left") || is_one (row "regular_road_right")); auto.
Qed.

(** C10. The derived [road_condition] does not depend on the good-road
    indicators: two rows that agree on the four bad and regular indicators
    get the same label, whatever their other cells hold. *)
Theorem road_condition_ignores_good :
  forall (p j p' j' : nat) (row row' : string -> value),
    row "bad_road_left" = row' "bad_road_left" ->
    row "bad_road_right" = row' "bad_road_right" ->
    row "regular_road_left" = row' "regular_road_left" ->
    row "regular_road_right" = row' "regular_road_right" ->
    eval cond p j row = eval cond p' j' row'.
Proof.
  intros p j p' j' row row' Hbl Hbr Hrl Hrr.
  rewrite !eval_cond. now rewrite Hbl, Hbr, Hrl, Hrr.
Qed.

Lemma road_condition_ignores_good_witness :
  eval cond 0 0 (field label_columns
                   [VStr "1"; VStr "0"; VStr "1"; VStr "0"; VStr "0"; VStr "0"; VInt 0])
  = eval cond 0 1 (field label_columns
                   [VStr "0"; VNull; VStr "1"; VStr "0"; VStr "0"; VStr "0"; VInt 1]).
Proof.
  apply road_condition_ignores_good; reflexivity.
Defined.

(** ** Moving average *)

Lemma length_removelast {A : Type} (l : list A) :
  List.length (removelast l) = (List.length l - 1)%nat.
Proof.
  rewrite removelast_firstn_len, length_firstn. lia.
Qed.

Lemma np_convolve_valid_length (a v out : list Q) :
  np_convolve_valid a v = Ok out ->
  (List.length v <= List.length a)%nat ->
  List.length out = (List.length a - List.length v + 1)%nat.
Proof.
  unfold np_convolve_valid. intros H Hle.
  destruct a as [|x a]; [discriminate|]. destruct v as [|y v]; [discriminate|].
  destruct (Nat.ltb_spec (List.length (x :: a)) (List.length (y :: v))) as [Hlt|_]; [lia|].
  injection H as <-. now rewrite length_map, length_seq.
Qed.

(** Shape of the result on a non-empty array and a positive window. *)
Lemma moving_average_shape (arr : list Q) (window_size : Z) :
  arr <> [] -> 0 < window_size ->
  exists out, moving_average arr window_size = Ok out /\
    zlength out = zlength arr + 2 * (window_size / 2) - window_size + 1 - 1.
Proof.
  intros Harr Hw. unfold moving_average, zlength.
  assert (Hn : (0 < List.length arr)%nat) by (destruct arr; [congruence | simpl; lia]).
  assert (Hh : 0 <= window_size / 2) by (apply Z.div_pos; lia).
  assert (Hhalf : window_size - 1 <= 2 * (window_size / 2)).
  { pose proof (Z.div_mod window_size 2 ltac:(lia)).
    pose proof (Z.mod_pos_bound window_size 2 ltac:(lia)). lia. }
  unfold np_pad_reflect.
  destruct (Z.ltb_spec (window_size / 2) 0) as [?|_]; [lia|]. cbn [orb].
  destruct (Z.eqb_spec (Z.of_nat (List.length arr)) 0) as [?|_]; [lia|]. cbn [andb bind].
  unfold np_ones. destruct (Z.ltb_spec window_size 0) as [?|_]; [lia|]. cbn [bind].
  match goal with |- context [np_convolve_valid ?a ?v] =>
    set (padded := a); set (kernel := v) end.
  assert (Hp : List.length padded
               = Z.to_nat (window_size / 2 + Z.of_nat (List.length arr) + window_size / 2)).
  { unfold padded. now rewrite length_map, length_seq. }
  assert (Hk : List.length kernel = Z.to_nat window_size).
  { unfold kernel. now rewrite length_map, repeat_length. }
  destruct (np_convolve_valid padded kernel) as [conv|e] eqn:Hconv.
  - cbn [bind]. eexists; split; [reflexivity|].
    rewrite length_removelast, (np_convolve_valid_length _ _ _ Hconv) by lia. lia.
  - exfalso. unfold np_convolve_valid in Hconv.
    destruct padded; [simpl in Hp; lia|]. destruct kernel; [simpl in Hk; lia|].
    destruct (_ <? _)%nat; discriminate.
Qed.

(** C3, with the even case as computed. For every non-empty [arr] and positive
    [window_size], [moving_average] returns a sequence of length
    [len(arr) + 2*(window_size//2) - window_size + 1 - 1]; that is
    [len(arr) - 1] for an odd window and [len(arr)] for an even one. *)
Theorem moving_average_length :
  forall (arr : list Q) (window_size : Z),
    arr <> [] -> 0 < window_size ->
    exists out, moving_average arr window_size = Ok out /\
      zlength out = zlength arr + 2 * (window_size / 2) - window_size + 1 - 1 /\
      (Z.odd window_size = true -> zlength out = zlength arr - 1) /\
      (Z.even window_size = true -> zlength out = zlength arr).
Proof.
  intros arr w Harr Hw.
  destruct (moving_average_shape arr w Harr Hw) as (out & Hout & Hlen).
  exists out. repeat split; trivial.
  - intros Hodd. rewrite Hlen.
    rewrite (Zodd_div2 w) at 2 by (now apply Zodd_bool_iff).
    rewrite Z.div2_div. lia.
  - intros Heven. rewrite Hlen.
    rewrite (Zeven_div2 w) at 2 by (now apply Zeven_bool_iff).
    rewrite Z.div2_div. lia.
Qed.

Lemma moving_average_length_witness :
  exists out, moving_average [1; 2; 3; 4]%Q 2 = Ok out /\
    zlength out = zlength [1; 2; 3; 4]%Q + 2 * (2 / 2) - 2 + 1 - 1 /\
    (Z.odd 2 = true -> zlength out = zlength [1; 2; 3; 4]%Q - 1) /\
    (Z.even 2 = true -> zlength out = zlength [1; 2; 3; 4]%Q).
Proof.
  apply moving_average_length; [discriminate | reflexivity].
Defined.

(** C3, as the specification words it, fails for an even window: with four
    elements and [window_size = 2] the result has four elements, not two. *)
Lemma moving_average_even_window_length :
  exists out, moving_average [1; 2; 3; 4]%Q 2 = Ok out /\
    Z.even 2 = true /\
    zlength out = 4 /\
    zlength out <> zlength [1; 2; 3; 4]%Q - 2.
Proof.
  eexists. split; [vm_compute; reflexivity|]. repeat split. discriminate.
Qed.

(** C4, in double precision. [moving_average([1, 2, 3, 4, 5], 3)]: the
    reflect padding is [2, 1, 2, 3, 4, 5, 4]; the kernel is three times the
    double nearest to [1/3]; the valid convolution, computed in doubles, is
    [1.6666666666666665, 2.0, 3.0, 3.9999999999999996, 4.333333333333333],
    and the result, without the last element, is
    [1.6666666666666665, 2.0, 3.0, 3.9999999999999996]: the values
    [5/3, 2, 3, 4] up to one unit in the last place. *)
Theorem moving_average_example :
  np_pad_reflect [1; 2; 3; 4; 5]%Q (3 / 2) (3 / 2) = Ok [2; 1; 2; 3; 4; 5; 4]%Q /\
  (ones <- np_ones 3 ;; Ok (map (fun x => round64 (x / round64 (inject_Z 3))) ones))
    = Ok [round64 (1 # 3); round64 (1 # 3); round64 (1 # 3)] /\
  round64 (1 # 3) = (6004799503160661 # 18014398509481984)%Q /\
  np_convolve_valid [2; 1; 2; 3; 4; 5; 4]%Q
                    [round64 (1 # 3); round64 (1 # 3); round64 (1 # 3)]
    = Ok [3752999689475413 # 2251799813685248; 2; 3;
          9007199254740991 # 2251799813685248;
          4878899596318037 # 1125899906842624]%Q /\
  moving_average [1; 2; 3; 4; 5]%Q 3
    = Ok [3752999689475413 # 2251799813685248; 2; 3;
          9007199254740991 # 2251799813685248]%Q /\
  Forall2 (fun y x => Qabs (y - x) <= pow2 (-51))%Q
          [3752999689475413 # 2251799813685248; 2; 3;
           9007199254740991 # 2251799813685248]%Q
          [5 # 3; 2; 3; 4]%Q.
Proof.
  repeat split; try (vm_compute; reflexivity).
  repeat constructor; vm_compute; discriminate.
Qed.

(** C4, as the specification words it, fails: the first and the fourth value
    of the result are not [5/3] and [4], and the kernel does not hold
    [1/3]. *)
Lemma moving_average_example_rounded :
  exists out, moving_average [1; 2; 3; 4; 5]%Q 3 = Ok out /\
    ~ (nth 0 out 0 == 5 # 3)%Q /\
    ~ (nth 3 out 0 == 4)%Q /\
    ~ (round64 (1 # 3) == 1 # 3)%Q /\
    ~ Forall2 Qeq out [5 # 3; 2; 3; 4]%Q.
Proof.
  eexists. split; [vm_compute; reflexivity|].
  assert (H0 : ~ (3752999689475413 # 2251799813685248 == 5 # 3)%Q)
    by (intros E; vm_compute in E; discriminate).
  repeat split.
  - exact H0.
  - intros E. vm_compute in E. discriminate.
  - intros E. vm_compute in E. discriminate.
  - intros H. inversion H; subst. contradiction.
Qed.

(** ** Windowed approximation: what [approximate_ts] computes *)

Lemma resolve_has_column (cols : list string) (name : string) :
  has_column cols name = true ->
  exists i, resolve cols name = Ok i /\ index_of name cols = Some i.
Proof. unfold has_column. intros H. apply resolve_ok. now apply Nat.eqb_eq. Qed.

Lemma resolve_no_column (cols : list string) (name : string) :
  has_column cols name = false -> resolve cols name = Raise AnalysisException.
Proof.
  unfold has_column. intros H. rewrite resolve_spec. now rewrite H.
Qed.

Lemma mapM_sources (cols : list string) (aggs : list AggExpr) :
  if forallb (fun a => has_column cols (source a)) aggs
  then exists idxs, mapM (fun a => resolve cols (source a)) aggs = Ok idxs
  else mapM (fun a => resolve cols (source a)) aggs = Raise AnalysisException.
Proof.
  destruct (forallb _ aggs) eqn:Hall.
  - rewrite forallb_forall in Hall.
    destruct (mapM_ok (fun a => resolve cols (source a)) aggs) as [ys [Hys _]].
    + apply Forall_forall. intros a Ha.
      destruct (resolve_has_column _ _ (Hall a Ha)) as [i [Hi _]]. now exists i.
    + now exists ys.
  - apply mapM_raise.
    + intros a e He. now apply resolve_raise in He.
    + apply Exists_exists.
      assert (Hex : existsb (fun a => negb (has_column cols (source a))) aggs = true).
      { clear -Hall. induction aggs as [|a aggs IH]; simpl in *; [discriminate|].
        destruct (has_column cols (source a)); simpl in *; auto. }
      apply existsb_exists in Hex. destruct Hex as [a [Ha Hneg]].
      exists a. split; [assumption|]. exists AnalysisException.
      apply resolve_no_column. now destruct (has_column cols (source a)).
Qed.

Lemma collect_withColumn_group_by (df : DataFrame) (timesteps : Z) (cols' : list string) :
  collect
    {| columns := cols';
       partitions :=
         mapi (fun p part =>
                 mapi (fun j r =>
                         put "group_by" (columns df) r
                             (eval (col_cast_integer (col_div (col "timestep") timesteps))
                                   p j (field (columns df) r))) part)
              (partitions df) |}
  = map (fun r => put "group_by" (columns df) r (window_index (columns df) timesteps r))
        (collect df).
Proof.
  unfold mapi, collect. cbn [partitions].
  exact (concat_mapi_const
           (fun r => put "group_by" (columns df) r (window_index (columns df) timesteps r))
           (partitions df) 0).
Qed.

Lemma filter_map_comm {A B : Type} (f : A -> B) (p : B -> bool) (l : list A) :
  filter p (map f l) = map f (filter (fun x => p (f x)) l).
Proof.
  induction l as [|x l IH]; simpl; [reflexivity|].
  destruct (p (f x)); simpl; now rewrite IH.
Qed.

Lemma index_of_timestep_aggregated (label : bool) (features : list AggExpr) :
  index_of "timestep" ("group_by" :: map alias (aggregations label features)) = Some 1%nat.
Proof. destruct label; reflexivity. Qed.

(** [approximate_ts] raises exactly when a name cannot be resolved, and
    otherwise returns the sorted window summaries; [timesteps] plays no part
    in which of the two happens. *)
Lemma approximate_ts_spec (df : DataFrame) (features : list AggExpr)
                          (timesteps : Z) (label : bool) :
  approximate_ts df features timesteps label =
    if aggregable df features label
    then Ok (approximated df features timesteps label)
    else Raise AnalysisException.
Proof.
  unfold approximate_ts, aggregable, withColumn.
  change (references (col_cast_integer (col_div (col "timestep") timesteps)))
    with ["timestep"].
  cbn [mapM].
  destruct (has_column (columns df) "timestep") eqn:Hts; cbn [andb];
    [|rewrite (resolve_no_column _ _ Hts); reflexivity].
  destruct (resolve_has_column _ _ Hts) as [its [-> _]]. cbn [bind].
  fold (with_name "group_by" (columns df)).
  set (cols' := with_name "group_by" (columns df)).
  set (df1 := {| columns := cols'; partitions := _ |}).
  assert (Hrows : collect df1
                  = map (fun r => put "group_by" (columns df) r
                                      (window_index (columns df) timesteps r)) (collect df))
    by apply collect_withColumn_group_by.
  assert (Hgoal :
    (res <- groupBy_agg "group_by" (aggregations label features) df1 ;; orderBy "timestep" res)
    = if has_column cols' "group_by"
         && forallb (fun a => has_column cols' (source a)) (aggregations label features)
         && has_column ("group_by" :: map alias (aggregations label features)) "timestep"
      then Ok (approximated df features timesteps label)
      else Raise AnalysisException).
  2:{ destruct label; exact Hgoal. }
  unfold groupBy_agg. change (columns df1) with cols'.
  destruct (has_column cols' "group_by") eqn:Hg; cbn [andb];
    [|rewrite (resolve_no_column _ _ Hg); reflexivity].
  destruct (resolve_has_column _ _ Hg) as [k [-> Hk]]. cbn [bind].
  assert (Hkey : nth k cols' ""%string = "group_by"%string)
    by (apply nth_with_name; exact Hk).
  rewrite Hkey.
  pose proof (mapM_sources cols' (aggregations label features)) as Hsrc.
  destruct (forallb _ (aggregations label features)); cbn [andb];
    [|rewrite Hsrc; reflexivity].
  destruct Hsrc as [idxs ->]. cbn [bind].
  unfold orderBy. cbn [columns].
  destruct (has_column ("group_by" :: map alias (aggregations label features)) "timestep")
    eqn:Hout;
    [|rewrite (resolve_no_column _ _ Hout); reflexivity].
  destruct (resolve_has_column _ _ Hout) as [i [-> Hi]]. cbn [bind].
  rewrite index_of_timestep_aggregated in Hi. injection Hi as <-.
  unfold approximated. f_equal. f_equal. f_equal.
  unfold collect at 1. cbn [partitions List.concat]. rewrite app_nil_r.
  assert (Hcell : forall r,
    cell (put "group_by" (columns df) r (window_index (columns df) timesteps r)) k
    = window_index (columns df) timesteps r).
  { intros r.
    pose proof (field_put_same "group_by" (columns df) r
                  (window_index (columns df) timesteps r)) as H.
    unfold field in H. fold cols' in H. now rewrite Hk in H. }
  f_equal.
  assert (Hkeys : map (fun r => cell r k) (collect df1)
                  = map (window_index (columns df) timesteps) (collect df)).
  { rewrite Hrows, map_map. apply map_ext. exact Hcell. }
  rewrite Hkeys. fold (windows df timesteps).
  apply map_ext. intros g. unfold summary. f_equal.
  apply map_ext. intros a. f_equal.
  rewrite Hrows, filter_map_comm, map_map. unfold window_rows.
  rewrite (filter_ext _ (fun r => group_eqb g (window_index (columns df) timesteps r)))
    by (intros r; now rewrite Hcell).
  apply map_ext. intros r. unfold reading, cols'.
  destruct (same_name (source a) "group_by") eqn:Hsrc.
  - unfold field. rewrite (index_of_as _ _ _ Hsrc). apply field_put_same.
  - now apply field_put_other.
Qed.

(** ** Grouping keys *)

Lemma group_eqb_refl (v : value) : exact v -> group_eqb v v = true.
Proof.
  destruct v; simpl; intros H; try reflexivity.
  - apply String.eqb_refl.
  - apply Z.eqb_refl.
  - contradiction.
Qed.

Lemma group_eqb_eq (a b : value) : exact a -> group_eqb a b = true -> a = b.
Proof.
  destruct a, b; simpl; intros H E; try discriminate; try contradiction.
  - reflexivity.
  - apply String.eqb_eq in E. now subst.
  - apply Z.eqb_eq in E. now subst.
Qed.

Lemma In_distinct (l : list value) (x : value) : In x (distinct l) -> In x l.
Proof.
  induction l as [|k ks IH]; simpl; [tauto|].
  intros [->|H]; [now left|]. right. apply filter_In in H. tauto.
Qed.

Lemma distinct_complete (l : list value) (x : value) :
  Forall exact l -> In x l -> In x (distinct l).
Proof.
  induction 1 as [|k ks Hk Hks IH]; simpl; [tauto|].
  intros [->|H]; [now left|].
  destruct (group_eqb k x) eqn:E.
  - left. now apply group_eqb_eq.
  - right. apply filter_In. split; [auto | now rewrite E].
Qed.

Lemma NoDup_distinct (l : list value) : Forall exact l -> NoDup (distinct l).
Proof.
  induction 1 as [|k ks Hk Hks IH]; simpl; constructor.
  - intros H. apply filter_In in H. destruct H as [_ H].
    now rewrite group_eqb_refl in H.
  - now apply NoDup_filter.
Qed.

Lemma distinct_NoDup_id (l : list value) : Forall exact l -> NoDup l -> distinct l = l.
Proof.
  induction 1 as [|k ks Hk Hks IH]; simpl; intros Hnd; [reflexivity|].
  inversion Hnd as [|? ? Hnotin Hnd']; subst. rewrite (IH Hnd'). f_equal.
  apply forallb_filter_id. apply forallb_forall. intros x Hx.
  destruct (group_eqb k x) eqn:E; [|reflexivity].
  apply group_eqb_eq in E; [|assumption]. now subst.
Qed.

(** The number of groups only depends on which keys occur. *)
Lemma distinct_length_same_keys (l l' : list value) :
  Forall exact l -> NoDup l' -> (forall x, In x l <-> In x l') ->
  List.length (distinct l) = List.length l'.
Proof.
  intros Hex Hnd Hin. apply Permutation_length. apply NoDup_Permutation.
  - now apply NoDup_distinct.
  - assumption.
  - intros x. rewrite <- Hin. split; [apply In_distinct | now apply distinct_complete].
Qed.

Lemma filter_none {A : Type} (p : A -> bool) (l : list A) :
  (forall z, In z l -> p z = false) -> filter p l = [].
Proof.
  induction l as [|y l IH]; simpl; intros H; [reflexivity|].
  rewrite (H y (or_introl eq_refl)). apply IH. auto.
Qed.

Lemma filter_unique {A : Type} (key : A -> value) (l : list A) (x : A) :
  NoDup (map key l) -> Forall (fun y => exact (key y)) l -> In x l ->
  filter (fun y => group_eqb (key x) (key y)) l = [x].
Proof.
  induction l as [|y l IH]; simpl; [tauto|].
  intros Hnd Hex Hin. inversion Hnd as [|? ? Hnotin Hnd']; subst.
  inversion Hex as [|? ? Hy Hex']; subst.
  destruct Hin as [->|Hin].
  - rewrite group_eqb_refl by assumption. f_equal.
    apply filter_none. intros z Hz.
    destruct (group_eqb (key x) (key z)) eqn:E; [|reflexivity].
    apply group_eqb_eq in E; [|assumption].
    exfalso. apply Hnotin. rewrite E. now apply in_map.
  - destruct (group_eqb (key x) (key y)) eqn:E.
    + apply group_eqb_eq in E; [|now apply (proj1 (Forall_forall _ _) Hex')].
      exfalso. apply Hnotin. rewrite <- E. now apply in_map.
    + now apply IH.
Qed.

(** ** Sorting *)

Lemma length_insert_by (key : Row -> value) (x : Row) (l : list Row) :
  List.length (insert_by key x l) = S (List.length l).
Proof.
  induction l as [|y l IH]; simpl; [reflexivity|].
  destruct (value_leb (key x) (key y)); simpl; now rewrite ?IH.
Qed.

Lemma length_sort_by (key : Row -> value) (l : list Row) :
  List.length (sort_by key l) = List.length l.
Proof.
  induction l as [|x l IH]; simpl; [reflexivity|]. now rewrite length_insert_by, IH.
Qed.

Lemma Permutation_insert_by (key : Row -> value) (x : Row) (l : list Row) :
  Permutation (x :: l) (insert_by key x l).
Proof.
  induction l as [|y l IH]; simpl; [reflexivity|].
  destruct (value_leb (key x) (key y)); [reflexivity|].
  rewrite perm_swap. now apply perm_skip.
Qed.

Lemma Permutation_sort_by (key : Row -> value) (l : list Row) :
  Permutation l (sort_by key l).
Proof.
  induction l as [|x l IH]; simpl; [reflexivity|].
  rewrite <- Permutation_insert_by. now apply perm_skip.
Qed.

Lemma In_sort_by (key : Row -> value) (l : list Row) (x : Row) :
  In x (sort_by key l) <-> In x l.
Proof.
  split; apply Permutation_in;
    [symmetry|]; apply Permutation_sort_by.
Qed.

Lemma insert_by_map (f : Row -> Row) (k k' : Row -> value) (x : Row) (l : list Row) :
  k' (f x) = k x -> (forall y, In y l -> k' (f y) = k y) ->
  insert_by k' (f x) (map f l) = map f (insert_by k x l).
Proof.
  intros Hx. induction l as [|y l IH]; simpl; intros Hl; [reflexivity|].
  rewrite Hx, (Hl y (or_introl eq_refl)).
  destruct (value_leb (k x) (k y)); simpl; [reflexivity|].
  f_equal. apply IH. auto.
Qed.

(** Sorting commutes with a row transformation that keeps the sort key. *)
Lemma sort_by_map (f : Row -> Row) (k k' : Row -> value) (l : list Row) :
  (forall x, In x l -> k' (f x) = k x) ->
  sort_by k' (map f l) = map f (sort_by k l).
Proof.
  induction l as [|x l IH]; simpl; intros Hl; [reflexivity|].
  rewrite IH by auto. apply insert_by_map; [auto|].
  intros y Hy. apply Hl. right. now apply In_sort_by in Hy.
Qed.

Lemma value_leb_total_int (a b : value) :
  (exists x, a = VInt x) -> (exists y, b = VInt y) ->
  value_leb a b = false -> value_leb b a = true.
Proof.
  intros [x ->] [y ->]. simpl. intros H. apply Z.leb_gt in H. apply Z.leb_le. lia.
Qed.

Lemma insert_by_sorted (key : Row -> value) (x : Row) (l : list Row) :
  (exists z, key x = VInt z) -> Forall (fun y => exists z, key y = VInt z) l ->
  Sorted (ascending key) l -> Sorted (ascending key) (insert_by key x l).
Proof.
  intros Hx Hl Hs. induction Hs as [|y l Hs IH Hhd]; simpl.
  - repeat constructor.
  - inversion Hl as [|? ? Hy Hl']; subst.
    destruct (value_leb (key x) (key y)) eqn:E.
    + constructor; [now constructor | now constructor].
    + constructor; [now apply IH|].
      destruct l as [|w l]; simpl.
      * constructor. now apply value_leb_total_int.
      * destruct (value_leb (key x) (key w)).
        -- constructor. now apply value_leb_total_int.
        -- inversion Hhd; subst. now constructor.
Qed.

Lemma sort_by_sorted (key : Row -> value) (l : list Row) :
  Forall (fun y => exists z, key y = VInt z) l ->
  Sorted (ascending key) (sort_by key l).
Proof.
  induction 1 as [|x l Hx Hl IH]; simpl; [constructor|].
  apply insert_by_sorted; trivial.
  apply Forall_forall. intros y Hy. apply In_sort_by in Hy.
  now apply (proj1 (Forall_forall _ _) Hl).
Qed.

(** ** Window indices of the timesteps [0 .. N-1] *)

Lemma two_pow_31 : 2 ^ 31 = 2147483648.
Proof. reflexivity. Qed.

Lemma two_pow_32 : 2 ^ 32 = 4294967296.
Proof. reflexivity. Qed.

Lemma saturate32_nonneg (z : Z) : 0 <= z -> saturate32 z = Z.min z int_max.
Proof. unfold saturate32, int_min, int_max. rewrite two_pow_31. lia. Qed.

Lemma Qtrunc_between (q : Q) (k : Z) :
  0 <= k -> (inject_Z k <= q)%Q -> (q < inject_Z (k + 1))%Q -> Qtrunc q = k.
Proof.
  intros Hk H1 H2. unfold Qtrunc.
  assert (Hpos : Qle_bool 0 q = true).
  { apply Qle_bool_iff. rewrite Zle_Qle in Hk. change (inject_Z 0) with 0%Q in Hk. lra. }
  rewrite Hpos. now apply Qfloor_between.
Qed.

Lemma nonzero_double (q : Q) : (0 < q)%Q -> Qeq_bool q 0 = false.
Proof.
  intros H. destruct (Qeq_bool q 0) eqn:E; [|reflexivity].
  apply Qeq_bool_iff in E. lra.
Qed.

(** The binary64 quotient of a non-negative integer below [2^53] by a
    positive integer lies between the integer quotient and its successor:
    the rounding of the divisor and of the quotient never reaches the next
    integer. *)
Lemma divide_integers (i t : Z) :
  0 <= i < 2 ^ 53 -> 1 <= t ->
  exists q, divide (VInt i) (VInt t) = VDouble q
            /\ (inject_Z (i / t) <= q)%Q /\ (q < inject_Z (i / t + 1))%Q.
Proof.
  intros Hi Ht. unfold divide. cbn [as_double].
  rewrite (round64_integer i) by lia.
  pose proof (pow2_pos (-53)) as Hp. pose proof (pow2_pos (-1075)) as Hc.
  pose proof (pow2_lt (-1075) (-53) ltac:(lia)) as Hcp.
  pose proof (pow2_inv (-53)) as Hinv. change (pow2 (- -53)) with 9007199254740992%Q in Hinv.
  assert (HI0 : (0 <= inject_Z i)%Q)
    by (change 0%Q with (inject_Z 0); rewrite <- Zle_Qle; lia).
  assert (HI : (inject_Z i <= 9007199254740991)%Q)
    by (change 9007199254740991%Q with (inject_Z (2 ^ 53 - 1)); rewrite <- Zle_Qle; lia).
  set (p := pow2 (-53)) in *. set (c := pow2 (-1075)) in *. set (I := inject_Z i) in *.
  assert (HIp : (I * p < 1)%Q) by nra.
  destruct (Z.le_gt_cases t (2 ^ 53)) as [Hsmall|Hbig].
  - rewrite (round64_integer t) by lia.
    assert (HT : (1 <= inject_Z t)%Q)
      by (change 1%Q with (inject_Z 1); rewrite <- Zle_Qle; lia).
    assert (HT' : (inject_Z t <= 9007199254740992)%Q)
      by (change 9007199254740992%Q with (inject_Z (2 ^ 53)); now rewrite <- Zle_Qle).
    rewrite nonzero_double by lra. eexists. split; [reflexivity|].
    pose proof (Z.mul_div_le i t ltac:(lia)) as Hlo.
    pose proof (Z.mul_succ_div_gt i t ltac:(lia)) as Hhi.
    assert (Hq : 0 <= i / t) by (apply Z.div_pos; lia).
    assert (Hq' : i / t <= i) by (apply Z.div_le_upper_bound; nia).
    assert (Glo : (inject_Z t * inject_Z (i / t) <= I)%Q)
      by (rewrite <- inject_Z_mult; unfold I; now rewrite <- Zle_Qle).
    assert (Ghi : (I + 1 <= inject_Z t * inject_Z (i / t + 1))%Q).
    { rewrite <- inject_Z_mult. change 1%Q with (inject_Z 1). unfold I.
      rewrite <- inject_Z_plus, <- Zle_Qle. unfold Z.succ in Hhi. lia. }
    assert (Hx : (I == I / inject_Z t * inject_Z t)%Q) by (field; lra).
    set (T := inject_Z t) in *. set (x := (I / T)%Q) in *.
    set (K := inject_Z (i / t)) in *. set (K1 := inject_Z (i / t + 1)) in *.
    apply round64_between; fold p c K K1; [lia | nra | nra | nra].
  - assert (HT : (9007199254740992 <= round64 (inject_Z t))%Q).
    { change 9007199254740992%Q with (inject_Z (2 ^ 53)). apply round64_large.
      rewrite <- Zle_Qle. lia. }
    rewrite nonzero_double by lra. eexists. split; [reflexivity|].
    rewrite (Z.div_small i t) by lia.
    set (T := round64 (inject_Z t)) in *.
    assert (Hx : (I == I / T * T)%Q) by (field; lra).
    set (x := (I / T)%Q) in *.
    assert (Hx1 : (x <= 1 - p)%Q) by nra.
    assert (Hx0 : (0 <= x)%Q) by nra.
    apply round64_between; fold p c; change (inject_Z 0) with 0%Q;
      change (inject_Z (0 + 1)) with 1%Q; [lia | nra | nra | nra].
Qed.

(** For a timestep in [0, 2^53) and [timesteps >= 1] the window index is the
    integer quotient, capped at the largest 32-bit integer. *)
Lemma window_of_timestep (i t : Z) :
  0 <= i < 2 ^ 53 -> 1 <= t ->
  cast_integer (divide (VInt i) (VInt t)) = VInt (Z.min (i / t) int_max).
Proof.
  intros Hi Ht. destruct (divide_integers i t Hi Ht) as (q & -> & H1 & H2).
  cbn [cast_integer].
  assert (Hq : 0 <= i / t) by (apply Z.div_pos; lia).
  rewrite (Qtrunc_between q (i / t)) by assumption.
  now rewrite saturate32_nonneg.
Qed.

Lemma window_index_timestep (cols : list string) (r : Row) (i t : Z) :
  field cols r "timestep" = VInt i -> 0 <= i < 2 ^ 53 -> 1 <= t ->
  window_index cols t r = VInt (Z.min (i / t) int_max).
Proof.
  intros Hf Hi Ht. unfold window_index. rewrite Hf. now apply window_of_timestep.
Qed.

Lemma ceil_div_pred (n t : Z) : 1 <= n -> 1 <= t -> ceil_div n t = (n - 1) / t + 1.
Proof.
  intros Hn Ht. unfold ceil_div.
  replace (n + t - 1) with (n - 1 + 1 * t) by lia.
  rewrite Z.div_add by lia. reflexivity.
Qed.

Lemma ceil_div_0 (t : Z) : 1 <= t -> ceil_div 0 t = 0.
Proof. intros Ht. unfold ceil_div. apply Z.div_small. lia. Qed.

Lemma In_range_values (n : nat) (v : value) :
  In v (range_values n) <-> exists i, v = VInt i /\ 0 <= i < Z.of_nat n.
Proof.
  unfold range_values. rewrite in_map_iff. split.
  - intros [k [<- Hk]]. apply in_seq in Hk. exists (Z.of_nat k). split; [reflexivity | lia].
  - intros [i [-> Hi]]. exists (Z.to_nat i). split; [f_equal; lia|].
    apply in_seq. lia.
Qed.

Lemma NoDup_range_values (n : nat) : NoDup (range_values n).
Proof.
  unfold range_values. generalize 0%nat as s.
  induction n as [|n IH]; simpl; intros s; constructor.
  - rewrite in_map_iff. intros [k [Hk Hin]]. apply in_seq in Hin.
    injection Hk as Hk. lia.
  - apply IH.
Qed.

Lemma length_range_values (n : nat) : List.length (range_values n) = n.
Proof. unfold range_values. now rewrite length_map, length_seq. Qed.

(** The window indices that occur among the timesteps [0 .. N-1]. *)
Lemma window_indices_range (l : list value) (N : nat) (t : Z) :
  Permutation l (range_values N) -> Z.of_nat N <= 2 ^ 53 -> 1 <= t ->
  List.length (distinct (map (fun v => cast_integer (divide v (VInt t))) l))
  = Z.to_nat (Z.min (ceil_div (Z.of_nat N) t) (2 ^ 31)).
Proof.
  intros Hperm HN53 Ht.
  set (M := Z.to_nat (Z.min (ceil_div (Z.of_nat N) t) (2 ^ 31))).
  rewrite <- (length_range_values M).
  assert (Hl : forall v, In v l <-> exists i, v = VInt i /\ 0 <= i < Z.of_nat N).
  { intros v. rewrite <- In_range_values. split; apply Permutation_in;
      [assumption | now symmetry]. }
  apply distinct_length_same_keys.
  - apply Forall_forall. intros v Hv. apply in_map_iff in Hv.
    destruct Hv as [w [<- Hw]]. apply Hl in Hw. destruct Hw as [i [-> Hi]].
    rewrite window_of_timestep by lia. exact I.
  - apply NoDup_range_values.
  - intros v. rewrite In_range_values, in_map_iff. unfold M. rewrite two_pow_31.
    split.
    + intros [w [<- Hw]]. apply Hl in Hw. destruct Hw as [i [-> Hi]].
      rewrite window_of_timestep by lia. eexists. split; [reflexivity|].
      assert (Hq : 0 <= i / t) by (apply Z.div_pos; lia).
      assert (Hle : i / t <= (Z.of_nat N - 1) / t) by (apply Z.div_le_mono; lia).
      rewrite ceil_div_pred by lia. unfold int_max. rewrite two_pow_31. lia.
    + intros [m [-> Hm]].
      assert (HN : 1 <= Z.of_nat N).
      { destruct N; [|lia]. rewrite ceil_div_0 in Hm by lia. lia. }
      rewrite ceil_div_pred in Hm by lia.
      assert (Hmt : m * t <= Z.of_nat N - 1).
      { pose proof (Z.mul_div_le (Z.of_nat N - 1) t ltac:(lia)). nia. }
      exists (VInt (m * t)). split.
      * rewrite window_of_timestep by nia. rewrite Z.div_mul by lia.
        unfold int_max. rewrite two_pow_31. f_equal. lia.
      * apply Hl. exists (m * t). split; [reflexivity | nia].
Qed.

Lemma count_approximated (df : DataFrame) (features : list AggExpr) (t : Z) (label : bool) :
  count (approximated df features t label) = List.length (windows df t).
Proof.
  unfold count, collect, approximated. cbn [partitions List.concat].
  now rewrite app_nil_r, length_sort_by, length_map.
Qed.

Lemma windows_timestep_values (df : DataFrame) (t : Z) :
  windows df t
  = distinct (map (fun v => cast_integer (divide v (VInt t))) (timestep_values df)).
Proof. unfold windows, timestep_values. now rewrite map_map. Qed.

(** Number of output rows on a table with the timesteps [0 .. N-1]. *)
Lemma approximate_ts_window_count (df : DataFrame) (features : list AggExpr)
                                  (t : Z) (label : bool) (N : nat) :
  aggregable df features label = true ->
  Permutation (timestep_values df) (range_values N) ->
  Z.of_nat N <= 2 ^ 53 ->
  1 <= t ->
  exists out, approximate_ts df features t label = Ok out /\
    count out = Z.to_nat (Z.min (ceil_div (Z.of_nat N) t) (2 ^ 31)).
Proof.
  intros Hagg Hperm HN53 Ht. rewrite approximate_ts_spec, Hagg.
  eexists. split; [reflexivity|].
  rewrite count_approximated, windows_timestep_values.
  now apply window_indices_range.
Qed.

(** ** Windowed approximation: the claims *)

Lemma ceil_div_nonneg (n t : Z) : 0 <= n -> 1 <= t -> 0 <= ceil_div n t.
Proof. intros Hn Ht. unfold ceil_div. apply Z.div_pos; lia. Qed.

Lemma aggregable_range_table (n : nat) : aggregable (range_table n) [] false = true.
Proof. reflexivity. Qed.

Lemma timestep_values_range_table (n : nat) :
  timestep_values (range_table n) = range_values n.
Proof.
  unfold timestep_values, range_values, range_table, collect.
  cbn [partitions columns List.concat]. now rewrite app_nil_r, map_map.
Qed.

Lemma count_range_table (n : nat) : count (range_table n) = n.
Proof.
  unfold count, range_table, collect. cbn [partitions List.concat].
  now rewrite app_nil_r, length_map, length_seq.
Qed.

(** Within the exact range of a double and the 32-bit range of the window
    index the count is the one a whole-number division gives: on a table of
    [N <= 2^53] rows with the timesteps [0 .. N-1], in any order, and for
    [timesteps >= 1] with [ceil (N / timesteps) <= 2^31], [approximate_ts]
    returns [ceil (N / timesteps)] rows; on an empty table it returns an
    empty table. *)
Lemma approximate_ts_row_count_in_range
    (df : DataFrame) (features : list AggExpr) (timesteps : Z) (label : bool) (N : nat) :
  aggregable df features label = true ->
  Permutation (timestep_values df) (range_values N) ->
  Z.of_nat N <= 2 ^ 53 ->
  1 <= timesteps ->
  ceil_div (Z.of_nat N) timesteps <= 2 ^ 31 ->
  exists out, approximate_ts df features timesteps label = Ok out /\
    Z.of_nat (count out) = ceil_div (Z.of_nat N) timesteps /\
    (N = 0%nat -> collect out = []).
Proof.
  intros Hagg Hperm HN Ht Hrange.
  destruct (approximate_ts_window_count df features timesteps label N Hagg Hperm HN Ht)
    as (out & Hout & Hcount).
  pose proof (ceil_div_nonneg (Z.of_nat N) timesteps ltac:(lia) Ht) as Hceil.
  exists out. split; [assumption|]. rewrite Hcount. rewrite two_pow_31 in *.
  split; [lia|].
  intros ->. change (Z.of_nat 0) with 0 in Hcount. rewrite ceil_div_0 in Hcount by lia.
  unfold count in Hcount. destruct (collect out); [reflexivity | discriminate].
Qed.

(** Past [2^31] rows the windows of [timesteps = 1] stay [2^31]. *)
Lemma range_table_overflow (n : nat) :
  2 ^ 31 < Z.of_nat n <= 2 ^ 53 ->
  exists out, approximate_ts (range_table n) [] 1 false = Ok out /\
    Z.of_nat (count out) = 2 ^ 31.
Proof.
  intros Hn.
  destruct (approximate_ts_window_count (range_table n) [] 1 false n)
    as (out & Hout & Hcount).
  - apply aggregable_range_table.
  - rewrite timestep_values_range_table. reflexivity.
  - lia.
  - lia.
  - exists out. split; [assumption|]. rewrite Hcount.
    unfold ceil_div. rewrite Z.div_1_r. rewrite two_pow_31 in *. lia.
Qed.

(** C2 at the table of the [2^32 + 1] timesteps [0 .. 2^32] with
    [timesteps = 1]. The source announces a whole-number division of the
    timestep; what it computes is a binary64 quotient cast to a 32-bit
    integer, and the cast saturates: every timestep from [2^31 - 1] on gets
    the window index [2^31 - 1], and [2^31] rows come out where
    [ceil (N / timesteps)] is [2^32 + 1]. *)
Theorem approximate_ts_row_count_32bit :
  exists out,
    approximate_ts (range_table (Z.to_nat (2 ^ 32 + 1))) [] 1 false = Ok out /\
    Z.of_nat (count out) = 2 ^ 31 /\
    Z.of_nat (count out) <> ceil_div (Z.of_nat (Z.to_nat (2 ^ 32 + 1))) 1 /\
    window_index ["timestep"] 1 [VInt (2 ^ 31 - 1)] = VInt (2 ^ 31 - 1) /\
    window_index ["timestep"] 1 [VInt (2 ^ 32)] = VInt (2 ^ 31 - 1).
Proof.
  destruct (range_table_overflow (Z.to_nat (2 ^ 32 + 1))) as (out & Hout & Hcount).
  - rewrite two_pow_31, two_pow_32. change (2 ^ 53) with 9007199254740992. lia.
  - exists out. split; [exact Hout|]. split; [exact Hcount|]. split.
    + rewrite Hcount. unfold ceil_div. rewrite Z.div_1_r, two_pow_31, two_pow_32. lia.
    + split; vm_compute; reflexivity.
Qed.

(** *** One row per window *)

Lemma agg_max_single (v : value) : agg_max [v] = v.
Proof. destruct v; reflexivity. Qed.

Lemma agg_mode_single (v : value) : agg_mode [v] = v.
Proof. destruct v; reflexivity. Qed.

Lemma Qplus_0_l_eq (q : Q) : (0 + q)%Q = q.
Proof. destruct q as [n d]. unfold Qplus. cbn. now rewrite Z.mul_1_r. Qed.

Lemma Qdiv_1_r_eq (q : Q) : (q / 1)%Q = q.
Proof.
  destruct q as [n d]. unfold Qdiv, Qmult. cbn. now rewrite Z.mul_1_r, Pos.mul_1_r.
Qed.

Lemma string_to_double_rounded (s : string) (q : Q) :
  string_to_double s = Some q -> round64 q = q.
Proof.
  unfold string_to_double. intros H.
  repeat match type of H with
         | context [match ?x with _ => _ end] => destruct x
         end; try discriminate; injection H as <-; apply round64_idempotent.
Qed.

(** The number read in a cell is a double. *)
Lemma as_double_rounded (v : value) (q : Q) : as_double v = Some q -> round64 q = q.
Proof.
  destruct v as [|s|z|x]; cbn [as_double]; intros H; try discriminate.
  - now apply string_to_double_rounded in H.
  - injection H as <-. apply round64_idempotent.
  - injection H as <-. apply round64_idempotent.
Qed.

Lemma agg_avg_single_number (v : value) (q : Q) :
  as_double v = Some q -> agg_avg [v] = VDouble q.
Proof.
  intros H. unfold agg_avg. cbn [numbers]. rewrite H.
  unfold double_sum. cbn [fold_left List.length].
  change (round64 (inject_Z (Z.of_nat 1))) with 1%Q.
  rewrite Qplus_0_l_eq, Qdiv_1_r_eq, !(as_double_rounded v q H). reflexivity.
Qed.

Lemma agg_avg_single (v : value) : numerically_equal (agg_avg [v]) v.
Proof.
  unfold numerically_equal. destruct (as_double v) as [q|] eqn:E.
  - rewrite (agg_avg_single_number v q E). cbn [as_double].
    rewrite (as_double_rounded v q E). reflexivity.
  - unfold agg_avg. cbn [numbers]. rewrite E. exact I.
Qed.

Lemma agg_avg_single_plain (v : value) : plain_number v -> agg_avg [v] = v.
Proof.
  intros [->|[q ->]]; [reflexivity|].
  rewrite (agg_avg_single_number _ (round64 q)); [reflexivity|].
  cbn [as_double]. now rewrite round64_idempotent.
Qed.

Section OneStep.

Variables (df : DataFrame) (features : list AggExpr) (label : bool) (N : nat).
Hypothesis Hperm : Permutation (timestep_values df) (range_values N).
Hypothesis Hsmall : Z.of_nat N <= 2 ^ 31.

Let cols := columns df.
Let ts (r : Row) := field cols r "timestep".

Lemma one_step_timestep (r : Row) :
  In r (collect df) -> exists i, ts r = VInt i /\ 0 <= i < Z.of_nat N.
Proof.
  intros Hr. apply In_range_values. eapply Permutation_in; [exact Hperm|].
  unfold timestep_values. now apply in_map.
Qed.

Lemma one_step_window_index (r : Row) :
  In r (collect df) -> window_index cols 1 r = ts r.
Proof.
  intros Hr. destruct (one_step_timestep r Hr) as [i [Hi Hrange]].
  assert (H53 : 2 ^ 31 < 2 ^ 53) by reflexivity.
  rewrite (window_index_timestep cols r i 1 Hi) by lia. rewrite Hi, Z.div_1_r.
  unfold int_max. rewrite two_pow_31 in *. f_equal. lia.
Qed.

Lemma one_step_indices : map (window_index cols 1) (collect df) = timestep_values df.
Proof. apply map_ext_in. exact one_step_window_index. Qed.

Lemma one_step_NoDup : NoDup (timestep_values df).
Proof.
  eapply Permutation_NoDup; [symmetry; exact Hperm | apply NoDup_range_values].
Qed.

Lemma one_step_exact : Forall exact (timestep_values df).
Proof.
  apply Forall_forall. intros v Hv. eapply Permutation_in in Hv; [|exact Hperm].
  apply In_range_values in Hv. destruct Hv as [i [-> _]]. exact I.
Qed.

Lemma one_step_windows : windows df 1 = timestep_values df.
Proof.
  unfold windows. fold cols. rewrite one_step_indices.
  apply distinct_NoDup_id; [apply one_step_exact | apply one_step_NoDup].
Qed.

(** Every window holds one row. *)
Lemma one_step_window_rows (r : Row) :
  In r (collect df) -> window_rows df 1 (window_index cols 1 r) = [r].
Proof.
  intros Hr. unfold window_rows. fold cols.
  apply (filter_unique (window_index cols 1)); trivial.
  - rewrite one_step_indices. apply one_step_NoDup.
  - apply Forall_forall. intros y Hy. rewrite (one_step_window_index y Hy).
    destruct (one_step_timestep y Hy) as [i [-> _]]. exact I.
Qed.

Lemma one_step_summary_key (r : Row) :
  In r (collect df) ->
  cell (summary df features 1 label (window_index cols 1 r)) 1 = ts r.
Proof.
  intros Hr. unfold summary. rewrite (one_step_window_rows r Hr).
  destruct label; cbn; apply agg_max_single.
Qed.

Lemma one_step_rows :
  collect (approximated df features 1 label)
  = map (fun r => summary df features 1 label (window_index cols 1 r))
        (sort_by ts (collect df)).
Proof.
  unfold collect at 1, approximated. cbn [partitions List.concat].
  rewrite app_nil_r, one_step_windows, <- one_step_indices, map_map.
  apply sort_by_map. exact one_step_summary_key.
Qed.

Lemma one_step_carried_over (r : Row) :
  In r (collect df) ->
  carried_over cols (columns (approximated df features 1 label)) label r
               (summary df features 1 label (window_index cols 1 r)).
Proof.
  intros Hr. unfold carried_over, summary. rewrite (one_step_window_rows r Hr).
  destruct label; cbn; repeat split;
    try apply agg_max_single; try apply agg_avg_single;
    try apply agg_avg_single_plain;
    try (intros _; apply agg_mode_single); try discriminate.
Qed.

Lemma one_step_sorted :
  Sorted (ascending (fun o => field (columns (approximated df features 1 label)) o "timestep"))
         (collect (approximated df features 1 label)).
Proof.
  assert (Hkey : (fun o : Row => field (columns (approximated df features 1 label)) o "timestep")
                 = (fun o => cell o 1)).
  { unfold field. cbn [approximated columns].
    now rewrite index_of_timestep_aggregated. }
  rewrite Hkey. unfold collect, approximated. cbn [partitions List.concat].
  rewrite app_nil_r. apply sort_by_sorted.
  apply Forall_forall. intros o Ho. apply in_map_iff in Ho. destruct Ho as [g [<- Hg]].
  rewrite one_step_windows in Hg. unfold timestep_values in Hg.
  apply in_map_iff in Hg. destruct Hg as [r [<- Hr]]. fold cols. fold (ts r).
  rewrite <- (one_step_window_index r Hr), (one_step_summary_key r Hr).
  destruct (one_step_timestep r Hr) as [i [Hi _]]. now exists i.
Qed.

End OneStep.

Lemma Forall2_map_r_in {A B : Type} (R : A -> B -> Prop) (f : A -> B) (l : list A) :
  (forall x, In x l -> R x (f x)) -> Forall2 R l (map f l).
Proof.
  induction l as [|x l IH]; simpl; intros H; constructor; auto.
Qed.

(** C5, with the numbers of [latitude] and [longitude] in place of their
    cells. With [timesteps = 1], on a table with the distinct timesteps
    [0 .. N-1] and [N <= 2^31], every window holds one row, and the output
    rows, in ascending order of [timestep], are the input rows in that order:
    the same [timestep], the same number in [latitude] and in [longitude]
    (the same cell in a double column), and with [label] the same
    [road_condition]. *)
Theorem approximate_ts_single_step :
  forall (df : DataFrame) (features : list AggExpr) (label : bool) (N : nat),
    aggregable df features label = true ->
    Permutation (timestep_values df) (range_values N) ->
    Z.of_nat N <= 2 ^ 31 ->
    exists out, approximate_ts df features 1 label = Ok out /\
      Forall2 (carried_over (columns df) (columns out) label)
              (sort_by (fun r => field (columns df) r "timestep") (collect df))
              (collect out) /\
      (forall r, In r (collect df) ->
                 window_rows df 1 (window_index (columns df) 1 r) = [r]) /\
      Sorted (ascending (fun o => field (columns out) o "timestep")) (collect out).
Proof.
  intros df features label N Hagg Hperm Hsmall.
  rewrite approximate_ts_spec, Hagg. eexists. split; [reflexivity|].
  split; [|split].
  - rewrite (one_step_rows df features label N Hperm Hsmall).
    apply Forall2_map_r_in. intros r Hr. apply In_sort_by in Hr.
    now apply (one_step_carried_over df features label N Hperm Hsmall).
  - intros r Hr. now apply (one_step_window_rows df N Hperm Hsmall).
  - now apply (one_step_sorted df features label N Hperm Hsmall).
Qed.

Lemma approximate_ts_single_step_witness :
  exists out, approximate_ts sample_aligned [F_avg "acc_x_L"] 1 true = Ok out /\
    Forall2 (carried_over (columns sample_aligned) (columns out) true)
            (sort_by (fun r => field (columns sample_aligned) r "timestep")
                     (collect sample_aligned))
            (collect out) /\
    (forall r, In r (collect sample_aligned) ->
               window_rows sample_aligned 1 (window_index (columns sample_aligned) 1 r) = [r]) /\
    Sorted (ascending (fun o => field (columns out) o "timestep")) (collect out).
Proof.
  apply (approximate_ts_single_step sample_aligned [F_avg "acc_x_L"] true 5);
    [reflexivity | reflexivity | rewrite two_pow_31; lia].
Defined.

(** C5, as the specification words it, fails on a table read from a CSV
    file: its [latitude] and [longitude] cells are strings, and [avg] returns
    doubles. On the five rows of the sample, with [timesteps = 1], no output
    row has the [latitude] or the [longitude] cell of an input row. *)
Lemma approximate_ts_single_step_strings :
  exists out,
    approximate_ts sample_aligned [] 1 true = Ok out /\
    count out = count sample_aligned /\
    (forall r, In r (collect sample_aligned) ->
       (exists s, field (columns sample_aligned) r "latitude" = VStr s)
       /\ (exists s, field (columns sample_aligned) r "longitude" = VStr s)) /\
    (forall o, In o (collect out) ->
       (exists q, field (columns out) o "latitude" = VDouble q)
       /\ (exists q, field (columns out) o "longitude" = VDouble q)) /\
    (forall r o, In r (collect sample_aligned) -> In o (collect out) ->
       field (columns out) o "latitude" <> field (columns sample_aligned) r "latitude"
       /\ field (columns out) o "longitude" <> field (columns sample_aligned) r "longitude").
Proof.
  eexists. split; [vm_compute; reflexivity|].
  assert (Hin : forall r, In r (collect sample_aligned) ->
            (exists s, field (columns sample_aligned) r "latitude" = VStr s)
            /\ (exists s, field (columns sample_aligned) r "longitude" = VStr s)).
  { intros r Hr. cbn in Hr.
    repeat (destruct Hr as [<-|Hr]; [split; eexists; reflexivity|]). contradiction. }
  split; [reflexivity|]. split; [exact Hin|].
  match goal with
  | |- ?P /\ _ => assert (Hout : P)
  end.
  { intros o Ho. cbn in Ho.
    repeat (destruct Ho as [<-|Ho]; [split; eexists; reflexivity|]). contradiction. }
  split; [exact Hout|].
  intros r o Hr Ho. destruct (Hin r Hr) as [[s1 E1] [s2 E2]].
  destruct (Hout o Ho) as [[q1 F1] [q2 F2]].
  rewrite E1, E2, F1, F2. split; discriminate.
Qed.

(** *** Columns of the result *)

(** C6, with [group_by] kept. The table returned by [approximate_ts] keeps the
    window index: its columns are [group_by], [timestep], [road_condition]
    when [label] is true, [latitude], [longitude] and the caller's aggregated
    feature columns, in this order, for every [timesteps]. *)
Theorem approximate_ts_columns :
  forall (df : DataFrame) (features : list AggExpr) (timesteps : Z) (label : bool),
    aggregable df features label = true ->
    exists out, approximate_ts df features timesteps label = Ok out /\
      columns out =
        ("group_by" :: "timestep"
           :: (if label then ["road_condition"] else [])
           ++ ["latitude"; "longitude"] ++ map alias features)%list.
Proof.
  intros df features t label Hagg. rewrite approximate_ts_spec, Hagg.
  eexists. split; [reflexivity|]. now destruct label.
Qed.

Lemma approximate_ts_columns_witness :
  exists out, approximate_ts sample_aligned [F_avg "acc_x_L"] 200 true = Ok out /\
    columns out =
      ("group_by" :: "timestep"
         :: (if true then ["road_condition"] else [])
         ++ ["latitude"; "longitude"] ++ map alias [F_avg "acc_x_L"])%list.
Proof.
  apply (approximate_ts_columns sample_aligned [F_avg "acc_x_L"] 200 true).
  reflexivity.
Defined.

(** C6, as the specification words it, fails: [group_by] is a column of the
    result. *)
Lemma approximate_ts_keeps_group_by :
  exists out, approximate_ts sample_aligned [F_avg "acc_x_L"] 200 true = Ok out /\
    columns out
      = ["group_by"; "timestep"; "road_condition"; "latitude"; "longitude"; "acc_x_L"] /\
    In "group_by" (columns out).
Proof.
  eexists. split; [vm_compute; reflexivity|]. split; [reflexivity|]. now left.
Qed.

(** *** Non-positive [timesteps] *)

Lemma window_index_zero (cols : list string) (r : Row) : window_index cols 0 r = VNull.
Proof.
  unfold window_index, divide. now destruct (as_double (field cols r "timestep")).
Qed.

Lemma distinct_all_null (l : list value) :
  (forall v, In v l -> v = VNull) -> (List.length (distinct l) <= 1)%nat.
Proof.
  intros Hall. destruct l as [|k ks]; simpl; [lia|].
  rewrite filter_none; [simpl; lia|].
  intros v Hv. apply In_distinct in Hv.
  rewrite (Hall k (or_introl eq_refl)), (Hall v (or_intror Hv)). reflexivity.
Qed.

Lemma Qdiv_opp_r_eq (a b : Q) : (a / - b)%Q = (- (a / b))%Q.
Proof.
  destruct a as [an ad], b as [[|p|p] bd]; unfold Qdiv, Qinv, Qmult, Qopp; cbn [Qnum Qden Z.opp];
    f_equal; lia.
Qed.

Lemma Qtrunc_opp_between (q : Q) (k : Z) :
  0 <= k -> (inject_Z k <= q)%Q -> (q < inject_Z (k + 1))%Q -> Qtrunc (- q) = - k.
Proof.
  intros Hk H1 H2. unfold Qtrunc.
  assert (Hk0 : (0 <= inject_Z k)%Q)
    by (change 0%Q with (inject_Z 0); now rewrite <- Zle_Qle).
  destruct (Qle_bool 0 (- q)) eqn:E.
  - apply Qle_bool_iff in E.
    assert (Hq : (q == 0)%Q) by lra.
    assert (Hk' : k = 0).
    { assert (H : (inject_Z k <= inject_Z 0)%Q) by (change (inject_Z 0) with 0%Q; lra).
      rewrite <- Zle_Qle in H. lia. }
    subst k. rewrite Hq. reflexivity.
  - unfold Qceiling. f_equal. rewrite Qopp_involutive. now apply Qfloor_between.
Qed.

(** For a timestep in [0, 2^53) and a negative [timesteps] the window index
    is the quotient rounded toward zero, not below the smallest 32-bit
    integer. *)
Lemma window_of_timestep_negative (i t : Z) :
  0 <= i < 2 ^ 53 -> t < 0 ->
  cast_integer (divide (VInt i) (VInt t)) = VInt (Z.max (Z.quot i t) int_min).
Proof.
  intros Hi Ht.
  destruct (divide_integers i (- t) Hi ltac:(lia)) as (q & Hq & H1 & H2).
  assert (Hdiv : divide (VInt i) (VInt t) = VDouble (- q)).
  { unfold divide in *. cbn [as_double] in *.
    replace (inject_Z t) with (- inject_Z (- t))%Q
      by (rewrite <- inject_Z_opp; f_equal; lia).
    rewrite round64_opp.
    destruct (Qeq_bool (round64 (inject_Z (- t))) 0) eqn:E; [discriminate|].
    assert (E' : Qeq_bool (- round64 (inject_Z (- t))) 0 = false).
    { destruct (Qeq_bool (- round64 (inject_Z (- t))) 0) eqn:E'; [|reflexivity].
      apply Qeq_bool_iff in E'. apply Qeq_bool_neq in E. exfalso. apply E. lra. }
    rewrite E', Qdiv_opp_r_eq, round64_opp. injection Hq as ->. reflexivity. }
  rewrite Hdiv. cbn [cast_integer].
  assert (Hk : 0 <= i / - t) by (apply Z.div_pos; lia).
  rewrite (Qtrunc_opp_between q (i / - t)) by assumption.
  replace (Z.quot i t) with (- (i / - t)).
  - f_equal. unfold saturate32, int_min, int_max. rewrite two_pow_31. lia.
  - rewrite <- (Z.opp_involutive t) at 2. rewrite Z.quot_opp_r by lia.
    now rewrite Z.quot_div_nonneg by lia.
Qed.

Lemma group_by_approximated (df : DataFrame) (features : list AggExpr) (t : Z) (label : bool) :
  Permutation
    (map (fun o => field (columns (approximated df features t label)) o "group_by")
         (collect (approximated df features t label)))
    (windows df t).
Proof.
  unfold collect, approximated. cbn [partitions columns List.concat]. rewrite app_nil_r.
  rewrite <- (Permutation_sort_by _ _). rewrite map_map.
  rewrite (map_ext _ (fun g => g)); [now rewrite map_id|].
  intros g. reflexivity.
Qed.

(** C9, without validation. [approximate_ts] does not look at the sign of
    [timesteps]: for [timesteps <= 0], as for any other value, it raises the
    analysis error when one of the names it looks up does not denote one
    column, and otherwise returns a table with one row for each distinct
    window index [(timestep / timesteps).cast('integer')] of the input rows.
    With [timesteps = 0] that index is NULL on every row, which leaves at
    most one output row. With [timesteps < 0] the index of a row with the
    integer timestep [i], [0 <= i < 2^53], is the quotient rounded toward
    zero, [Z.quot i timesteps] (not the floor), kept in the 32-bit range. *)
Theorem approximate_ts_nonpositive_timesteps :
  forall (df : DataFrame) (features : list AggExpr) (timesteps : Z) (label : bool),
    timesteps <= 0 ->
    (aggregable df features label = false ->
     approximate_ts df features timesteps label = Raise AnalysisException)
    /\ (aggregable df features label = true ->
        exists out, approximate_ts df features timesteps label = Ok out /\
          Permutation (map (fun o => field (columns out) o "group_by") (collect out))
                      (distinct (map (fun r => cast_integer
                                                 (divide (field (columns df) r "timestep")
                                                         (VInt timesteps)))
                                     (collect df))) /\
          (timesteps = 0 ->
           (forall r, cast_integer (divide (field (columns df) r "timestep") (VInt timesteps))
                      = VNull)
           /\ (count out <= 1)%nat) /\
          (timesteps < 0 ->
           forall r i, field (columns df) r "timestep" = VInt i -> 0 <= i < 2 ^ 53 ->
             cast_integer (divide (field (columns df) r "timestep") (VInt timesteps))
             = VInt (Z.max (Z.quot i timesteps) int_min))).
Proof.
  intros df features t label _. split; intros Hagg; rewrite approximate_ts_spec, Hagg;
    [reflexivity|].
  eexists. split; [reflexivity|]. split; [apply group_by_approximated|]. split.
  - intros ->. split; [intros r; apply (window_index_zero (columns df) r)|].
    rewrite count_approximated. unfold windows. apply distinct_all_null.
    intros v Hv. apply in_map_iff in Hv. destruct Hv as [r [<- _]].
    apply window_index_zero.
  - intros Ht r i Hr Hi. rewrite Hr. now apply window_of_timestep_negative.
Qed.

Lemma approximate_ts_nonpositive_timesteps_witness :
  (aggregable sample_aligned [F_avg "acc_x_L"] true = false ->
   approximate_ts sample_aligned [F_avg "acc_x_L"] (-2) true = Raise AnalysisException)
  /\ (aggregable sample_aligned [F_avg "acc_x_L"] true = true ->
      exists out, approximate_ts sample_aligned [F_avg "acc_x_L"] (-2) true = Ok out /\
        Permutation (map (fun o => field (columns out) o "group_by") (collect out))
                    (distinct (map (fun r => cast_integer
                                               (divide (field (columns sample_aligned) r
                                                              "timestep")
                                                       (VInt (-2))))
                                   (collect sample_aligned))) /\
        (-2 = 0 ->
         (forall r, cast_integer (divide (field (columns sample_aligned) r "timestep")
                                         (VInt (-2)))
                    = VNull)
         /\ (count out <= 1)%nat) /\
        (-2 < 0 ->
         forall r i, field (columns sample_aligned) r "timestep" = VInt i -> 0 <= i < 2 ^ 53 ->
           cast_integer (divide (field (columns sample_aligned) r "timestep") (VInt (-2)))
           = VInt (Z.max (Z.quot i (-2)) int_min))).
Proof.
  apply (approximate_ts_nonpositive_timesteps sample_aligned [F_avg "acc_x_L"] (-2) true).
  lia.
Defined.

(** C9, as the specification words it, fails: with [timesteps = 0] and with
    [timesteps = -2] the call returns a table, of one row and of three rows
    on the sample (the window indices [0], [-1], [-2] of the timesteps
    [0 .. 4]). *)
Lemma approximate_ts_accepts_nonpositive :
  (exists out, approximate_ts sample_aligned [] 0 true = Ok out /\ count out = 1%nat) /\
  (exists out, approximate_ts sample_aligned [] (-2) true = Ok out /\ count out = 3%nat
               /\ map (fun o => field (columns out) o "group_by") (collect out)
                  = [VInt 0; VInt (-1); VInt (-2)]) /\
  (forall e, approximate_ts sample_aligned [] 0 true <> Raise e) /\
  (forall e, approximate_ts sample_aligned [] (-2) true <> Raise e).
Proof.
  assert (H0 : exists out, approximate_ts sample_aligned [] 0 true = Ok out
                           /\ count out = 1%nat).
  { eexists. split; [vm_compute; reflexivity | reflexivity]. }
  assert (H2 : exists out, approximate_ts sample_aligned [] (-2) true = Ok out
                           /\ count out = 3%nat
                           /\ map (fun o => field (columns out) o "group_by") (collect out)
                              = [VInt 0; VInt (-1); VInt (-2)]).
  { eexists. split; [vm_compute; reflexivity | split; reflexivity]. }
  repeat split; trivial.
  - intros e He. destruct H0 as (out & Hout & _). congruence.
  - intros e He. destruct H2 as (out & Hout & _). congruence.
Qed.

(** ** Alignment and merge: the steps of [dataset_preparation] *)

Lemma index_of_position (cols : list string) (name : string) (i : nat) :
  index_of name cols = Some i -> position cols name = i.
Proof. unfold position. now intros ->. Qed.

Lemma field_position (cols : list string) (r : Row) (name : string) :
  has_column cols name = true -> field cols r name = cell r (position cols name).
Proof.
  intros H. destruct (resolve_has_column _ _ H) as [i [_ Hi]].
  unfold field, position. now rewrite Hi.
Qed.

(** Resolution of a list of names: all of them, or an analysis error. *)
Lemma mapM_resolve_spec (cols names : list string) :
  mapM (resolve cols) names =
    if all_columns cols names then Ok (positions cols names) else Raise AnalysisException.
Proof.
  unfold all_columns, positions. induction names as [|n names IH]; simpl; [reflexivity|].
  destruct (has_column cols n) eqn:Hn; simpl.
  - destruct (resolve_has_column _ _ Hn) as [i [-> Hi]]. simpl.
    rewrite IH, (index_of_position _ _ _ Hi).
    now destruct (forallb (has_column cols) names).
  - now rewrite (resolve_no_column _ _ Hn).
Qed.

Lemma withColumn_id_spec (df : DataFrame) :
  withColumn "timestep" monotonically_increasing_id df = Ok (with_timestep df).
Proof. reflexivity. Qed.

Lemma select_spec (names : list string) (df : DataFrame) :
  select names df =
    if all_columns (columns df) names
    then Ok {| columns := names_at (columns df) (positions (columns df) names);
               partitions := map (map (project (positions (columns df) names)))
                                 (partitions df) |}
    else Raise AnalysisException.
Proof.
  unfold select. rewrite mapM_resolve_spec. now destruct (all_columns _ _).
Qed.

Lemma toDF_rename (suffix : string) (df : DataFrame) :
  toDF (map (rename suffix) (columns df)) df = Ok (renamed suffix df).
Proof. unfold toDF. now rewrite length_map, Nat.eqb_refl. Qed.

Lemma join_left_spec (left right : DataFrame) (on : list string) :
  join_left left right on =
    if all_columns (columns left) on && all_columns (columns right) on
    then Ok (joined left right on)
    else Raise AnalysisException.
Proof.
  unfold join_left. rewrite !mapM_resolve_spec.
  destruct (all_columns (columns left) on); [|reflexivity].
  destruct (all_columns (columns right) on); reflexivity.
Qed.

Lemma orderBy_spec (name : string) (df : DataFrame) :
  orderBy name df =
    if has_column (columns df) name then Ok (ordered name df) else Raise AnalysisException.
Proof.
  unfold orderBy. destruct (has_column (columns df) name) eqn:H.
  - destruct (resolve_has_column _ _ H) as [i [-> Hi]].
    unfold ordered. now rewrite (index_of_position _ _ _ Hi).
  - now rewrite (resolve_no_column _ _ H).
Qed.

(** *** Suffixed names *)

Lemma lower_append (a b : string) : lower (a ++ b) = (lower a ++ lower b)%string.
Proof. induction a as [|x a IH]; simpl; [reflexivity | now rewrite IH]. Qed.

Lemma last_char_append (c s : string) :
  s <> EmptyString -> last_char (c ++ s) = last_char s.
Proof.
  intros Hs. induction c as [|a c IH]; [reflexivity|].
  change (String a c ++ s) with (String a (c ++ s)). cbn [last_char].
  destruct (c ++ s) eqn:E; [|exact IH].
  destruct c; simpl in E; [congruence | discriminate].
Qed.

Lemma shared_last_char (s : string) :
  mem s shared_columns = true ->
  last_char (lower s) = Some "p"%char \/ last_char (lower s) = Some "e"%char
  \/ last_char (lower s) = Some "d"%char.
Proof.
  unfold mem, shared_columns. cbn [existsb]. rewrite !orb_true_iff.
  intros [H|[H|[H|[H|H]]]]; try discriminate; apply same_name_eq in H; rewrite H; cbn; auto.
Qed.

Lemma distinguishing_L : distinguishing "_L".
Proof.
  intros c. destruct (mem (c ++ "_L") shared_columns) eqn:E; [|reflexivity].
  apply shared_last_char in E. rewrite lower_append, last_char_append in E by discriminate.
  cbn in E. destruct E as [E|[E|E]]; discriminate.
Qed.

Lemma distinguishing_R : distinguishing "_R".
Proof.
  intros c. destruct (mem (c ++ "_R") shared_columns) eqn:E; [|reflexivity].
  apply shared_last_char in E. rewrite lower_append, last_char_append in E by discriminate.
  cbn in E. destruct E as [E|[E|E]]; discriminate.
Qed.

Lemma listed_In (c : string) (names : list string) : listed c names = true <-> In c names.
Proof.
  unfold listed. rewrite existsb_exists. split.
  - intros [x [Hx E]]. apply String.eqb_eq in E. now subst.
  - intros H. exists c. split; [assumption | apply String.eqb_refl].
Qed.

Lemma mem_In (s : string) (names : list string) : In s names -> mem s names = true.
Proof.
  intros H. unfold mem. apply existsb_exists. exists s. split; [assumption | apply same_name_refl].
Qed.

Lemma listed_mem (c : string) (names : list string) :
  listed c names = true -> mem c names = true.
Proof. intros H. apply mem_In. now apply listed_In. Qed.

Lemma mem_false_each (name s : string) (names : list string) :
  mem name names = false -> In s names -> same_name name s = false.
Proof.
  unfold mem. intros H Hs. destruct (same_name name s) eqn:E; [|reflexivity].
  assert (Hex : existsb (same_name name) names = true)
    by (apply existsb_exists; now exists s).
  congruence.
Qed.

(** The shared names are told apart without regard to case as well. *)
Lemma same_name_shared (c s : string) :
  listed c shared_columns = true -> listed s shared_columns = true ->
  same_name c s = String.eqb c s.
Proof.
  rewrite !listed_In. simpl.
  intros [<-|[<-|[<-|[<-|[]]]]] [<-|[<-|[<-|[<-|[]]]]]; reflexivity.
Qed.

(** After the renaming a column is a shared column, in any spelling, only
    when it was one letter for letter. *)
Lemma rename_same (suffix s c : string) :
  distinguishing suffix -> listed s shared_columns = true ->
  same_name (rename suffix c) s = String.eqb c s.
Proof.
  intros Hd Hs. unfold rename. destruct (listed c shared_columns) eqn:Hc; cbn [negb].
  - now apply same_name_shared.
  - rewrite (mem_false_each _ s _ (Hd c)) by (now apply listed_In).
    destruct (String.eqb_spec c s) as [E|_]; [congruence | reflexivity].
Qed.

Lemma mem_rename (suffix c : string) :
  distinguishing suffix -> mem (rename suffix c) shared_columns = listed c shared_columns.
Proof.
  intros Hd. unfold rename. destruct (listed c shared_columns) eqn:Hc; cbn [negb].
  - now apply listed_mem.
  - apply Hd.
Qed.

Lemma occurrences_rename (suffix s : string) (cols : list string) :
  distinguishing suffix -> listed s shared_columns = true ->
  occurrences s (map (rename suffix) cols) = List.length (filter (String.eqb s) cols).
Proof.
  intros Hd Hs. unfold occurrences. induction cols as [|c cols IH]; simpl; [reflexivity|].
  rewrite (same_name_sym s (rename suffix c)), (String.eqb_sym s c), (rename_same _ _ _ Hd Hs).
  destruct (String.eqb c s); simpl; now rewrite IH.
Qed.

Lemma all_columns_rename (suffix : string) (cols : list string) :
  distinguishing suffix ->
  all_columns (map (rename suffix) cols) shared_columns
  = forallb (listed_once cols) shared_columns.
Proof.
  intros Hd. unfold all_columns, has_column, listed_once, shared_columns. cbn [forallb].
  now rewrite !(occurrences_rename suffix _ cols Hd) by reflexivity.
Qed.

Lemma other_names_rename (suffix : string) (cols : list string) :
  distinguishing suffix ->
  other_names shared_columns (map (rename suffix) cols)
  = map (fun c => c ++ suffix) (filter (fun c => negb (listed c shared_columns)) cols).
Proof.
  intros Hd. unfold other_names.
  induction cols as [|c cols IH]; cbn [map filter]; [reflexivity|].
  rewrite (mem_rename _ _ Hd), IH. unfold rename.
  destruct (listed c shared_columns); reflexivity.
Qed.

Lemma unshared_with_name (cols : list string) :
  filter (fun c => negb (listed c shared_columns)) (with_name "timestep" cols)
  = unshared cols.
Proof.
  unfold with_name, unshared. destruct (mem "timestep" cols) eqn:Hm.
  - clear Hm. induction cols as [|c cols IH]; cbn [map filter]; [reflexivity|].
    rewrite IH. destruct (same_name c "timestep").
    + rewrite orb_true_r. reflexivity.
    + rewrite orb_false_r. reflexivity.
  - rewrite filter_app. cbn [filter]. change (listed "timestep" shared_columns) with true.
    cbn [negb]. rewrite app_nil_r. apply filter_ext_in.
    intros c Hc. rewrite (same_name_sym c), (mem_false_each _ c _ Hm Hc).
    now rewrite orb_false_r.
Qed.

Lemma index_of_ext (f : string -> string) (s : string) (cols : list string) :
  (forall c, In c cols -> same_name (f c) s = same_name c s) ->
  index_of s (map f cols) = index_of s cols.
Proof.
  induction cols as [|c cols IH]; simpl; intros H; [reflexivity|].
  rewrite (H c (or_introl eq_refl)), IH; auto.
Qed.

(** In the columns [withColumn] returns, the columns of the new name are
    written as in the call. *)
Lemma with_name_exact (name c : string) (cols : list string) :
  In c (with_name name cols) -> same_name c name = String.eqb c name.
Proof.
  assert (Hne : forall x, same_name x name = false -> String.eqb x name = false).
  { intros x Hx. destruct (String.eqb_spec x name) as [->|_]; [|reflexivity].
    now rewrite same_name_refl in Hx. }
  unfold with_name. destruct (mem name cols) eqn:Hm.
  - rewrite in_map_iff. intros [x [<- _]]. destruct (same_name x name) eqn:E.
    + now rewrite same_name_refl, String.eqb_refl.
    + rewrite E. symmetry. now apply Hne.
  - rewrite in_app_iff. intros [Hc|[<-|[]]].
    + assert (E : same_name c name = false)
        by (rewrite same_name_sym; now apply (mem_false_each _ c _ Hm)).
      rewrite E. symmetry. now apply Hne.
    + now rewrite same_name_refl, String.eqb_refl.
Qed.

Lemma index_of_renamed_timestep (suffix : string) (cols : list string) :
  distinguishing suffix ->
  index_of "timestep" (map (rename suffix) (with_name "timestep" cols))
  = index_of "timestep" (with_name "timestep" cols).
Proof.
  intros Hd. apply index_of_ext. intros c Hc.
  rewrite (rename_same _ _ _ Hd) by reflexivity. symmetry.
  now apply (with_name_exact _ _ cols).
Qed.

Lemma has_column_timestep (cols : list string) :
  has_column (with_name "timestep" cols) "timestep"
  = listed_once (with_name "timestep" cols) "timestep".
Proof.
  unfold has_column, listed_once, occurrences. f_equal. f_equal. apply filter_ext_in.
  intros c Hc. rewrite same_name_sym, String.eqb_sym. now apply (with_name_exact _ _ cols).
Qed.

(** The join columns of a renamed table are the shared columns as they are
    written. *)
Lemma key_name (suffix s : string) (cols : list string) :
  distinguishing suffix -> listed s shared_columns = true -> listed_once cols s = true ->
  nth (position (map (rename suffix) cols) s) (map (rename suffix) cols) "" = s.
Proof.
  intros Hd Hs Hone. unfold position.
  destruct (index_of s (map (rename suffix) cols)) as [i|] eqn:Hi.
  - destruct (index_of_Some _ _ _ Hi) as [Hlt Hnth]. rewrite length_map in Hlt.
    rewrite (nth_indep _ "" (rename suffix "")) in * by (now rewrite length_map).
    rewrite map_nth in *. rewrite (rename_same _ _ _ Hd Hs) in Hnth.
    apply String.eqb_eq in Hnth. rewrite Hnth. unfold rename. now rewrite Hs.
  - apply index_of_None in Hi. rewrite (occurrences_rename _ _ _ Hd Hs) in Hi.
    unfold listed_once in Hone. rewrite Hi in Hone. discriminate.
Qed.

Lemma key_names (suffix : string) (cols : list string) :
  distinguishing suffix -> forallb (listed_once cols) shared_columns = true ->
  names_at (map (rename suffix) cols) (positions (map (rename suffix) cols) shared_columns)
  = shared_columns.
Proof.
  intros Hd. unfold shared_columns. cbn [forallb names_at positions map].
  rewrite !andb_true_iff. intros (H0 & H1 & H2 & H3 & _).
  now rewrite !(key_name suffix _ cols Hd) by (trivial; reflexivity).
Qed.

Lemma occurrences_other_names (names cols : list string) (s : string) :
  mem s names = true -> occurrences s (other_names names cols) = 0%nat.
Proof.
  intros Hs. unfold occurrences, other_names. induction cols as [|c cols IH]; simpl; [reflexivity|].
  destruct (mem c names) eqn:Hc; simpl; [assumption|].
  destruct (same_name s c) eqn:E; [|assumption].
  rewrite (mem_as s c names E) in Hs. congruence.
Qed.

Lemma other_names_idem (names names' cols : list string) :
  (forall s, mem s names' = true -> mem s names = true) ->
  other_names names' (other_names names cols) = other_names names cols.
Proof.
  intros Hsub. unfold other_names. induction cols as [|c cols IH]; simpl; [reflexivity|].
  destruct (mem c names) eqn:Hc; simpl; [assumption|].
  destruct (mem c names') eqn:Hc'; simpl.
  - apply Hsub in Hc'. congruence.
  - now rewrite IH.
Qed.

Lemma other_names_app (names l1 l2 : list string) :
  other_names names (l1 ++ l2) = (other_names names l1 ++ other_names names l2)%list.
Proof. apply filter_app. Qed.

(** *** Tables whose names are the same one by one *)

Lemma names_at_same_names (cols names : list string) :
  all_columns cols names = true ->
  Forall2 (fun c c' => same_name c c' = true) (names_at cols (positions cols names)) names.
Proof.
  unfold all_columns, names_at, positions.
  induction names as [|n names IH]; cbn [forallb map]; intros H; constructor.
  - apply andb_true_iff in H. destruct H as [Hn _].
    destruct (resolve_has_column _ _ Hn) as [i [_ Hi]].
    rewrite (index_of_position _ _ _ Hi). now apply index_of_Some in Hi.
  - apply andb_true_iff in H. now apply IH.
Qed.

Lemma all_columns_same_names (cols cols' names : list string) :
  Forall2 (fun c c' => same_name c c' = true) cols cols' ->
  all_columns cols names = all_columns cols' names.
Proof.
  intros H. unfold all_columns, has_column.
  induction names as [|n names IH]; cbn [forallb]; [reflexivity|].
  now rewrite (occurrences_same_names n _ _ H), IH.
Qed.

Lemma positions_same_names (cols cols' names : list string) :
  Forall2 (fun c c' => same_name c c' = true) cols cols' ->
  positions cols names = positions cols' names.
Proof.
  intros H. unfold positions, position. apply map_ext. intros n.
  now rewrite (index_of_same_names n _ _ H).
Qed.

Lemma replace_named_same_names (name : string) (cols cols' : list string) (r : Row) (v : value) :
  Forall2 (fun c c' => same_name c c' = true) cols cols' ->
  replace_named name cols r v = replace_named name cols' r v.
Proof.
  intros H. revert r. induction H as [|c c' cs cs' Hc _ IH]; intros r; simpl; [reflexivity|].
  now rewrite (same_name_as c c' name Hc), IH.
Qed.

Lemma put_same_names (name : string) (cols cols' : list string) (r : Row) (v : value) :
  Forall2 (fun c c' => same_name c c' = true) cols cols' ->
  put name cols r v = put name cols' r v.
Proof.
  intros H. unfold put.
  now rewrite (mem_same_names name _ _ H), (replace_named_same_names name _ _ r v H).
Qed.

Lemma field_same_names (cols cols' : list string) (r : Row) (name : string) :
  Forall2 (fun c c' => same_name c c' = true) cols cols' ->
  field cols r name = field cols' r name.
Proof. intros H. unfold field. now rewrite (index_of_same_names name _ _ H). Qed.

(** *** The label table *)

Lemma mapi_const2 {A B : Type} (g : A -> B) (parts : list (list A)) :
  mapi (fun _ part => mapi (fun _ r => g r) part) parts = map (map g) parts.
Proof.
  unfold mapi. generalize 0%nat at 1.
  induction parts as [|part parts IH]; simpl; intros i; [reflexivity|].
  now rewrite mapi_from_const, IH.
Qed.

Lemma labelled_row (cols : list string) (r : Row) :
  all_columns cols label_names = true ->
  project [0; 7]%nat
    (put "road_condition" label_names (project (positions cols label_names) r)
         (eval cond 0 0 (field label_names (project (positions cols label_names) r))))
  = [field cols r "timestep"; eval cond 0 0 (field cols r)].
Proof.
  unfold all_columns, label_names. cbn [forallb]. rewrite !andb_true_iff.
  intros (H0 & H1 & H2 & H3 & H4 & H5 & H6 & _).
  rewrite !eval_cond.
  rewrite (field_position cols r _ H0), (field_position cols r _ H3),
    (field_position cols r _ H4), (field_position cols r _ H5),
    (field_position cols r _ H6).
  reflexivity.
Qed.

(** The label steps keep [timestep] and the derived label of every row. *)
Lemma label_steps_spec (df : DataFrame) :
  nth (position (columns df) "timestep") (columns df) "" = "timestep" ->
  label_steps df =
    if all_columns (columns df) label_names then Ok (labelled df) else Raise AnalysisException.
Proof.
  intros Hts. unfold label_steps. fold label_names. rewrite select_spec.
  destruct (all_columns (columns df) label_names) eqn:Hall; [|reflexivity].
  cbn [bind]. unfold withColumn. cbn [columns partitions].
  pose proof (names_at_same_names _ _ Hall) as HN.
  set (N := names_at (columns df) (positions (columns df) label_names)) in *.
  rewrite mapM_resolve_spec, (all_columns_same_names _ _ _ HN), (positions_same_names _ _ _ HN).
  change (all_columns label_names (references cond)) with true.
  cbn [bind]. rewrite select_spec. cbn [columns partitions].
  assert (HN' : Forall2 (fun c c' => same_name c c' = true)
                        (with_name "road_condition" N)
                        (with_name "road_condition" label_names)).
  { unfold with_name. rewrite (mem_same_names _ _ _ HN).
    change (mem "road_condition" label_names) with false. cbn iota.
    apply Forall2_app; [exact HN|]. repeat constructor. }
  rewrite (all_columns_same_names _ _ _ HN'), (positions_same_names _ _ _ HN').
  change (all_columns (with_name "road_condition" label_names)
                      ["timestep"; "road_condition"]) with true.
  change (positions (with_name "road_condition" label_names)
                    ["timestep"; "road_condition"]) with [0; 7]%nat.
  unfold labelled. f_equal. f_equal.
  - unfold with_name. rewrite (mem_same_names _ _ _ HN).
    change (mem "road_condition" label_names) with false. cbn iota.
    unfold N, label_names. cbn [names_at positions map app nth]. now rewrite Hts.
  - rewrite (mapi_const2
               (fun r => put "road_condition" N r (eval cond 0 0 (field N r)))).
    rewrite !map_map. apply map_ext. intros part.
    rewrite !map_map. apply map_ext. intros r.
    rewrite (put_same_names _ _ _ _ _ HN), <- (labelled_row _ r Hall).
    rewrite !eval_cond, !(field_same_names _ _ _ _ HN). reflexivity.
Qed.

(** *** The whole function *)

Lemma bind_label_steps {B : Type} (df : DataFrame) (k : DataFrame -> result B) :
  (x <- select label_names df ;;
   y <- withColumn "road_condition" cond x ;;
   z <- select ["timestep"; "road_condition"] y ;; k z)
  = (z <- label_steps df ;; k z).
Proof.
  unfold label_steps. fold label_names.
  destruct (select label_names df) as [x|]; [|reflexivity]. cbn [bind].
  destruct (withColumn "road_condition" cond x); reflexivity.
Qed.

Lemma timestep_written (cols : list string) :
  nth (position (with_name "timestep" cols) "timestep") (with_name "timestep" cols) ""
  = "timestep".
Proof.
  unfold position. destruct (index_of "timestep" (with_name "timestep" cols)) as [k|] eqn:Hk.
  - now apply nth_with_name.
  - apply index_of_None in Hk. rewrite occurrences_with_name_same in Hk. lia.
Qed.

Section Merge.

Variables L R : DataFrame.
Hypothesis HL : forallb (listed_once (with_name "timestep" (columns L))) shared_columns = true.
Hypothesis HR : forallb (listed_once (with_name "timestep" (columns R))) shared_columns = true.

(** The columns of the join of the two sensor tables. *)
Lemma sensors_columns :
  columns (joined (renamed "_L" (with_timestep L)) (renamed "_R" (with_timestep R))
                  shared_columns)
  = (shared_columns ++ map (fun c => (c ++ "_L")%string) (unshared (columns L))
       ++ map (fun c => (c ++ "_R")%string) (unshared (columns R)))%list.
Proof.
  unfold joined, renamed, with_timestep. cbn [columns].
  rewrite (key_names "_L" _ distinguishing_L HL).
  rewrite (other_names_rename "_L" _ distinguishing_L),
    (other_names_rename "_R" _ distinguishing_R).
  now rewrite !unshared_with_name.
Qed.

Lemma suffixed_occurrences (s suffix : string) (cols : list string) :
  distinguishing suffix -> mem s shared_columns = true ->
  occurrences s (map (fun c => c ++ suffix) cols) = 0%nat.
Proof.
  intros Hd Hs. unfold occurrences. induction cols as [|c cols IH]; simpl; [reflexivity|].
  destruct (same_name s (c ++ suffix)) eqn:E; [|exact IH].
  rewrite (mem_as s (c ++ suffix) _ E), Hd in Hs. discriminate.
Qed.

Lemma timestep_first_sensors :
  index_of "timestep"
    (columns (joined (renamed "_L" (with_timestep L)) (renamed "_R" (with_timestep R))
                     shared_columns)) = Some 0%nat.
Proof. rewrite sensors_columns. reflexivity. Qed.

Lemma has_timestep_sensors :
  has_column (columns (joined (renamed "_L" (with_timestep L)) (renamed "_R" (with_timestep R))
                              shared_columns)) "timestep" = true.
Proof.
  rewrite sensors_columns. unfold has_column.
  rewrite !occurrences_app,
    (suffixed_occurrences _ "_L" _ distinguishing_L),
    (suffixed_occurrences _ "_R" _ distinguishing_R) by reflexivity.
  reflexivity.
Qed.

(** The columns of the join with the label table. *)
Lemma merged_columns (Lb : DataFrame) :
  columns (joined (joined (renamed "_L" (with_timestep L)) (renamed "_R" (with_timestep R))
                          shared_columns)
                  (labelled (with_timestep Lb)) ["timestep"])
  = (shared_columns ++ map (fun c => (c ++ "_L")%string) (unshared (columns L))
       ++ map (fun c => (c ++ "_R")%string) (unshared (columns R))
       ++ ["road_condition"])%list.
Proof.
  unfold joined at 1. cbn [columns positions map names_at].
  unfold position. rewrite timestep_first_sensors, sensors_columns.
  rewrite !other_names_app.
  assert (Hkeep : forall suffix cols, distinguishing suffix ->
            other_names ["timestep"] (map (fun c => c ++ suffix) cols)
            = map (fun c => c ++ suffix) cols).
  { intros suffix cols Hd. unfold other_names. apply forallb_filter_id, forallb_forall.
    intros x Hx. apply in_map_iff in Hx. destruct Hx as [c [<- _]].
    unfold mem. cbn [existsb]. rewrite orb_false_r.
    rewrite (mem_false_each _ "timestep" _ (Hd c)); [reflexivity | now left]. }
  rewrite (Hkeep "_L" _ distinguishing_L), (Hkeep "_R" _ distinguishing_R).
  cbn. now rewrite <- !app_assoc.
Qed.

End Merge.

(** [dataset_preparation] on a run whose three files are read: the prepared
    table, or an analysis error when a needed column is missing or
    ambiguous. *)
Lemma dataset_preparation_spec (name : string) (spark_session : SparkSession)
                               (data_path : string) (L R Lb : DataFrame) :
  reads spark_session data_path name L R Lb ->
  dataset_preparation name spark_session data_path =
    if preparable L R Lb then Ok (prepared L R Lb) else Raise AnalysisException.
Proof.
  intros (HL & HR & HLb). unfold dataset_preparation, preparable.
  rewrite HL, HR, HLb. cbn [bind]. rewrite !withColumn_id_spec. cbn [bind].
  fold label_names. rewrite bind_label_steps, label_steps_spec by apply timestep_written.
  change (columns (with_timestep Lb)) with (with_name "timestep" (columns Lb)).
  destruct (all_columns (with_name "timestep" (columns Lb)) label_names);
    [|now rewrite !andb_false_r].
  cbn [bind]. rewrite !andb_true_r, !toDF_rename. cbn [bind].
  rewrite join_left_spec.
  change (columns (renamed "_L" (with_timestep L)))
    with (map (rename "_L") (with_name "timestep" (columns L))).
  change (columns (renamed "_R" (with_timestep R)))
    with (map (rename "_R") (with_name "timestep" (columns R))).
  rewrite (all_columns_rename "_L" _ distinguishing_L),
    (all_columns_rename "_R" _ distinguishing_R).
  destruct (forallb (listed_once (with_name "timestep" (columns L))) shared_columns) eqn:EL;
    [|reflexivity].
  destruct (forallb (listed_once (with_name "timestep" (columns R))) shared_columns) eqn:ER;
    [|reflexivity].
  cbn [andb bind]. rewrite join_left_spec.
  unfold all_columns at 1. cbn [forallb]. rewrite (has_timestep_sensors L R EL).
  change (all_columns (columns (labelled (with_timestep Lb))) ["timestep"]) with true.
  cbn [andb bind]. rewrite orderBy_spec.
  assert (Hts : has_column
                  (columns (joined (joined (renamed "_L" (with_timestep L))
                                           (renamed "_R" (with_timestep R)) shared_columns)
                                   (labelled (with_timestep Lb)) ["timestep"])) "timestep"
                = true).
  { rewrite (merged_columns L R EL). unfold has_column.
    rewrite !occurrences_app,
      (suffixed_occurrences _ "_L" _ distinguishing_L),
      (suffixed_occurrences _ "_R" _ distinguishing_R) by reflexivity.
    reflexivity. }
  rewrite Hts. reflexivity.
Qed.

(** ** Alignment and merge: columns of the result *)

Lemma In_other_names (names cols : list string) (c : string) :
  In c (other_names names cols) <-> In c cols /\ mem c names = false.
Proof. unfold other_names. now rewrite filter_In, negb_true_iff. Qed.

Lemma In_unshared (cols : list string) (c : string) :
  In c (unshared cols) <->
  In c cols /\ ~ In c shared_columns /\ same_name c "timestep" = false.
Proof.
  unfold unshared. rewrite filter_In, negb_true_iff, orb_false_iff.
  pose proof (listed_In c shared_columns) as Hl.
  destruct (listed c shared_columns); intuition congruence.
Qed.

Lemma prepared_columns (L R Lb : DataFrame) :
  preparable L R Lb = true ->
  columns (prepared L R Lb) =
    (shared_columns
       ++ other_names raw_timestamps
            (map (fun c => (c ++ "_L")%string) (unshared (columns L)))
       ++ other_names raw_timestamps
            (map (fun c => (c ++ "_R")%string) (unshared (columns R)))
       ++ ["road_condition"])%list.
Proof.
  unfold preparable. rewrite !andb_true_iff. intros [[HL HR] _].
  unfold prepared, drop, ordered. cbn [columns].
  rewrite (merged_columns L R HL), !other_names_app. reflexivity.
Qed.

(** C8. The table returned by [dataset_preparation] has the shared columns
    [timestep], [latitude], [longitude], [speed] once each and unsuffixed,
    then the other left columns with the suffix [_L], then the other right
    columns with the suffix [_R], then [road_condition]; no column is named
    [timestamp_L], [timestamp_R], [timestamp_gps_L] or [timestamp_gps_R], in
    any spelling. The other columns of a sensor file are those that are not,
    letter for letter, one of the four shared names; a [timestep] column of
    the file, in any spelling, is replaced by the generated one. *)
Theorem dataset_preparation_columns :
  forall (name : string) (spark_session : SparkSession) (data_path : string)
         (L R Lb : DataFrame),
    reads spark_session data_path name L R Lb ->
    preparable L R Lb = true ->
    exists out, dataset_preparation name spark_session data_path = Ok out /\
      columns out =
        (shared_columns
           ++ other_names raw_timestamps
                (map (fun c => (c ++ "_L")%string) (unshared (columns L)))
           ++ other_names raw_timestamps
                (map (fun c => (c ++ "_R")%string) (unshared (columns R)))
           ++ ["road_condition"])%list /\
      (forall s, In s shared_columns -> occurrences s (columns out) = 1%nat) /\
      (forall t, In t raw_timestamps -> mem t (columns out) = false) /\
      (forall c, In c (columns L) -> ~ In c shared_columns -> same_name c "timestep" = false ->
                 mem (c ++ "_L") raw_timestamps = false -> In (c ++ "_L") (columns out)) /\
      (forall c, In c (columns R) -> ~ In c shared_columns -> same_name c "timestep" = false ->
                 mem (c ++ "_R") raw_timestamps = false -> In (c ++ "_R") (columns out)) /\
      (forall x, In x (columns out) ->
                 In x shared_columns
                 \/ (exists c, In c (columns L) /\ ~ In c shared_columns /\ x = c ++ "_L")
                 \/ (exists c, In c (columns R) /\ ~ In c shared_columns /\ x = c ++ "_R")
                 \/ x = "road_condition").
Proof.
  intros name spark_session data_path L R Lb Hreads Hprep.
  rewrite (dataset_preparation_spec _ _ _ L R Lb Hreads), Hprep.
  eexists. split; [reflexivity|]. rewrite (prepared_columns _ _ _ Hprep).
  set (left := other_names raw_timestamps
                 (map (fun c => (c ++ "_L")%string) (unshared (columns L)))).
  set (right := other_names raw_timestamps
                  (map (fun c => (c ++ "_R")%string) (unshared (columns R)))).
  assert (Hleft : forall x, In x left <->
            (exists c, In c (unshared (columns L)) /\ x = c ++ "_L")
            /\ mem x raw_timestamps = false).
  { intros x. unfold left. rewrite In_other_names, in_map_iff.
    split; intros [[c Hc] Hx]; (split; [|exact Hx]); exists c; intuition. }
  assert (Hright : forall x, In x right <->
            (exists c, In c (unshared (columns R)) /\ x = c ++ "_R")
            /\ mem x raw_timestamps = false).
  { intros x. unfold right. rewrite In_other_names, in_map_iff.
    split; intros [[c Hc] Hx]; (split; [|exact Hx]); exists c; intuition. }
  assert (Hother : forall t x, In t raw_timestamps -> mem x raw_timestamps = false ->
                               same_name t x = false).
  { intros t x Ht Hx. rewrite same_name_sym. now apply (mem_false_each _ t _ Hx). }
  split; [reflexivity|]. repeat split.
  - intros s Hs. rewrite !occurrences_app.
    assert (Hmem : mem s shared_columns = true) by now apply mem_In.
    assert (H0 : forall l, (forall x, In x l -> exists sfx c, distinguishing sfx /\ x = c ++ sfx) ->
                           occurrences s l = 0%nat).
    { intros l Hl. unfold occurrences. rewrite filter_none; [reflexivity|].
      intros x Hx. destruct (Hl x Hx) as (sfx & c & Hd & ->).
      destruct (same_name s (c ++ sfx)) eqn:E; [|reflexivity].
      rewrite (mem_as _ _ _ E), Hd in Hmem. discriminate. }
    rewrite (H0 left), (H0 right).
    + simpl in Hs. destruct Hs as [<-|[<-|[<-|[<-|[]]]]]; reflexivity.
    + intros x Hx. apply Hright in Hx. destruct Hx as [(c & _ & ->) _].
      exists "_R", c. split; [apply distinguishing_R | reflexivity].
    + intros x Hx. apply Hleft in Hx. destruct Hx as [(c & _ & ->) _].
      exists "_L", c. split; [apply distinguishing_L | reflexivity].
  - intros t Ht. unfold mem. rewrite !existsb_app, !orb_false_iff. repeat split.
    + simpl in Ht. destruct Ht as [<-|[<-|[<-|[<-|[]]]]]; reflexivity.
    + apply not_true_is_false. intros H. apply existsb_exists in H.
      destruct H as [x [Hx E]]. apply Hleft in Hx. destruct Hx as [_ Hx].
      rewrite (Hother t x Ht Hx) in E. discriminate.
    + apply not_true_is_false. intros H. apply existsb_exists in H.
      destruct H as [x [Hx E]]. apply Hright in Hx. destruct Hx as [_ Hx].
      rewrite (Hother t x Ht Hx) in E. discriminate.
    + simpl in Ht. destruct Ht as [<-|[<-|[<-|[<-|[]]]]]; reflexivity.
  - intros c Hc Hs Hts Ht. rewrite !in_app_iff. right. left. apply Hleft.
    split; [|assumption]. exists c. split; [|reflexivity]. now apply In_unshared.
  - intros c Hc Hs Hts Ht. rewrite !in_app_iff. right. right. left. apply Hright.
    split; [|assumption]. exists c. split; [|reflexivity]. now apply In_unshared.
  - intros x Hx. rewrite !in_app_iff in Hx. destruct Hx as [Hx|[Hx|[Hx|Hx]]].
    + now left.
    + right. left. apply Hleft in Hx. destruct Hx as [(c & Hc & ->) _].
      apply In_unshared in Hc. exists c. tauto.
    + right. right. left. apply Hright in Hx. destruct Hx as [(c & Hc & ->) _].
      apply In_unshared in Hc. exists c. tauto.
    + right. right. right. simpl in Hx. destruct Hx as [<-|[]]. reflexivity.
Qed.

Lemma dataset_preparation_columns_witness :
  exists out, dataset_preparation "PVS 1" sample_session "data" = Ok out /\
    columns out =
      (shared_columns
         ++ other_names raw_timestamps
              (map (fun c => (c ++ "_L")%string) (unshared (columns sample_left)))
         ++ other_names raw_timestamps
              (map (fun c => (c ++ "_R")%string) (unshared (columns sample_right)))
         ++ ["road_condition"])%list /\
    (forall s, In s shared_columns -> occurrences s (columns out) = 1%nat) /\
    (forall t, In t raw_timestamps -> mem t (columns out) = false) /\
    (forall c, In c (columns sample_left) -> ~ In c shared_columns ->
               same_name c "timestep" = false ->
               mem (c ++ "_L") raw_timestamps = false -> In (c ++ "_L") (columns out)) /\
    (forall c, In c (columns sample_right) -> ~ In c shared_columns ->
               same_name c "timestep" = false ->
               mem (c ++ "_R") raw_timestamps = false -> In (c ++ "_R") (columns out)) /\
    (forall x, In x (columns out) ->
               In x shared_columns
               \/ (exists c, In c (columns sample_left) /\ ~ In c shared_columns
                             /\ x = c ++ "_L")
               \/ (exists c, In c (columns sample_right) /\ ~ In c shared_columns
                             /\ x = c ++ "_R")
               \/ x = "road_condition").
Proof.
  apply (dataset_preparation_columns "PVS 1" sample_session "data"
           sample_left sample_right sample_labels).
  - repeat split.
  - reflexivity.
Defined.

(** ** Alignment and merge: rows of the result *)

Lemma map_mapi_from_key {A B C : Type} (h : nat -> A -> B) (g : B -> C) (k : nat -> C)
                        (l : list A) (s : nat) :
  (forall j r, g (h j r) = k j) ->
  map g (mapi_from s h l) = mapi_from s (fun j _ => k j) l.
Proof.
  intros H. revert s. induction l as [|x l IH]; simpl; intros s; [reflexivity|].
  now rewrite H, IH.
Qed.

Lemma map_concat_mapi {A B C : Type} (h : nat -> nat -> A -> B) (g : B -> C)
                      (k : nat -> nat -> C) (parts : list (list A)) (i : nat) :
  (forall p j r, g (h p j r) = k p j) ->
  map g (List.concat (mapi_from i (fun p part => mapi_from 0 (h p) part) parts))
  = List.concat (mapi_from i (fun p part => mapi_from 0 (fun j _ => k p j) part) parts).
Proof.
  intros H. revert i. induction parts as [|part parts IH]; simpl; intros i; [reflexivity|].
  rewrite map_app, IH. f_equal. apply map_mapi_from_key. intros j r. apply H.
Qed.

(** The [timestep] cells after [withColumn('timestep', ...)]. *)
Lemma timesteps_with_timestep (df : DataFrame) :
  map (fun r => field (columns (with_timestep df)) r "timestep") (collect (with_timestep df))
  = map VInt (assigned_ids df).
Proof.
  unfold collect, with_timestep, assigned_ids, mapi. cbn [columns partitions].
  rewrite (map_concat_mapi _ _ (fun p j => VInt (row_id p j))).
  - rewrite <- (map_concat_mapi (fun p j (_ : Row) => row_id p j) VInt
                                (fun p j => VInt (row_id p j))); reflexivity.
  - intros p j r. apply field_put_same.
Qed.

Lemma length_concat_mapi {A B : Type} (h : nat -> nat -> A -> B)
                         (parts : list (list A)) (i : nat) :
  List.length (List.concat (mapi_from i (fun p part => mapi_from 0 (h p) part) parts))
  = List.length (List.concat parts).
Proof.
  revert i. induction parts as [|part parts IH]; simpl; intros i; [reflexivity|].
  now rewrite !length_app, length_mapi_from, IH.
Qed.

Lemma count_with_timestep (df : DataFrame) : count (with_timestep df) = count df.
Proof.
  unfold count, collect, with_timestep, mapi. cbn [partitions].
  apply (length_concat_mapi
           (fun p j r => put "timestep" (columns df) r (VInt (row_id p j)))).
Qed.

(** *** Matches of a left join *)

Lemma join_eqb_int_unique (a z1 z2 : Z) :
  join_eqb (VInt a) (VInt z1) = true -> join_eqb (VInt a) (VInt z2) = true -> z1 = z2.
Proof. simpl. intros H1 H2. apply Z.eqb_eq in H1, H2. congruence. Qed.

Lemma at_most_one_match (rs : list Row) (key : Row -> value) (zs : list Z)
                        (a : Z) (p : Row -> bool) :
  map key rs = map VInt zs -> NoDup zs ->
  (forall r, p r = true -> join_eqb (VInt a) (key r) = true) ->
  (List.length (filter p rs) <= 1)%nat.
Proof.
  intros Hkeys Hnd Hp. revert zs Hkeys Hnd.
  induction rs as [|r rs IH]; intros zs Hkeys Hnd; simpl; [lia|].
  destruct zs as [|z zs]; [discriminate|]. simpl in Hkeys.
  injection Hkeys as Hr Hrs. inversion Hnd as [|? ? Hnotin Hnd']; subst.
  destruct (p r) eqn:Hpr; [|now apply (IH zs)].
  rewrite filter_none; [simpl; lia|].
  intros r' Hr'. destruct (p r') eqn:Hpr'; [|reflexivity]. exfalso.
  assert (Hin : In (key r') (map VInt zs)) by (rewrite <- Hrs; now apply in_map).
  apply in_map_iff in Hin. destruct Hin as [z' [Hz' Hin]].
  pose proof (Hp r Hpr) as H1. pose proof (Hp r' Hpr') as H2.
  rewrite Hr in H1. rewrite <- Hz' in H2.
  rewrite (join_eqb_int_unique _ _ _ H1 H2) in Hnotin. contradiction.
Qed.

Lemma length_join_rows (left right : DataFrame) (on : list string) (l : Row) :
  (List.length (filter (fun r => keys_match (project (positions (columns left) on) l)
                                             (project (positions (columns right) on) r))
                       (collect right)) <= 1)%nat ->
  List.length (join_rows left right on l) = 1%nat.
Proof.
  unfold join_rows. destruct (filter _ (collect right)) as [|m ms]; [reflexivity|].
  simpl. intros H. destruct ms; [reflexivity | simpl in H; lia].
Qed.

Lemma count_joined (left right : DataFrame) (on : list string) :
  (forall l, In l (collect left) -> List.length (join_rows left right on l) = 1%nat) ->
  count (joined left right on) = count left.
Proof.
  unfold count, joined, collect at 2. cbn [partitions List.concat]. rewrite app_nil_r.
  induction (collect left) as [|l ls IH]; simpl; intros H; [reflexivity|].
  rewrite length_app, (H l (or_introl eq_refl)), IH; auto.
Qed.

(** A left join on a key list that starts with a column of unique integers
    on the right keeps the number of left rows. *)
Lemma count_joined_unique (left right : DataFrame) (k : string) (on : list string)
                          (zs : list Z) :
  (forall l, In l (collect left) -> exists a, cell l (position (columns left) k) = VInt a) ->
  map (fun r => cell r (position (columns right) k)) (collect right) = map VInt zs ->
  NoDup zs ->
  count (joined left right (k :: on)) = count left.
Proof.
  intros Hleft Hkeys Hnd. apply count_joined. intros l Hl. apply length_join_rows.
  destruct (Hleft l Hl) as [a Ha].
  apply (at_most_one_match _ _ zs a _ Hkeys Hnd).
  intros r Hr. cbn [positions map project keys_match] in Hr.
  rewrite Ha in Hr. now apply andb_true_iff in Hr.
Qed.

Lemma integer_cells {A : Type} (f : A -> value) (l : list A) (zs : list Z) (x : A) :
  map f l = map VInt zs -> In x l -> exists a, f x = VInt a.
Proof.
  intros Hmap Hx. assert (Hin : In (f x) (map VInt zs)) by (rewrite <- Hmap; now apply in_map).
  apply in_map_iff in Hin. destruct Hin as [a [Ha _]]. now exists a.
Qed.

Lemma first_cell_joined (left right : DataFrame) (k : string) (on : list string) (r : Row) :
  In r (collect (joined left right (k :: on))) ->
  exists l, In l (collect left) /\ cell r 0 = cell l (position (columns left) k).
Proof.
  unfold joined, collect at 1. cbn [partitions List.concat]. rewrite app_nil_r.
  rewrite in_flat_map. intros [l [Hl Hr]]. exists l. split; [assumption|].
  unfold join_rows in Hr.
  destruct (filter _ (collect right)) as [|m ms].
  - destruct Hr as [<-|[]]. reflexivity.
  - apply in_map_iff in Hr. destruct Hr as [r' [<- _]]. reflexivity.
Qed.

Lemma count_ordered (name : string) (df : DataFrame) : count (ordered name df) = count df.
Proof.
  unfold count, ordered, collect at 1. cbn [partitions List.concat].
  now rewrite app_nil_r, length_sort_by.
Qed.

Lemma collect_drop (names : list string) (df : DataFrame) :
  collect (drop names df) = map (project (others names (columns df))) (collect df).
Proof. unfold collect, drop. cbn [partitions]. apply concat_map_map. Qed.

Lemma count_drop (names : list string) (df : DataFrame) : count (drop names df) = count df.
Proof. unfold count. now rewrite collect_drop, length_map. Qed.

Lemma Sorted_map_key (f : Row -> Row) (k k' : Row -> value) (l : list Row) :
  (forall x, k' (f x) = k x) ->
  Sorted (ascending k) l -> Sorted (ascending k') (map f l).
Proof.
  intros Hk. induction 1 as [|x l Hs IH Hhd]; simpl; constructor; [assumption|].
  destruct Hhd as [|y l Hxy]; simpl; constructor.
  unfold ascending in *. now rewrite !Hk.
Qed.

(** *** The join keys of the three tables *)

Lemma timestep_cells_renamed (suffix : string) (df : DataFrame) :
  distinguishing suffix ->
  has_column (with_name "timestep" (columns df)) "timestep" = true ->
  map (fun r => cell r (position (columns (renamed suffix (with_timestep df))) "timestep"))
      (collect (renamed suffix (with_timestep df)))
  = map VInt (assigned_ids df).
Proof.
  intros Hd Hts. rewrite <- timesteps_with_timestep.
  change (collect (renamed suffix (with_timestep df))) with (collect (with_timestep df)).
  apply map_ext. intros r.
  change (columns (renamed suffix (with_timestep df)))
    with (map (rename suffix) (columns (with_timestep df))).
  unfold position at 1. cbn [with_timestep columns].
  rewrite (index_of_renamed_timestep suffix _ Hd).
  symmetry. now apply field_position.
Qed.

Lemma timestep_cells_labelled (df : DataFrame) :
  map (fun r => cell r (position (columns (labelled (with_timestep df))) "timestep"))
      (collect (labelled (with_timestep df)))
  = map VInt (assigned_ids df).
Proof.
  rewrite <- timesteps_with_timestep. unfold collect at 1, labelled. cbn [partitions columns].
  rewrite concat_map_map, map_map. reflexivity.
Qed.

Lemma preparable_timestep (L R Lb : DataFrame) :
  preparable L R Lb = true ->
  has_column (with_name "timestep" (columns L)) "timestep" = true
  /\ has_column (with_name "timestep" (columns R)) "timestep" = true.
Proof.
  unfold preparable, shared_columns. cbn [forallb].
  rewrite !has_column_timestep, !andb_true_iff. tauto.
Qed.

Lemma preparable_sensors (L R Lb : DataFrame) :
  preparable L R Lb = true ->
  forallb (listed_once (with_name "timestep" (columns L))) shared_columns = true
  /\ forallb (listed_once (with_name "timestep" (columns R))) shared_columns = true.
Proof. unfold preparable. rewrite !andb_true_iff. tauto. Qed.

Section Prepared.

Variables L R Lb : DataFrame.
Hypothesis Hprep : preparable L R Lb = true.
Hypothesis HR : NoDup (assigned_ids R).
Hypothesis HLb : NoDup (assigned_ids Lb).

Let sensors : DataFrame :=
  joined (renamed "_L" (with_timestep L)) (renamed "_R" (with_timestep R)) shared_columns.

Let merged : DataFrame := joined sensors (labelled (with_timestep Lb)) ["timestep"].

Lemma count_sensors : count sensors = count L.
Proof.
  destruct (preparable_timestep _ _ _ Hprep) as [HtsL HtsR].
  unfold sensors, shared_columns.
  rewrite (count_joined_unique _ _ "timestep" _ (assigned_ids R)); trivial.
  - apply count_with_timestep.
  - intros l Hl.
    apply (integer_cells
             (fun r => cell r (position (columns (renamed "_L" (with_timestep L))) "timestep"))
             (collect (renamed "_L" (with_timestep L))) (assigned_ids L) l); [|exact Hl].
    now apply timestep_cells_renamed; [apply distinguishing_L|].
  - now apply timestep_cells_renamed; [apply distinguishing_R|].
Qed.

(** Every row of the join of the sensor tables starts with the [timestep] of
    a left row. *)
Lemma first_cell_sensors (s : Row) :
  In s (collect sensors) ->
  exists z, cell s (position (columns sensors) "timestep") = VInt z /\ In z (assigned_ids L).
Proof.
  destruct (preparable_timestep _ _ _ Hprep) as [HtsL _].
  destruct (preparable_sensors _ _ _ Hprep) as [HsL HsR].
  intros Hs. unfold position, sensors at 1. rewrite (timestep_first_sensors L R HsL).
  apply first_cell_joined in Hs. destruct Hs as (l & Hl & ->).
  pose proof (timestep_cells_renamed "_L" L distinguishing_L HtsL) as Hkeys.
  assert (Hin : In (cell l (position (columns (renamed "_L" (with_timestep L))) "timestep"))
                   (map VInt (assigned_ids L))).
  { rewrite <- Hkeys.
    now apply (in_map (fun r => cell r (position (columns (renamed "_L" (with_timestep L)))
                                                 "timestep"))). }
  apply in_map_iff in Hin. destruct Hin as [z [Hz Hin]]. now exists z.
Qed.

Lemma count_merged : count merged = count L.
Proof.
  unfold merged.
  rewrite (count_joined_unique _ _ "timestep" [] (assigned_ids Lb)); trivial.
  - apply count_sensors.
  - intros s Hs. destruct (first_cell_sensors s Hs) as [z [Hz _]]. now exists z.
  - apply timestep_cells_labelled.
Qed.

Lemma count_prepared : count (prepared L R Lb) = count L.
Proof.
  unfold prepared. rewrite count_drop, count_ordered. apply count_merged.
Qed.

(** Every row of the merge starts with the [timestep] of a left row. *)
Lemma first_cell_merged (r : Row) :
  In r (collect merged) -> exists z, cell r 0 = VInt z /\ In z (assigned_ids L).
Proof.
  intros Hr. apply first_cell_joined in Hr. destruct Hr as (s & Hs & ->).
  now apply first_cell_sensors.
Qed.

Lemma collect_prepared :
  collect (prepared L R Lb)
  = map (project (others raw_timestamps (columns merged)))
        (sort_by (fun r => cell r 0) (collect merged)).
Proof.
  destruct (preparable_sensors _ _ _ Hprep) as [HsL HsR].
  unfold prepared. fold sensors. fold merged. rewrite collect_drop.
  unfold collect at 1, ordered. cbn [partitions List.concat columns]. rewrite app_nil_r.
  replace (position (columns merged) "timestep") with 0%nat; [reflexivity|].
  unfold merged, sensors. now rewrite (merged_columns L R HsL).
Qed.

Lemma timestep_prepared (o : Row) :
  field (columns (prepared L R Lb)) o "timestep" = cell o 0.
Proof. rewrite (prepared_columns _ _ _ Hprep). reflexivity. Qed.

Lemma first_kept (r : Row) :
  cell (project (others raw_timestamps (columns merged)) r) 0 = cell r 0.
Proof.
  destruct (preparable_sensors _ _ _ Hprep) as [HsL HsR].
  unfold merged, sensors. now rewrite (merged_columns L R HsL).
Qed.

Lemma sorted_prepared :
  Sorted (ascending (fun o => field (columns (prepared L R Lb)) o "timestep"))
         (collect (prepared L R Lb)).
Proof.
  rewrite collect_prepared.
  apply (Sorted_map_key _ (fun r => cell r 0)).
  - intros r. rewrite timestep_prepared. apply first_kept.
  - apply sort_by_sorted. apply Forall_forall. intros r Hr.
    destruct (first_cell_merged r Hr) as [z [Hz _]]. now exists z.
Qed.

Lemma timesteps_prepared (o : Row) :
  In o (collect (prepared L R Lb)) ->
  exists z, field (columns (prepared L R Lb)) o "timestep" = VInt z /\ In z (assigned_ids L).
Proof.
  rewrite collect_prepared, in_map_iff. intros [r [<- Hr]].
  apply In_sort_by in Hr. rewrite timestep_prepared.
  destruct (first_cell_merged r Hr) as [z [Hz Hin]]. exists z. split; [|assumption].
  rewrite <- Hz. apply first_kept.
Qed.

End Prepared.

(** C7. On a run whose files are read and have the needed columns, and whose
    right and label tables get pairwise distinct timesteps, the table
    returned by [dataset_preparation] has as many rows as the left sensor
    table and is in ascending order of [timestep]; its timesteps are those
    given to the left rows. *)
Theorem dataset_preparation_rows :
  forall (name : string) (spark_session : SparkSession) (data_path : string)
         (L R Lb : DataFrame),
    reads spark_session data_path name L R Lb ->
    preparable L R Lb = true ->
    NoDup (assigned_ids R) ->
    NoDup (assigned_ids Lb) ->
    exists out, dataset_preparation name spark_session data_path = Ok out /\
      count out = count L /\
      Sorted (ascending (fun o => field (columns out) o "timestep")) (collect out) /\
      (forall o, In o (collect out) ->
                 exists z, field (columns out) o "timestep" = VInt z /\ In z (assigned_ids L)).
Proof.
  intros name spark_session data_path L R Lb Hreads Hprep HR HLb.
  rewrite (dataset_preparation_spec _ _ _ L R Lb Hreads), Hprep.
  eexists. split; [reflexivity|]. split; [|split].
  - now apply count_prepared.
  - now apply sorted_prepared.
  - now apply timesteps_prepared.
Qed.

Lemma dataset_preparation_rows_witness :
  exists out, dataset_preparation "PVS 1" sample_session "data" = Ok out /\
    count out = count sample_left /\
    Sorted (ascending (fun o => field (columns out) o "timestep")) (collect out) /\
    (forall o, In o (collect out) ->
               exists z, field (columns out) o "timestep" = VInt z
                         /\ In z (assigned_ids sample_left)).
Proof.
  apply (dataset_preparation_rows "PVS 1" sample_session "data"
           sample_left sample_right sample_labels).
  - repeat split.
  - reflexivity.
  - vm_compute. repeat (constructor; [simpl; intuition lia|]). constructor.
  - vm_compute. repeat (constructor; [simpl; intuition lia|]). constructor.
Defined.

(** ** The functions on the sample run *)

Example dataset_preparation_sample :
  dataset_preparation "PVS 1" sample_session "data" =
    Ok {| columns := ["timestep"; "latitude"; "longitude"; "speed"; "acc_x_L"; "acc_x_R";
                      "road_condition"];
          partitions :=
            [[[VInt 0; VStr "-27.71"; VStr "-51.11"; VStr "0.01"; VStr "0.36"; VStr "0.31";
               VStr "good"];
              [VInt 1; VStr "-27.71"; VStr "-51.11"; VStr "0.01"; VStr "0.39"; VStr "0.32";
               VStr "bad"];
              [VInt 8589934592; VStr "-27.72"; VStr "-51.12"; VStr "0.02"; VStr "0.37";
               VStr "0.33"; VStr "regular"]]] |}.
Proof. vm_compute. reflexivity. Qed.

Example dataset_preparation_missing_run :
  dataset_preparation "PVS 2" sample_session "data" = Raise AnalysisException.
Proof. reflexivity. Qed.

(** The means are doubles: the longitude of the first window is the double
    written -51.114999999999995, not -10223/200. *)
Example approximate_ts_sample :
  exists out,
    approximate_ts sample_aligned [F_avg "acc_x_L"] 2 true = Ok out /\
    columns out = ["group_by"; "timestep"; "road_condition"; "latitude"; "longitude";
                   "acc_x_L"] /\
    map (fun o => [cell o 0; cell o 1; cell o 2]) (collect out)
    = [[VInt 0; VInt 1; VStr "good"]; [VInt 1; VInt 3; VStr "bad"];
       [VInt 2; VInt 4; VStr "regular"]] /\
    map (fun o => cell o 4) (collect out)
    = [VDouble (-3596898358641295 # 70368744177664);
       VDouble (-3598305733524849 # 70368744177664);
       VDouble (-7198722529375027 # 140737488355328)].
Proof. eexists. split; [vm_compute; reflexivity|]. repeat split. Qed.

Example approximate_ts_unknown_feature :
  approximate_ts sample_aligned [F_avg "acc_x"] 2 true = Raise AnalysisException.
Proof. reflexivity. Qed.

Example moving_average_errors :
  moving_average [] 3 = Raise ValueError /\
  moving_average [1; 2]%Q 0 = Raise ValueError /\
  moving_average [1; 2]%Q (-3) = Raise ValueError.
Proof. repeat split. Qed.

(** ** Moving average: errors, padding and values *)

Lemma np_pad_reflect_ok (arr : list Q) (h : Z) :
  arr <> [] -> 0 <= h ->
  np_pad_reflect arr h h =
    Ok (map (fun k => nth (Z.to_nat (if (zlength arr =? 1)%Z then 0
                                     else reflect_index (zlength arr) (Z.of_nat k - h)))
                          arr 0%Q)
            (seq 0 (Z.to_nat (h + zlength arr + h)))).
Proof.
  intros Harr Hh. unfold np_pad_reflect, zlength.
  assert (Hn : (0 < List.length arr)%nat) by (destruct arr; [congruence | simpl; lia]).
  destruct (Z.ltb_spec h 0) as [?|_]; [lia|]. cbn [orb].
  destruct (Z.eqb_spec (Z.of_nat (List.length arr)) 0) as [?|_]; [lia|]. reflexivity.
Qed.

Lemma moving_average_invalid (arr : list Q) (w : Z) :
  arr = [] \/ w <= 0 -> moving_average arr w = Raise ValueError.
Proof.
  intros H. unfold moving_average.
  destruct (Z.ltb_spec w 0) as [Hneg|Hpos].
  - unfold np_pad_reflect.
    assert (Hh : w / 2 < 0) by (apply Z.div_lt_upper_bound; lia).
    destruct (Z.ltb_spec (w / 2) 0) as [_|?]; [reflexivity | lia].
  - destruct arr as [|x arr].
    + unfold np_pad_reflect. cbn [List.length Z.of_nat].
      assert (Hh : 0 <= w / 2) by (apply Z.div_pos; lia).
      destruct (Z.ltb_spec (w / 2) 0) as [?|_]; [lia|]. cbn [orb Z.eqb andb].
      destruct (Z.ltb_spec 0 (w / 2)) as [_|Hz]; [reflexivity|]. cbn [bind].
      replace (w / 2 + 0 + w / 2) with 0 by lia. cbn [Z.to_nat seq map].
      unfold np_ones. destruct (Z.ltb_spec w 0) as [?|_]; [lia|]. reflexivity.
    + destruct H as [H|H]; [discriminate|]. assert (w = 0) by lia. subst w.
      change (0 / 2) with 0. rewrite np_pad_reflect_ok by (discriminate || lia).
      cbn [bind]. change (np_ones 0) with (Ok (@nil Q)). cbn [bind map].
      unfold np_convolve_valid. now destruct (map _ _).
Qed.

(** A result means a non-empty sequence and a positive window. *)
Lemma moving_average_Ok_inv (arr : list Q) (w : Z) (out : list Q) :
  moving_average arr w = Ok out -> arr <> [] /\ 0 < w.
Proof.
  intros Hout.
  assert (Hdec : (arr = [] \/ w <= 0) \/ (arr <> [] /\ 0 < w)).
  { destruct arr; [now left; left|]. destruct (Z_le_gt_dec w 0); [now left; right|].
    right. split; [discriminate | lia]. }
  destruct Hdec as [H|H]; [|exact H].
  rewrite (moving_average_invalid _ _ H) in Hout. discriminate.
Qed.

(** [moving_average] raises, and then a [ValueError], exactly on an empty
    sequence or a window size that is not positive. *)
Theorem moving_average_raises_iff :
  forall (arr : list Q) (window_size : Z),
    (moving_average arr window_size = Raise ValueError <-> arr = [] \/ window_size <= 0)
    /\ (forall e, moving_average arr window_size = Raise e -> e = ValueError).
Proof.
  intros arr w.
  assert (Hdec : (arr = [] \/ w <= 0) \/ (arr <> [] /\ 0 < w)).
  { destruct arr; [now left; left|]. destruct (Z_le_gt_dec w 0); [now left; right|].
    right. split; [discriminate | lia]. }
  split; [split|].
  - intros Hr. destruct Hdec as [H|[Harr Hw]]; [assumption|].
    destruct (moving_average_shape arr w Harr Hw) as (out & Hout & _). congruence.
  - apply moving_average_invalid.
  - intros e He. destruct Hdec as [H|[Harr Hw]].
    + rewrite (moving_average_invalid _ _ H) in He. congruence.
    + destruct (moving_average_shape arr w Harr Hw) as (out & Hout & _). congruence.
Qed.

(** *** Values of the moving average *)

Lemma moving_average_explicit (arr : list Q) (w : Z) :
  arr <> [] -> 0 < w ->
  moving_average arr w =
    Ok (removelast
          (map (convolve_at (padded_of arr (w / 2)) (kernel_of w))
               (seq 0 (List.length (padded_of arr (w / 2)) - Z.to_nat w + 1)))).
Proof.
  intros Harr Hw. unfold moving_average.
  assert (Hn : (0 < List.length arr)%nat) by (destruct arr; [congruence | simpl; lia]).
  assert (Hh : 0 <= w / 2) by (apply Z.div_pos; lia).
  assert (Hhalf : w - 1 <= 2 * (w / 2)).
  { pose proof (Z.div_mod w 2 ltac:(lia)).
    pose proof (Z.mod_pos_bound w 2 ltac:(lia)). lia. }
  rewrite (np_pad_reflect_ok arr (w / 2) Harr Hh). fold (padded_of arr (w / 2)).
  cbn [bind]. unfold np_ones. destruct (Z.ltb_spec w 0) as [?|_]; [lia|]. cbn [bind].
  fold (kernel_of w).
  assert (Hp : List.length (padded_of arr (w / 2))
               = Z.to_nat (w / 2 + Z.of_nat (List.length arr) + w / 2)).
  { unfold padded_of, zlength. now rewrite length_map, length_seq. }
  assert (Hk : List.length (kernel_of w) = Z.to_nat w).
  { unfold kernel_of. now rewrite length_map, repeat_length. }
  unfold np_convolve_valid.
  destruct (padded_of arr (w / 2)) as [|p ps] eqn:Ep; [simpl in Hp; lia|].
  destruct (kernel_of w) as [|c cs] eqn:Ek; [simpl in Hk; lia|].
  destruct (Nat.ltb_spec (List.length (p :: ps)) (List.length (c :: cs))) as [Hlt|_]; [lia|].
  cbn [bind]. now rewrite Hk.
Qed.

Lemma reflect_index_inside (n i : Z) : 2 <= n -> 0 <= i < n -> reflect_index n i = i.
Proof.
  intros Hn Hi. unfold reflect_index.
  rewrite Z.mod_small by lia.
  destruct (Z.ltb_spec i n); lia.
Qed.

(** Reflect padding only repeats elements of the array. *)

Lemma map_nth_seq_id {A : Type} (l : list A) (d : A) :
  map (fun k => nth k l d) (seq 0 (List.length l)) = l.
Proof.
  induction l as [|x l IH]; [reflexivity|].
  cbn [List.length seq map nth]. f_equal.
  rewrite <- seq_shift, map_map. exact IH.
Qed.

Lemma removelast_map {A B : Type} (f : A -> B) (l : list A) :
  removelast (map f l) = map f (removelast l).
Proof.
  induction l as [|x l IH]; [reflexivity|].
  destruct l as [|y l]; [reflexivity|].
  cbn [map removelast] in *. now rewrite IH.
Qed.

Lemma nth_map_seq {A : Type} (f : nat -> A) (n i : nat) (d : A) :
  (i < n)%nat -> nth i (map f (seq 0 n)) d = f i.
Proof.
  intros Hi. rewrite (nth_indep _ d (f 0%nat)) by (rewrite length_map, length_seq; lia).
  rewrite (map_nth f (seq 0 n) 0%nat i), seq_nth by lia. reflexivity.
Qed.

Lemma padded_source_inside (arr : list Q) (h : Z) (i : nat) :
  arr <> [] -> 0 <= h -> h <= Z.of_nat i < h + zlength arr ->
  nth i (padded_of arr h) 0%Q = nth (i - Z.to_nat h) arr 0%Q.
Proof.
  intros Harr Hh Hi. unfold padded_of. rewrite nth_map_seq by lia. f_equal.
  destruct (Z.eqb_spec (zlength arr) 1) as [E|E]; [lia|].
  rewrite reflect_index_inside; unfold zlength in *; lia.
Qed.

Lemma padded_of_zero (arr : list Q) : arr <> [] -> padded_of arr 0 = arr.
Proof.
  intros Harr. apply nth_ext with (d := 0%Q) (d' := 0%Q).
  - unfold padded_of, zlength. rewrite length_map, length_seq. lia.
  - intros i Hi. unfold padded_of, zlength in Hi. rewrite length_map, length_seq in Hi.
    rewrite padded_source_inside; unfold zlength; try lia; trivial.
    f_equal. lia.
Qed.

Lemma Qmult_1_r_eq (q : Q) : (q * 1)%Q = q.
Proof. destruct q as [n d]. unfold Qmult. cbn. now rewrite Z.mul_1_r, Pos.mul_1_r. Qed.

(** A window of one element: the element, as a double. *)
Lemma convolve_at_unit (a : list Q) (k : nat) :
  convolve_at a [1%Q] k = round64 (nth k a 0%Q).
Proof.
  unfold convolve_at. cbn [List.length seq fold_left nth Nat.sub].
  change (round64 1) with 1%Q.
  now rewrite Nat.add_0_r, Qmult_1_r_eq, Qplus_0_l_eq, !round64_idempotent.
Qed.

Lemma map_representable (l : list Q) : Forall representable l -> map round64 l = l.
Proof.
  induction 1 as [|x l Hx _ IH]; [reflexivity|]. cbn [map]. now rewrite Hx, IH.
Qed.

Lemma Forall_removelast {A : Type} (P : A -> Prop) (l : list A) :
  Forall P l -> Forall P (removelast l).
Proof.
  induction 1 as [|x l Hx Hl IH]; [constructor|].
  destruct l as [|y l]; [constructor|]. cbn [removelast] in *. now constructor.
Qed.

(** With [window_size = 1] nothing is smoothed: the result is the sequence
    without its last element (each element as the double it is read as: a
    sequence of doubles comes back unchanged). *)
Theorem moving_average_window_one :
  forall arr : list Q,
    arr <> [] ->
    moving_average arr 1 = Ok (map round64 (removelast arr))
    /\ (Forall representable arr -> moving_average arr 1 = Ok (removelast arr)).
Proof.
  intros arr Harr.
  assert (H : moving_average arr 1 = Ok (map round64 (removelast arr))).
  { rewrite (moving_average_explicit arr 1 Harr) by lia.
    change (1 / 2) with 0. rewrite (padded_of_zero arr Harr).
    change (kernel_of 1) with [1%Q]. f_equal.
    assert (Hn : (0 < List.length arr)%nat) by (destruct arr; [congruence | simpl; lia]).
    replace (List.length arr - Z.to_nat 1 + 1)%nat with (List.length arr) by lia.
    rewrite <- removelast_map. f_equal.
    transitivity (map round64 (map (fun k => nth k arr 0%Q) (seq 0 (List.length arr))));
      [|now rewrite map_nth_seq_id].
    rewrite map_map. apply map_ext. intros k. apply convolve_at_unit. }
  split; [exact H|].
  intros Hd. rewrite H. f_equal. now apply map_representable, Forall_removelast.
Qed.

Lemma moving_average_window_one_witness :
  moving_average [4; 3 # 2; 9]%Q 1 = Ok (map round64 (removelast [4; 3 # 2; 9]%Q))
  /\ (Forall representable [4; 3 # 2; 9]%Q ->
      moving_average [4; 3 # 2; 9]%Q 1 = Ok (removelast [4; 3 # 2; 9]%Q)).
Proof.
  apply moving_average_window_one. discriminate.
Defined.

(** ** Windowed approximation: errors, label flag, order *)

(** The only exception of [approximate_ts] is the analysis error of a name
    that does not denote one column, and [timesteps] has no part in it: a
    call that raises raises for every [timesteps], a call that returns
    returns for every [timesteps]. *)
Theorem approximate_ts_errors :
  forall (df : DataFrame) (features : list AggExpr) (timesteps : Z) (label : bool),
    (forall e, approximate_ts df features timesteps label = Raise e ->
               e = AnalysisException
               /\ forall t', approximate_ts df features t' label = Raise AnalysisException)
    /\ (forall out, approximate_ts df features timesteps label = Ok out ->
                    forall t', exists out', approximate_ts df features t' label = Ok out').
Proof.
  intros df features t label. split.
  - intros e He. rewrite approximate_ts_spec in He.
    destruct (aggregable df features label) eqn:Hagg; [discriminate|].
    injection He as <-. split; [reflexivity|].
    intros t'. now rewrite approximate_ts_spec, Hagg.
  - intros out Hout t'. rewrite approximate_ts_spec in Hout.
    destruct (aggregable df features label) eqn:Hagg; [|discriminate].
    rewrite approximate_ts_spec, Hagg. now eexists.
Qed.

Lemma occurrences_cons (s c : string) (cols : list string) :
  occurrences s (c :: cols)
  = ((if same_name s c then 1 else 0) + occurrences s cols)%nat.
Proof. unfold occurrences. simpl. now destruct (same_name s c). Qed.

Lemma occurrences_In (s : string) (cols : list string) :
  In s cols -> (1 <= occurrences s cols)%nat.
Proof.
  intros H. apply mem_true_occurrences. now apply mem_In.
Qed.

(** The names of the result: [group_by], the built-in aggregates, the
    features. *)
Lemma aliases_aggregated (label : bool) (features : list AggExpr) :
  "group_by" :: map alias (aggregations label features)
  = (("group_by" :: map alias (aggregations label [])) ++ map alias features)%list.
Proof. destruct label; reflexivity. Qed.

Lemma timestep_alias_count (label : bool) (features : list AggExpr) :
  occurrences "timestep" ("group_by" :: map alias (aggregations label features))
  = S (occurrences "timestep" (map alias features)).
Proof.
  rewrite aliases_aggregated, occurrences_app. now destruct label.
Qed.

(** A feature that is given the name [timestep], in any spelling, makes the
    final [orderBy('timestep')] ambiguous: the call raises. *)
Theorem approximate_ts_alias_timestep :
  forall (df : DataFrame) (features : list AggExpr) (timesteps : Z) (label : bool),
    Exists (fun a => same_name (alias a) "timestep" = true) features ->
    approximate_ts df features timesteps label = Raise AnalysisException.
Proof.
  intros df features t label Hex. rewrite approximate_ts_spec.
  assert (Hout : has_column ("group_by" :: map alias (aggregations label features)) "timestep"
                 = false).
  { unfold has_column. apply Nat.eqb_neq. rewrite timestep_alias_count.
    apply Exists_exists in Hex. destruct Hex as [a [Ha Hs]].
    assert (Hin : In (alias a) (map alias features)) by now apply in_map.
    apply occurrences_In in Hin. rewrite (occurrences_as _ _ _ Hs) in Hin. lia. }
  unfold aggregable. rewrite Hout. now rewrite !andb_false_r.
Qed.

Lemma approximate_ts_alias_timestep_witness :
  approximate_ts sample_aligned [mkAgg "TimeStep" "acc_x_L" agg_avg] 200 true
  = Raise AnalysisException.
Proof.
  apply approximate_ts_alias_timestep. now constructor.
Defined.

Lemma aggregable_without_label (df : DataFrame) (features : list AggExpr) :
  aggregable df features true = true -> aggregable df features false = true.
Proof.
  unfold aggregable. rewrite !andb_true_iff.
  intros [[[Hts Hg] Hsrc] Hout]. split; [split; [now split|]|].
  - unfold aggregations in *. cbn [app forallb] in *.
    rewrite !andb_true_iff in *. tauto.
  - unfold has_column in *. rewrite timestep_alias_count in *. exact Hout.
Qed.

(** The [label] flag: with [label = True] a table without a
    [road_condition] column (in any spelling) is refused; whatever
    [label = True] accepts, [label = False] accepts, and it returns as many
    rows, without a [road_condition] aggregate. *)
Theorem approximate_ts_label_flag :
  forall (df : DataFrame) (features : list AggExpr) (timesteps : Z),
    (occurrences "road_condition" (columns df) = 0%nat ->
     approximate_ts df features timesteps true = Raise AnalysisException)
    /\ (forall out, approximate_ts df features timesteps true = Ok out ->
          exists out', approximate_ts df features timesteps false = Ok out'
                       /\ count out' = count out
                       /\ columns out' = ("group_by" :: "timestep" :: "latitude"
                                            :: "longitude" :: map alias features)%list).
Proof.
  intros df features t. split.
  - intros Hocc. rewrite approximate_ts_spec.
    assert (Hrc : has_column (with_name "group_by" (columns df)) "road_condition" = false).
    { unfold has_column. rewrite occurrences_with_name_other by reflexivity.
      now rewrite Hocc. }
    unfold aggregable, aggregations. cbn [app forallb source F_max F_mode F_avg].
    rewrite Hrc. now rewrite !andb_false_r.
  - intros out Hout. rewrite approximate_ts_spec in Hout.
    destruct (aggregable df features true) eqn:Hagg; [|discriminate].
    injection Hout as <-. rewrite approximate_ts_spec, (aggregable_without_label _ _ Hagg).
    eexists. split; [reflexivity|]. split; [|reflexivity].
    now rewrite !count_approximated.
Qed.

Lemma approximate_ts_label_flag_witness :
  occurrences "road_condition" (columns (range_table 3)) = 0%nat /\
  approximate_ts (range_table 3) [] 2 true = Raise AnalysisException.
Proof.
  split; [reflexivity|].
  apply (approximate_ts_label_flag (range_table 3) [] 2). reflexivity.
Defined.

(** *** The retained timestep *)

Lemma cast_integer_exact (v : value) : exact (cast_integer v).
Proof. destruct v as [|s|z|q]; simpl; trivial. now destruct (string_to_int s). Qed.

Lemma window_index_exact (cols : list string) (t : Z) (r : Row) :
  exact (window_index cols t r).
Proof. apply cast_integer_exact. Qed.

Lemma In_window_rows (df : DataFrame) (t : Z) (g : value) (r : Row) :
  exact g ->
  (In r (window_rows df t g) <-> In r (collect df) /\ window_index (columns df) t r = g).
Proof.
  intros Hg. unfold window_rows. rewrite filter_In. split; intros [Hr Hk]; split; trivial.
  - symmetry. now apply group_eqb_eq.
  - rewrite Hk. now apply group_eqb_refl.
Qed.

Lemma In_windows (df : DataFrame) (t : Z) (g : value) :
  In g (windows df t) ->
  exact g /\ exists r, In r (collect df) /\ window_index (columns df) t r = g.
Proof.
  unfold windows. intros H. apply In_distinct in H. apply in_map_iff in H.
  destruct H as [r [<- Hr]]. split; [apply window_index_exact | now exists r].
Qed.

Lemma all_ints (l : list value) :
  (forall v, In v l -> exists z, v = VInt z) -> exists zs, l = map VInt zs.
Proof.
  induction l as [|v l IH]; intros H; [now exists []|].
  destruct (H v (or_introl eq_refl)) as [z ->].
  destruct IH as [zs ->]; [intros w Hw; apply H; now right|]. now exists (z :: zs).
Qed.

Lemma maximum_ints (b : Z) (zs : list Z) :
  maximum (VInt b) (map VInt zs) = VInt (fold_left Z.max zs b).
Proof.
  revert b. induction zs as [|z zs IH]; intros b; [reflexivity|].
  cbn [map maximum fold_left value_leb]. destruct (Z.leb_spec b z).
  - rewrite IH. now rewrite Z.max_r by lia.
  - rewrite IH. now rewrite Z.max_l by lia.
Qed.

Lemma fold_max_spec (zs : list Z) (b : Z) :
  let m := fold_left Z.max zs b in
  In m (b :: zs) /\ forall x, In x (b :: zs) -> x <= m.
Proof.
  revert b. induction zs as [|z zs IH]; intros b; cbn [fold_left].
  - split; [now left|]. intros x [Hx|[]]. lia.
  - destruct (IH (Z.max b z)) as [Hin Hmax]. split.
    + destruct Hin as [Hin|Hin]; [|right; now right].
      rewrite <- Hin. destruct (Z.max_spec b z) as [[_ ->]|[_ ->]]; [right; now left | now left].
    + pose proof (Hmax (Z.max b z) (or_introl eq_refl)) as Hbz.
      intros x [Hx|[Hx|Hx]]; [lia | lia | apply Hmax; now right].
Qed.

(** [max] over a non-empty group of integers is its largest element. *)
Lemma agg_max_ints (zs : list Z) :
  zs <> [] ->
  exists m, agg_max (map VInt zs) = VInt m /\ In m zs /\ forall x, In x zs -> x <= m.
Proof.
  destruct zs as [|z zs]; [congruence|]. intros _.
  exists (fold_left Z.max zs z). unfold agg_max. cbn [map non_null filter].
  assert (Hnn : filter (fun v => match v with VNull => false | _ => true end) (map VInt zs)
                = map VInt zs).
  { apply forallb_filter_id. apply forallb_forall. intros v Hv.
    apply in_map_iff in Hv. now destruct Hv as [x [<- _]]. }
  rewrite Hnn, maximum_ints. split; [reflexivity|]. apply fold_max_spec.
Qed.

Lemma summary_timestep (df : DataFrame) (features : list AggExpr) (t : Z)
                       (label : bool) (g : value) :
  cell (summary df features t label g) 1
  = agg_max (map (fun r => field (columns df) r "timestep") (window_rows df t g)).
Proof. now destruct label. Qed.

Section RetainedTimestep.

Variables (df : DataFrame) (features : list AggExpr) (t : Z) (label : bool).
Hypothesis Hints :
  forall r, In r (collect df) -> exists z, field (columns df) r "timestep" = VInt z.

(** The timestep of a window summary is the largest timestep of the window. *)
Lemma summary_timestep_max (g : value) :
  In g (windows df t) ->
  exists m r0,
    cell (summary df features t label g) 1 = VInt m
    /\ In r0 (collect df) /\ window_index (columns df) t r0 = g
    /\ field (columns df) r0 "timestep" = VInt m
    /\ forall r z, In r (collect df) -> window_index (columns df) t r = g ->
                   field (columns df) r "timestep" = VInt z -> z <= m.
Proof.
  intros Hg. destruct (In_windows _ _ _ Hg) as [Hex [r1 [Hr1 Hk1]]].
  rewrite summary_timestep.
  destruct (all_ints (map (fun r => field (columns df) r "timestep") (window_rows df t g)))
    as [zs Hzs].
  { intros v Hv. apply in_map_iff in Hv. destruct Hv as [r [<- Hr]].
    apply In_window_rows in Hr; [|assumption]. now apply Hints. }
  assert (Hne : zs <> []).
  { intros ->. assert (Hin : In r1 (window_rows df t g)) by (apply In_window_rows; auto).
    apply (in_map (fun r => field (columns df) r "timestep")) in Hin.
    rewrite Hzs in Hin. destruct Hin. }
  destruct (agg_max_ints zs Hne) as (m & Hm & Hin & Hmax).
  assert (Hinv : In (VInt m) (map (fun r => field (columns df) r "timestep")
                                  (window_rows df t g))).
  { rewrite Hzs. now apply in_map. }
  apply in_map_iff in Hinv. destruct Hinv as [r0 [Hr0 Hw0]].
  apply In_window_rows in Hw0; [|assumption]. destruct Hw0 as [Hin0 Hk0].
  exists m, r0. rewrite Hzs. repeat split; trivial.
  intros r z Hr Hk Hz. apply Hmax.
  assert (Hinz : In (VInt z) (map VInt zs)).
  { rewrite <- Hzs, <- Hz.
    apply (in_map (fun r => field (columns df) r "timestep")).
    apply In_window_rows; auto. }
  apply in_map_iff in Hinz. destruct Hinz as [x [Hx Hin']]. now injection Hx as <-.
Qed.

End RetainedTimestep.

(** Whatever [timesteps] is, the rows of the result are in ascending order
    of [timestep], and the [timestep] of each is the largest timestep among
    the input rows of its window (those with its [group_by] value). *)
Theorem approximate_ts_retained_timestep :
  forall (df : DataFrame) (features : list AggExpr) (timesteps : Z) (label : bool)
         (out : DataFrame),
    approximate_ts df features timesteps label = Ok out ->
    (forall r, In r (collect df) -> exists z, field (columns df) r "timestep" = VInt z) ->
    Sorted (ascending (fun o => field (columns out) o "timestep")) (collect out)
    /\ forall o, In o (collect out) ->
         exists m r0,
           field (columns out) o "timestep" = VInt m
           /\ In r0 (collect df)
           /\ window_index (columns df) timesteps r0 = field (columns out) o "group_by"
           /\ field (columns df) r0 "timestep" = VInt m
           /\ forall r z, In r (collect df) ->
                window_index (columns df) timesteps r = field (columns out) o "group_by" ->
                field (columns df) r "timestep" = VInt z -> z <= m.
Proof.
  intros df features t label out Hout Hints. rewrite approximate_ts_spec in Hout.
  destruct (aggregable df features label); [|discriminate]. injection Hout as <-.
  assert (Hts : (fun o : Row => field (columns (approximated df features t label)) o "timestep")
                = (fun o => cell o 1)).
  { unfold field. cbn [approximated columns]. now rewrite index_of_timestep_aggregated. }
  assert (Hrows : collect (approximated df features t label)
                  = sort_by (fun r => cell r 1)
                            (map (summary df features t label) (windows df t))).
  { unfold collect, approximated. cbn [partitions List.concat]. apply app_nil_r. }
  rewrite Hts, Hrows. split.
  - apply sort_by_sorted. apply Forall_forall. intros o Ho.
    apply in_map_iff in Ho. destruct Ho as [g [<- Hg]].
    destruct (summary_timestep_max df features t label Hints g Hg) as (m & _ & Hm & _).
    now exists m.
  - intros o Ho. apply In_sort_by in Ho. apply in_map_iff in Ho.
    destruct Ho as [g [<- Hg]].
    destruct (summary_timestep_max df features t label Hints g Hg)
      as (m & r0 & Hm & Hr0 & Hk0 & Hts0 & Hmax).
    assert (Hgb : field (columns (approximated df features t label))
                        (summary df features t label g) "group_by" = g) by reflexivity.
    exists m, r0. rewrite Hgb. repeat split; trivial.
    exact (eq_trans (f_equal (fun f => f (summary df features t label g)) Hts) Hm).
Qed.

Lemma approximate_ts_retained_timestep_witness :
  exists out, approximate_ts sample_aligned [F_avg "acc_x_L"] (-2) true = Ok out /\
    Sorted (ascending (fun o => field (columns out) o "timestep")) (collect out).
Proof.
  eexists. split; [vm_compute; reflexivity|].
  apply (approximate_ts_retained_timestep sample_aligned [F_avg "acc_x_L"] (-2) true).
  - vm_compute. reflexivity.
  - intros r Hr. simpl in Hr.
    destruct Hr as [<-|[<-|[<-|[<-|[<-|[]]]]]]; eexists; reflexivity.
Defined.

(** *** Windows over the timesteps [0 .. N-1] *)

Lemma Sorted_map_rel {A B : Type} (R : A -> A -> Prop) (R' : B -> B -> Prop)
                     (f : A -> B) (l : list A) :
  (forall x y, In x l -> In y l -> R x y -> R' (f x) (f y)) ->
  Sorted R l -> Sorted R' (map f l).
Proof.
  intros H Hs. induction Hs as [|x l Hs IH Hhd]; simpl; constructor.
  - apply IH. intros a b Ha Hb. apply H; now right.
  - destruct Hhd as [|y l Hxy]; simpl; constructor.
    apply H; [now left | right; now left | assumption].
Qed.

Lemma StronglySorted_le_lt (l : list Z) :
  StronglySorted Z.le l -> NoDup l -> StronglySorted Z.lt l.
Proof.
  induction 1 as [|x l Hs IH Hall]; intros Hnd; constructor;
    inversion Hnd as [|? ? Hnotin Hnd']; subst.
  - now apply IH.
  - rewrite Forall_forall in *. intros y Hy. pose proof (Hall y Hy).
    assert (x <> y) by (intros ->; contradiction). lia.
Qed.

(** A strictly increasing list that holds exactly the integers of
    [[a, b)] lists them in order. *)
Lemma strictly_sorted_interval (l : list Z) (a b : Z) :
  StronglySorted Z.lt l -> (forall x, In x l <-> a <= x < b) ->
  l = map (fun i => a + Z.of_nat i) (seq 0 (Z.to_nat (b - a))).
Proof.
  intros Hs. revert a. induction Hs as [|h l Hs IH Hall]; intros a Hin.
  - destruct (Z_lt_le_dec a b) as [Hab|Hab].
    + destruct (proj2 (Hin a) ltac:(lia)).
    + replace (Z.to_nat (b - a)) with 0%nat by lia. reflexivity.
  - rewrite Forall_forall in Hall.
    assert (Hh : a <= h < b) by (apply Hin; now left).
    assert (Ha : h = a).
    { destruct (proj2 (Hin a) ltac:(lia)) as [E|E]; [assumption|].
      pose proof (Hall a E). lia. }
    subst h.
    replace (Z.to_nat (b - a)) with (S (Z.to_nat (b - (a + 1)))) by lia.
    cbn [seq map]. f_equal; [lia|].
    rewrite <- seq_shift, map_map.
    rewrite (IH (a + 1)).
    + apply map_ext. intros i. lia.
    + intros x. split.
      * intros Hx. pose proof (Hall x Hx). pose proof (proj1 (Hin x) (or_intror Hx)). lia.
      * intros Hx. destruct (proj2 (Hin x) ltac:(lia)) as [E|E]; [lia | assumption].
Qed.

Lemma div_eq_iff (z t k : Z) : 0 < t -> (z / t = k <-> k * t <= z < (k + 1) * t).
Proof.
  intros Ht. pose proof (Z.div_mod z t ltac:(lia)). pose proof (Z.mod_pos_bound z t Ht).
  split; intros H'; [subst k; nia|].
  assert (Hle : k <= z / t) by (apply Z.div_le_lower_bound; nia).
  assert (Hlt : z / t < k + 1) by (apply Z.div_lt_upper_bound; nia).
  lia.
Qed.

Lemma NoDup_map_int_of (l : list value) :
  NoDup l -> (forall v, In v l -> exists k, v = VInt k) -> NoDup (map int_of l).
Proof.
  induction 1 as [|v l Hnotin Hnd IH]; intros Hall; cbn [map]; constructor.
  - rewrite in_map_iff. intros [v' [Hv' Hin']].
    destruct (Hall v (or_introl eq_refl)) as [k ->].
    destruct (Hall v' (or_intror Hin')) as [k' ->].
    cbn [int_of] in Hv'. subst k'. contradiction.
  - apply IH. intros v' Hv'. apply Hall. now right.
Qed.

Section Windows.

Variables (df : DataFrame) (features : list AggExpr) (t : Z) (label : bool) (N : nat).
Hypothesis Hperm : Permutation (timestep_values df) (range_values N).
Hypothesis Ht : 1 <= t.
Hypothesis Hrange : ceil_div (Z.of_nat N) t <= 2 ^ 31.
Hypothesis H53 : Z.of_nat N <= 2 ^ 53.

Let M := Z.to_nat (ceil_div (Z.of_nat N) t).

Lemma windows_row_timestep (r : Row) :
  In r (collect df) -> exists i, field (columns df) r "timestep" = VInt i /\ 0 <= i < Z.of_nat N.
Proof.
  intros Hr. apply In_range_values. eapply Permutation_in; [exact Hperm|].
  unfold timestep_values. now apply (in_map (fun r => field (columns df) r "timestep")).
Qed.

Lemma windows_timestep_row (i : Z) :
  0 <= i < Z.of_nat N -> exists r, In r (collect df) /\ field (columns df) r "timestep" = VInt i.
Proof.
  intros Hi.
  assert (Hin : In (VInt i) (timestep_values df)).
  { eapply Permutation_in; [symmetry; exact Hperm|]. apply In_range_values. now exists i. }
  unfold timestep_values in Hin. apply in_map_iff in Hin.
  destruct Hin as [r [Hr Hin]]. now exists r.
Qed.

Lemma windows_index_quotient (r : Row) (i : Z) :
  In r (collect df) -> field (columns df) r "timestep" = VInt i -> window_index (columns df) t r = VInt (i / t).
Proof.
  intros Hr Hi. destruct (windows_row_timestep r Hr) as [i' [Hi' Hb]].
  rewrite Hi in Hi'. injection Hi' as <-.
  rewrite (window_index_timestep (columns df) r i t Hi) by lia. f_equal.
  assert (i / t <= (Z.of_nat N - 1) / t) by (apply Z.div_le_mono; lia).
  rewrite ceil_div_pred in Hrange by lia.
  unfold int_max. rewrite two_pow_31 in *. lia.
Qed.

(** The windows are the integers below [ceil (N / timesteps)]. *)
Lemma windows_members (g : value) :
  In g (windows df t) <-> exists k, g = VInt k /\ 0 <= k < Z.of_nat M.
Proof.
  unfold M. split.
  - intros Hg. destruct (In_windows _ _ _ Hg) as [_ [r [Hr Hk]]].
    destruct (windows_row_timestep r Hr) as [i [Hi Hb]].
    rewrite (windows_index_quotient r i Hr Hi) in Hk. exists (i / t). split; [now symmetry|].
    assert (0 <= i / t) by (apply Z.div_pos; lia).
    assert (i / t <= (Z.of_nat N - 1) / t) by (apply Z.div_le_mono; lia).
    rewrite ceil_div_pred by lia. lia.
  - intros [k [-> Hk]].
    assert (HN : 1 <= Z.of_nat N).
    { destruct N; [|lia]. rewrite ceil_div_0 in Hk by lia. simpl in Hk. lia. }
    rewrite ceil_div_pred in Hk by lia.
    assert (Hq : 0 <= (Z.of_nat N - 1) / t) by (apply Z.div_pos; lia).
    assert (Hkt : k * t <= Z.of_nat N - 1).
    { pose proof (Z.mul_div_le (Z.of_nat N - 1) t ltac:(lia)). nia. }
    destruct (windows_timestep_row (k * t) ltac:(nia)) as [r [Hr Hi]].
    unfold windows. apply distinct_complete.
    + apply Forall_forall. intros v Hv. apply in_map_iff in Hv.
      destruct Hv as [r' [<- _]]. apply window_index_exact.
    + apply in_map_iff. exists r. split; [|assumption].
      rewrite (windows_index_quotient r (k * t) Hr Hi).
      now rewrite Z.div_mul by lia.
Qed.

(** The summary of window [k] carries the last timestep of the window. *)
Lemma windows_summary_end (k : Z) :
  0 <= k < Z.of_nat M ->
  cell (summary df features t label (VInt k)) 1 = VInt (window_end t (Z.of_nat N) k).
Proof.
  intros Hk.
  assert (Hg : In (VInt k) (windows df t)) by (apply windows_members; now exists k).
  assert (Hints : forall r, In r (collect df) ->
                            exists z, field (columns df) r "timestep" = VInt z).
  { intros r Hr. destruct (windows_row_timestep r Hr) as [i [Hi _]]. now exists i. }
  destruct (summary_timestep_max df features t label Hints (VInt k) Hg)
    as (m & r0 & Hm & Hr0 & Hk0 & Hts0 & Hmax).
  rewrite Hm. f_equal. unfold window_end.
  destruct (windows_row_timestep r0 Hr0) as [i [Hi Hb]].
  rewrite Hts0 in Hi. injection Hi as <-.
  rewrite (windows_index_quotient r0 m Hr0 Hts0) in Hk0.
  injection Hk0 as Hq. apply div_eq_iff in Hq; [|lia].
  set (c := Z.min ((k + 1) * t) (Z.of_nat N) - 1).
  assert (Hc : 0 <= c < Z.of_nat N) by (unfold c; nia).
  destruct (windows_timestep_row c Hc) as [rc [Hrc Htc]].
  assert (Hkc : window_index (columns df) t rc = VInt k).
  { rewrite (windows_index_quotient rc c Hrc Htc). f_equal.
    apply div_eq_iff; [lia|]. unfold c. nia. }
  pose proof (Hmax rc c Hrc Hkc Htc). unfold c in *. lia.
Qed.

Lemma window_end_increasing (k k' : Z) :
  0 <= k -> k < k' -> k' < Z.of_nat M ->
  window_end t (Z.of_nat N) k < window_end t (Z.of_nat N) k'.
Proof.
  unfold M, window_end. intros Hk Hlt Hk'.
  assert (HN : 1 <= Z.of_nat N).
  { destruct N; [|lia]. rewrite ceil_div_0 in Hk' by lia. simpl in Hk'. lia. }
  rewrite ceil_div_pred in Hk' by lia.
  assert (Hq : 0 <= (Z.of_nat N - 1) / t) by (apply Z.div_pos; lia).
  assert (Hkt : k' * t <= Z.of_nat N - 1).
  { pose proof (Z.mul_div_le (Z.of_nat N - 1) t ltac:(lia)). nia. }
  nia.
Qed.

Let out_rows : list Row :=
  sort_by (fun r => cell r 1) (map (summary df features t label) (windows df t)).

Lemma windows_out_row (o : Row) :
  In o out_rows ->
  exists k, 0 <= k < Z.of_nat M /\ cell o 0 = VInt k
            /\ cell o 1 = VInt (window_end t (Z.of_nat N) k).
Proof.
  unfold out_rows. intros Ho. apply In_sort_by in Ho. apply in_map_iff in Ho.
  destruct Ho as [g [<- Hg]]. apply windows_members in Hg. destruct Hg as [k [-> Hk]].
  exists k. split; [assumption|]. split; [reflexivity|]. now apply windows_summary_end.
Qed.

Lemma windows_out_sorted : Sorted (ascending (fun r => cell r 1)) out_rows.
Proof.
  unfold out_rows. apply sort_by_sorted. apply Forall_forall. intros o Ho.
  assert (Hin : In o out_rows) by (unfold out_rows; now apply In_sort_by).
  destruct (windows_out_row o Hin) as (k & _ & _ & Hend). eexists. exact Hend.
Qed.

(** The [group_by] cells of the result are [0, 1, ..., M-1], in this order. *)
Lemma windows_out_indices : map (fun o => int_of (cell o 0)) out_rows = upto M.
Proof.
  assert (Hsorted : StronglySorted Z.lt (map (fun o => int_of (cell o 0)) out_rows)).
  { apply StronglySorted_le_lt.
    - apply Sorted_StronglySorted; [intros x y z; apply Z.le_trans|].
      apply (Sorted_map_rel (ascending (fun r => cell r 1))); [|apply windows_out_sorted].
      intros o o' Ho Ho' Hasc.
      destruct (windows_out_row o Ho) as (k & Hk & Hg & He).
      destruct (windows_out_row o' Ho') as (k' & Hk' & Hg' & He').
      unfold ascending in Hasc. rewrite He, He' in Hasc. cbn [value_leb] in Hasc.
      apply Z.leb_le in Hasc. rewrite Hg, Hg'. cbn [int_of].
      destruct (Z_le_gt_dec k k') as [|Hgt]; [assumption|].
      pose proof (window_end_increasing k' k ltac:(lia) ltac:(lia) ltac:(lia)). lia.
    - unfold out_rows.
      apply (Permutation_NoDup
               (l := map (fun o => int_of (cell o 0))
                         (map (summary df features t label) (windows df t)))).
      + apply Permutation_map. apply Permutation_sort_by.
      + rewrite map_map. cbn [summary cell nth]. apply NoDup_map_int_of.
        * unfold windows. apply NoDup_distinct. apply Forall_forall. intros v Hv.
          apply in_map_iff in Hv. destruct Hv as [r [<- _]]. apply window_index_exact.
        * intros v Hv. apply windows_members in Hv. destruct Hv as [k [-> _]]. now exists k. }
  rewrite (strictly_sorted_interval _ 0 (Z.of_nat M) Hsorted).
  - unfold upto. rewrite Z.sub_0_r, Nat2Z.id. apply map_ext. intros i. lia.
  - intros x. rewrite in_map_iff. split.
    + intros [o [<- Ho]]. destruct (windows_out_row o Ho) as (k & Hk & -> & _). exact Hk.
    + intros Hx. exists (summary df features t label (VInt x)). split; [reflexivity|].
      unfold out_rows. apply In_sort_by. apply in_map. apply windows_members. now exists x.
Qed.

Lemma windows_out_ends :
  map (fun o => int_of (cell o 1)) out_rows = map (window_end t (Z.of_nat N)) (upto M).
Proof.
  rewrite <- windows_out_indices, map_map. apply map_ext_in. intros o Ho.
  destruct (windows_out_row o Ho) as (k & _ & -> & ->). reflexivity.
Qed.

End Windows.

(** On a table with the timesteps [0 .. N-1], [N <= 2^53], in any order, and
    within the 32-bit range of the window index, the rows of the result are
    the windows
    [0, 1, ..., ceil (N / timesteps) - 1] in this order: row [k] has
    [group_by = k] and [timestep = min ((k + 1) * timesteps, N) - 1], the
    last timestep of the window. *)
Theorem approximate_ts_windows :
  forall (df : DataFrame) (features : list AggExpr) (timesteps : Z) (label : bool)
         (N : nat) (out : DataFrame),
    approximate_ts df features timesteps label = Ok out ->
    Permutation (timestep_values df) (range_values N) ->
    1 <= timesteps ->
    ceil_div (Z.of_nat N) timesteps <= 2 ^ 31 ->
    Z.of_nat N <= 2 ^ 53 ->
    map (fun o => field (columns out) o "group_by") (collect out)
      = map VInt (upto (Z.to_nat (ceil_div (Z.of_nat N) timesteps)))
    /\ map (fun o => field (columns out) o "timestep") (collect out)
      = map (fun k => VInt (window_end timesteps (Z.of_nat N) k))
            (upto (Z.to_nat (ceil_div (Z.of_nat N) timesteps))).
Proof.
  intros df features t label N out Hout Hperm Ht Hrange H53.
  rewrite approximate_ts_spec in Hout.
  destruct (aggregable df features label); [|discriminate]. injection Hout as <-.
  assert (Hrows : collect (approximated df features t label)
                  = sort_by (fun r => cell r 1)
                            (map (summary df features t label) (windows df t))).
  { unfold collect, approximated. cbn [partitions List.concat]. apply app_nil_r. }
  assert (Hcells : forall o, In o (collect (approximated df features t label)) ->
            field (columns (approximated df features t label)) o "group_by"
              = VInt (int_of (cell o 0))
            /\ field (columns (approximated df features t label)) o "timestep"
              = VInt (int_of (cell o 1))).
  { intros o Ho. rewrite Hrows in Ho.
    destruct (windows_out_row df features t label N Hperm Ht Hrange H53 o Ho)
      as (k & _ & Hg & He).
    unfold field. cbn [approximated columns]. rewrite index_of_timestep_aggregated.
    cbn [index_of String.eqb Ascii.eqb Bool.eqb]. now rewrite Hg, He. }
  split.
  - rewrite <- (windows_out_indices df features t label N Hperm Ht Hrange H53), <- Hrows, map_map.
    apply map_ext_in. intros o Ho. apply (Hcells o Ho).
  - rewrite <- (map_map (window_end t (Z.of_nat N)) VInt).
    rewrite <- (windows_out_ends df features t label N Hperm Ht Hrange H53), <- Hrows, map_map.
    apply map_ext_in. intros o Ho. apply (Hcells o Ho).
Qed.

Lemma approximate_ts_windows_witness :
  exists out, approximate_ts sample_aligned [F_avg "acc_x_L"] 2 true = Ok out /\
    map (fun o => field (columns out) o "group_by") (collect out)
      = map VInt (upto (Z.to_nat (ceil_div (Z.of_nat 5) 2)))
    /\ map (fun o => field (columns out) o "timestep") (collect out)
      = map (fun k => VInt (window_end 2 (Z.of_nat 5) k))
            (upto (Z.to_nat (ceil_div (Z.of_nat 5) 2))).
Proof.
  eexists. split; [vm_compute; reflexivity|].
  apply (approximate_ts_windows sample_aligned [F_avg "acc_x_L"] 2 true 5).
  - vm_compute. reflexivity.
  - reflexivity.
  - lia.
  - vm_compute. discriminate.
  - vm_compute. discriminate.
Defined.

(** ** Windowed approximation: size of the result *)

Lemma length_distinct (l : list value) : (List.length (distinct l) <= List.length l)%nat.
Proof.
  induction l as [|k l IH]; simpl; [lia|].
  pose proof (filter_length_le (fun k' => negb (group_eqb k k')) (distinct l)). lia.
Qed.

(** The approximation never has more rows than the table it is given, and
    it is empty exactly when that table is. *)
Theorem approximate_ts_never_grows :
  forall (df : DataFrame) (features : list AggExpr) (timesteps : Z) (label : bool)
         (out : DataFrame),
    approximate_ts df features timesteps label = Ok out ->
    (count out <= count df)%nat /\ (count out = 0%nat <-> count df = 0%nat).
Proof.
  intros df features t label out Hout. rewrite approximate_ts_spec in Hout.
  destruct (aggregable df features label); [|discriminate]. injection Hout as <-.
  rewrite count_approximated. unfold windows, count.
  pose proof (length_distinct (map (window_index (columns df) t) (collect df))) as Hle.
  rewrite length_map in Hle. split; [exact Hle|].
  destruct (collect df) as [|r rs]; simpl; [tauto|]. split; discriminate.
Qed.

Lemma approximate_ts_never_grows_witness :
  exists out, approximate_ts sample_aligned [F_avg "acc_x_L"] 2 true = Ok out /\
    (count out <= count sample_aligned)%nat /\
    (count out = 0%nat <-> count sample_aligned = 0%nat).
Proof.
  eexists. split; [vm_compute; reflexivity|].
  apply (approximate_ts_never_grows sample_aligned [F_avg "acc_x_L"] 2 true).
  vm_compute. reflexivity.
Defined.

(** ** Alignment and merge: outcome and kept rows *)

(** [dataset_preparation] returns a table exactly when the session reads the
    three files of the run and the tables have the needed columns.  What it
    raises is the error of the first file that cannot be read (left, right,
    labels) or, once the three are read, the analysis error of a missing or
    ambiguous column. *)
Theorem dataset_preparation_outcome :
  forall (name : string) (spark_session : SparkSession) (data_path : string),
    ((exists out, dataset_preparation name spark_session data_path = Ok out) <->
     (exists L R Lb, reads spark_session data_path name L R Lb
                     /\ preparable L R Lb = true))
    /\ (forall e, dataset_preparation name spark_session data_path = Raise e ->
          spark_session (run_file data_path name "dataset_gps_mpu_left.csv") = Raise e
          \/ (exists L,
                spark_session (run_file data_path name "dataset_gps_mpu_left.csv") = Ok L
                /\ spark_session (run_file data_path name "dataset_gps_mpu_right.csv")
                   = Raise e)
          \/ (exists L R,
                spark_session (run_file data_path name "dataset_gps_mpu_left.csv") = Ok L
                /\ spark_session (run_file data_path name "dataset_gps_mpu_right.csv") = Ok R
                /\ spark_session (run_file data_path name "dataset_labels.csv") = Raise e)
          \/ (e = AnalysisException
              /\ exists L R Lb, reads spark_session data_path name L R Lb
                                /\ preparable L R Lb = false)).
Proof.
  intros name sess path.
  destruct (sess (run_file path name "dataset_gps_mpu_left.csv")) as [L|eL] eqn:HL.
  2:{ assert (H : dataset_preparation name sess path = Raise eL)
        by (unfold dataset_preparation; now rewrite HL).
      split; [split|].
      - intros [out Hout]. congruence.
      - intros (L & R & Lb & (HL' & _) & _). congruence.
      - intros e He. left. congruence. }
  destruct (sess (run_file path name "dataset_gps_mpu_right.csv")) as [R|eR] eqn:HR.
  2:{ assert (H : dataset_preparation name sess path = Raise eR)
        by (unfold dataset_preparation; rewrite HL; cbn [bind]; now rewrite HR).
      split; [split|].
      - intros [out Hout]. congruence.
      - intros (L' & R & Lb & (_ & HR' & _) & _). congruence.
      - intros e He. right. left. exists L. split; congruence. }
  destruct (sess (run_file path name "dataset_labels.csv")) as [Lb|eLb] eqn:HLb.
  2:{ assert (H : dataset_preparation name sess path = Raise eLb)
        by (unfold dataset_preparation; rewrite HL; cbn [bind]; rewrite HR; cbn [bind];
            now rewrite HLb).
      split; [split|].
      - intros [out Hout]. congruence.
      - intros (L' & R' & Lb & (_ & _ & HLb') & _). congruence.
      - intros e He. right. right. left. exists L, R. repeat split; congruence. }
  assert (Hreads : reads sess path name L R Lb) by (repeat split; assumption).
  rewrite (dataset_preparation_spec name sess path L R Lb Hreads).
  destruct (preparable L R Lb) eqn:Hp; (split; [split|]).
  - intros _. now exists L, R, Lb.
  - intros _. now eexists.
  - intros e He. discriminate.
  - intros [out Hout]. discriminate.
  - intros (L' & R' & Lb' & (HL' & HR' & HLb') & Hp').
    assert (L' = L) by congruence. assert (R' = R) by congruence.
    assert (Lb' = Lb) by congruence. subst. congruence.
  - intros e He. injection He as <-. right. right. right.
    split; [reflexivity|]. now exists L, R, Lb.
Qed.

(** *** Rows of a left join *)

Lemma collect_joined (left right : DataFrame) (on : list string) :
  collect (joined left right on) = flat_map (join_rows left right on) (collect left).
Proof.
  unfold joined, collect at 1. cbn [partitions List.concat]. apply app_nil_r.
Qed.

Lemma join_rows_nonempty (left right : DataFrame) (on : list string) (l : Row) :
  (1 <= List.length (join_rows left right on l))%nat.
Proof.
  unfold join_rows. destruct (filter _ (collect right)) as [|m ms]; simpl; lia.
Qed.

Lemma count_joined_ge (left right : DataFrame) (on : list string) :
  (count left <= count (joined left right on))%nat.
Proof.
  unfold count. rewrite collect_joined.
  induction (collect left) as [|l ls IH]; simpl; [lia|].
  rewrite length_app. pose proof (join_rows_nonempty left right on l). lia.
Qed.

(** Every left row has a row in the join, with its first key in front. *)
Lemma joined_covers (left right : DataFrame) (k : string) (on : list string) (l : Row) :
  In l (collect left) ->
  exists r, In r (collect (joined left right (k :: on)))
            /\ cell r 0 = cell l (position (columns left) k).
Proof.
  intros Hl. rewrite collect_joined.
  pose proof (join_rows_nonempty left right (k :: on) l) as Hne.
  destruct (join_rows left right (k :: on) l) as [|r rs] eqn:E; [simpl in Hne; lia|].
  exists r. split.
  - apply in_flat_map. exists l. split; [assumption|]. rewrite E. now left.
  - unfold join_rows in E. destruct (filter _ (collect right)) as [|m ms].
    + injection E as <- _. reflexivity.
    + simpl in E. injection E as <- _. reflexivity.
Qed.

Section KeptRows.

Variables L R Lb : DataFrame.
Hypothesis Hprep : preparable L R Lb = true.

Let sensors : DataFrame :=
  joined (renamed "_L" (with_timestep L)) (renamed "_R" (with_timestep R)) shared_columns.

Let merged : DataFrame := joined sensors (labelled (with_timestep Lb)) ["timestep"].

Lemma count_prepared_ge : (count L <= count (prepared L R Lb))%nat.
Proof.
  unfold prepared. rewrite count_drop, count_ordered.
  fold sensors. fold merged.
  pose proof (count_joined_ge sensors (labelled (with_timestep Lb)) ["timestep"]) as H1.
  pose proof (count_joined_ge (renamed "_L" (with_timestep L))
                (renamed "_R" (with_timestep R)) shared_columns) as H2.
  fold sensors in H2. fold merged in H1.
  pose proof (count_with_timestep L) as H3.
  change (count (renamed "_L" (with_timestep L))) with (count (with_timestep L)) in H2.
  lia.
Qed.

Lemma merged_covers (z : Z) :
  In z (assigned_ids L) -> exists r, In r (collect merged) /\ cell r 0 = VInt z.
Proof.
  destruct (preparable_timestep _ _ _ Hprep) as [HtsL _].
  destruct (preparable_sensors _ _ _ Hprep) as [HsL HsR].
  intros Hz.
  pose proof (timestep_cells_renamed "_L" L distinguishing_L HtsL) as Hkeys.
  assert (Hin : In (VInt z) (map VInt (assigned_ids L))) by now apply in_map.
  rewrite <- Hkeys in Hin. apply in_map_iff in Hin. destruct Hin as [l [Hl Hin]].
  destruct (joined_covers _ (renamed "_R" (with_timestep R)) "timestep"
              ["latitude"; "longitude"; "speed"] l Hin) as [s [Hs Hs0]].
  destruct (joined_covers _ (labelled (with_timestep Lb)) "timestep" [] s Hs)
    as [r [Hr Hr0]].
  exists r. split; [exact Hr|].
  change ["timestep"; "latitude"; "longitude"; "speed"] with shared_columns in *.
  unfold position at 1 in Hr0. rewrite (timestep_first_sensors L R HsL) in Hr0.
  rewrite Hr0. etransitivity; [exact Hs0 | exact Hl].
Qed.

Lemma prepared_covers (z : Z) :
  In z (assigned_ids L) ->
  exists o, In o (collect (prepared L R Lb))
            /\ field (columns (prepared L R Lb)) o "timestep" = VInt z.
Proof.
  intros Hz. destruct (merged_covers z Hz) as [r [Hr Hr0]].
  exists (project (others raw_timestamps (columns merged)) r). split.
  - rewrite (collect_prepared L R Lb Hprep). apply in_map. now apply In_sort_by.
  - rewrite (timestep_prepared L R Lb Hprep), (first_kept L R Lb Hprep). exact Hr0.
Qed.

End KeptRows.

(** No row of the left sensor table is lost, whatever the right and label
    tables hold: the result has at least as many rows as the left table, and
    every timestep given to a left row is the [timestep] of a row of the
    result. *)
Theorem dataset_preparation_keeps_left_rows :
  forall (name : string) (spark_session : SparkSession) (data_path : string)
         (L R Lb : DataFrame),
    reads spark_session data_path name L R Lb ->
    preparable L R Lb = true ->
    exists out, dataset_preparation name spark_session data_path = Ok out /\
      (count L <= count out)%nat /\
      (forall z, In z (assigned_ids L) ->
                 exists o, In o (collect out) /\ field (columns out) o "timestep" = VInt z).
Proof.
  intros name spark_session data_path L R Lb Hreads Hprep.
  rewrite (dataset_preparation_spec _ _ _ L R Lb Hreads), Hprep.
  eexists. split; [reflexivity|]. split.
  - apply count_prepared_ge.
  - now apply prepared_covers.
Qed.

Lemma dataset_preparation_keeps_left_rows_witness :
  exists out, dataset_preparation "PVS 1" sample_session "data" = Ok out /\
    (count sample_left <= count out)%nat /\
    (forall z, In z (assigned_ids sample_left) ->
               exists o, In o (collect out) /\ field (columns out) o "timestep" = VInt z).
Proof.
  apply (dataset_preparation_keeps_left_rows "PVS 1" sample_session "data"
           sample_left sample_right sample_labels).
  - repeat split.
  - reflexivity.
Defined.

(** ** Alignment and merge: the timesteps and the order of the rows *)

(** *** Identifiers of [monotonically_increasing_id] *)

Lemma row_id_small (p j : nat) :
  Z.of_nat p < 2 ^ 30 -> Z.of_nat j < 2 ^ 33 ->
  row_id p j = Z.of_nat p * 2 ^ 33 + Z.of_nat j.
Proof.
  intros Hp Hj. unfold row_id, wrap64. rewrite Z.shiftl_mul_pow2 by lia.
  change (2 ^ 30) with 1073741824 in Hp.
  change (2 ^ 33) with 8589934592 in *.
  change (2 ^ 63) with 9223372036854775808.
  change (2 ^ 64) with 18446744073709551616.
  rewrite Z.mod_small; lia.
Qed.

Lemma mapi_from_seq {A B : Type} (f : nat -> B) (l : list A) (s : nat) :
  mapi_from s (fun j _ => f j) l = map f (seq s (List.length l)).
Proof.
  revert s. induction l as [|x l IH]; simpl; intros s; [reflexivity|]. now rewrite IH.
Qed.

Lemma StronglySorted_map_seq (f : nat -> Z) (n s : nat) :
  (forall a b, (s <= a < b)%nat -> (b < s + n)%nat -> f a < f b) ->
  StronglySorted Z.lt (map f (seq s n)).
Proof.
  revert s. induction n as [|n IH]; intros s H; simpl; constructor.
  - apply IH. intros a b Hab Hb. apply H; lia.
  - apply Forall_forall. intros z Hz. apply in_map_iff in Hz.
    destruct Hz as [b [<- Hb]]. apply in_seq in Hb. apply H; lia.
Qed.

Lemma StronglySorted_append (l1 l2 : list Z) :
  StronglySorted Z.lt l1 -> StronglySorted Z.lt l2 ->
  (forall x y, In x l1 -> In y l2 -> x < y) ->
  StronglySorted Z.lt (l1 ++ l2).
Proof.
  induction 1 as [|x l1 Hs IH Hx]; intros H2 Hlt; simpl; [assumption|].
  constructor.
  - apply IH; [assumption|]. intros a b Ha Hb. apply Hlt; [now right | assumption].
  - apply Forall_app. split; [assumption|].
    apply Forall_forall. intros y Hy. apply Hlt; [now left | assumption].
Qed.

Lemma StronglySorted_lt_NoDup (l : list Z) : StronglySorted Z.lt l -> NoDup l.
Proof.
  induction 1 as [|x l Hs IH Hx]; constructor; [|assumption].
  intros Hin. apply (proj1 (Forall_forall _ _) Hx) in Hin. lia.
Qed.

(** Within the documented sizes the identifiers grow along the partitions
    and along the records of a partition. *)
Lemma ids_from_sorted (parts : list (list Row)) (i : nat) :
  Z.of_nat (i + List.length parts) <= 2 ^ 30 ->
  Forall (fun part : list Row => Z.of_nat (List.length part) <= 2 ^ 33) parts ->
  StronglySorted Z.lt
    (List.concat (mapi_from i (fun p part => mapi_from 0 (fun j (_ : Row) => row_id p j) part)
                            parts))
  /\ forall z,
       In z (List.concat
               (mapi_from i (fun p part => mapi_from 0 (fun j (_ : Row) => row_id p j) part)
                          parts)) ->
       Z.of_nat i * 2 ^ 33 <= z.
Proof.
  revert i. induction parts as [|part parts IH]; intros i Hi Hparts.
  - simpl. split; [constructor | intros z []].
  - inversion Hparts as [|? ? Hpart Hparts']; subst.
    cbn [mapi_from List.concat List.length] in *.
    destruct (IH (S i)) as [IHs IHlo]; [lia | assumption |].
    rewrite (mapi_from_seq (row_id i)).
    assert (Hhead : forall z, In z (map (row_id i) (seq 0 (List.length part))) ->
                      Z.of_nat i * 2 ^ 33 <= z < Z.of_nat (S i) * 2 ^ 33).
    { intros z Hz. apply in_map_iff in Hz. destruct Hz as [j [<- Hj]].
      apply in_seq in Hj. rewrite row_id_small by lia. lia. }
    split.
    + apply StronglySorted_append; [|assumption|].
      * apply StronglySorted_map_seq. intros a b Hab Hb.
        rewrite !row_id_small by lia. lia.
      * intros x y Hx Hy. apply Hhead in Hx. apply IHlo in Hy. lia.
    + intros z Hz. apply in_app_iff in Hz. destruct Hz as [Hz|Hz].
      * apply Hhead in Hz. lia.
      * apply IHlo in Hz. lia.
Qed.

Lemma assigned_ids_sorted (df : DataFrame) :
  within_id_limits df -> StronglySorted Z.lt (assigned_ids df).
Proof.
  intros [Hn Hparts]. unfold assigned_ids, mapi.
  now apply (ids_from_sorted (partitions df) 0).
Qed.

Lemma assigned_ids_NoDup (df : DataFrame) : within_id_limits df -> NoDup (assigned_ids df).
Proof. intros H. now apply StronglySorted_lt_NoDup, assigned_ids_sorted. Qed.

Lemma one_partition_limits (df : DataFrame) : one_partition df -> within_id_limits df.
Proof.
  intros [rows [Hp Hn]]. unfold within_id_limits. rewrite Hp. split.
  - change (2 ^ 30) with 1073741824. simpl. lia.
  - now repeat constructor.
Qed.

(** In one partition the identifiers are the record numbers. *)
Lemma assigned_ids_one_partition (df : DataFrame) :
  one_partition df -> map VInt (assigned_ids df) = range_values (count df).
Proof.
  intros [rows [Hp Hn]]. unfold assigned_ids, count, collect, mapi. rewrite Hp.
  cbn [mapi_from List.concat]. rewrite !app_nil_r.
  rewrite (mapi_from_seq (row_id 0)). unfold range_values. rewrite map_map.
  apply map_ext_in. intros j Hj. apply in_seq in Hj.
  rewrite row_id_small; [f_equal; lia | change (2 ^ 30) with 1073741824; lia | lia].
Qed.

(** *** Order of the merged rows *)

Lemma sort_by_ordered (key : Row -> value) (l : list Row) :
  Sorted (ascending key) l -> sort_by key l = l.
Proof.
  induction 1 as [|x l Hs IH Hhd]; simpl; [reflexivity|].
  rewrite IH. destruct Hhd as [|y l' Hxy]; simpl; [reflexivity|].
  unfold ascending in Hxy. now rewrite Hxy.
Qed.

Lemma Sorted_int_keys (key : Row -> value) (l : list Row) (zs : list Z) :
  map key l = map VInt zs -> StronglySorted Z.lt zs -> Sorted (ascending key) l.
Proof.
  revert zs. induction l as [|x l IH]; intros zs Hkeys Hs; [constructor|].
  destruct zs as [|z zs]; [discriminate|]. simpl in Hkeys.
  injection Hkeys as Hx Hl. inversion Hs as [|? ? Hs' Hz]; subst.
  constructor; [now apply (IH zs)|].
  destruct l as [|y l]; [constructor|]. destruct zs as [|z' zs]; [discriminate|].
  simpl in Hl. injection Hl as Hy _. constructor. unfold ascending.
  rewrite Hx, Hy. simpl. apply Z.leb_le.
  inversion Hz; subst. lia.
Qed.

(** With integer keys on the left that are unique on the right, the rows of
    a left join follow the left rows one to one. *)
Lemma first_cells_joined_unique (left right : DataFrame) (k : string) (on : list string)
                                (zs : list Z) :
  (forall l, In l (collect left) -> exists a, cell l (position (columns left) k) = VInt a) ->
  map (fun r => cell r (position (columns right) k)) (collect right) = map VInt zs ->
  NoDup zs ->
  map (fun r => cell r 0) (collect (joined left right (k :: on)))
  = map (fun l => cell l (position (columns left) k)) (collect left).
Proof.
  intros Hleft Hkeys Hnd. rewrite collect_joined.
  induction (collect left) as [|l ls IH]; [reflexivity|].
  cbn [flat_map map]. rewrite map_app, IH by (intros l' Hl'; apply Hleft; now right). clear IH.
  destruct (Hleft l (or_introl eq_refl)) as [a Ha].
  assert (Hone : (List.length (filter (fun r => keys_match
                                  (project (positions (columns left) (k :: on)) l)
                                  (project (positions (columns right) (k :: on)) r))
                                (collect right)) <= 1)%nat).
  { apply (at_most_one_match _ _ zs a _ Hkeys Hnd).
    intros r Hr. cbn [positions map project keys_match] in Hr.
    rewrite Ha in Hr. now apply andb_true_iff in Hr. }
  unfold join_rows.
  destruct (filter _ (collect right)) as [|m ms]; [reflexivity|].
  destruct ms as [|m' ms]; [reflexivity | simpl in Hone; lia].
Qed.

Section RowOrder.

Variables L R Lb : DataFrame.
Hypothesis Hprep : preparable L R Lb = true.
Hypothesis HR : NoDup (assigned_ids R).
Hypothesis HLb : NoDup (assigned_ids Lb).

Let sensors : DataFrame :=
  joined (renamed "_L" (with_timestep L)) (renamed "_R" (with_timestep R)) shared_columns.

Let merged : DataFrame := joined sensors (labelled (with_timestep Lb)) ["timestep"].

Lemma first_cells_merged :
  map (fun r => cell r 0) (collect merged) = map VInt (assigned_ids L).
Proof.
  destruct (preparable_timestep _ _ _ Hprep) as [HtsL HtsR].
  destruct (preparable_sensors _ _ _ Hprep) as [HsL HsR].
  pose proof (timestep_cells_renamed "_L" L distinguishing_L HtsL) as HkL.
  pose proof (timestep_cells_renamed "_R" R distinguishing_R HtsR) as HkR.
  assert (Hsensors : map (fun r => cell r 0) (collect sensors) = map VInt (assigned_ids L)).
  { unfold sensors, shared_columns.
    rewrite (first_cells_joined_unique _ _ "timestep" _ (assigned_ids R)); trivial.
    intros l Hl.
    exact (integer_cells
             (fun r => cell r (position (columns (renamed "_L" (with_timestep L))) "timestep"))
             (collect (renamed "_L" (with_timestep L))) (assigned_ids L) l HkL Hl). }
  assert (Hpos : position (columns sensors) "timestep" = 0%nat).
  { unfold position, sensors. now rewrite (timestep_first_sensors L R HsL). }
  unfold merged.
  rewrite (first_cells_joined_unique sensors _ "timestep" [] (assigned_ids Lb)); trivial.
  - now rewrite Hpos.
  - intros s Hs. rewrite Hpos.
    exact (integer_cells (fun r => cell r 0) (collect sensors) (assigned_ids L) s Hsensors Hs).
  - apply timestep_cells_labelled.
Qed.

Lemma timestep_values_prepared :
  StronglySorted Z.lt (assigned_ids L) ->
  timestep_values (prepared L R Lb) = map VInt (assigned_ids L).
Proof.
  intros Hs. unfold timestep_values. rewrite (collect_prepared L R Lb Hprep).
  fold sensors. fold merged.
  rewrite (sort_by_ordered _ (collect merged))
    by (apply (Sorted_int_keys _ _ (assigned_ids L)); [apply first_cells_merged | exact Hs]).
  rewrite map_map. rewrite <- first_cells_merged. apply map_ext. intros r.
  rewrite (timestep_prepared L R Lb Hprep). apply (first_kept L R Lb Hprep).
Qed.

End RowOrder.

(** Within the sizes [monotonically_increasing_id] is documented for, the
    rows of the result follow the rows of the left sensor table one to one
    and in the same order: the [timestep] column is the list of the
    timesteps given to the left rows, which grows strictly. *)
Theorem dataset_preparation_row_order :
  forall (name : string) (spark_session : SparkSession) (data_path : string)
         (L R Lb : DataFrame),
    reads spark_session data_path name L R Lb ->
    preparable L R Lb = true ->
    within_id_limits L -> within_id_limits R -> within_id_limits Lb ->
    exists out, dataset_preparation name spark_session data_path = Ok out /\
      timestep_values out = map VInt (assigned_ids L) /\
      StronglySorted Z.lt (assigned_ids L) /\
      count out = count L.
Proof.
  intros name spark_session data_path L R Lb Hreads Hprep HL HR HLb.
  rewrite (dataset_preparation_spec _ _ _ L R Lb Hreads), Hprep.
  eexists. split; [reflexivity|].
  pose proof (assigned_ids_sorted L HL) as Hs.
  pose proof (assigned_ids_NoDup R HR) as HndR.
  pose proof (assigned_ids_NoDup Lb HLb) as HndLb.
  split; [|split].
  - now apply timestep_values_prepared.
  - exact Hs.
  - now apply count_prepared.
Qed.

Lemma dataset_preparation_row_order_witness :
  exists out, dataset_preparation "PVS 1" sample_session "data" = Ok out /\
    timestep_values out = map VInt (assigned_ids sample_left) /\
    StronglySorted Z.lt (assigned_ids sample_left) /\
    count out = count sample_left.
Proof.
  apply (dataset_preparation_row_order "PVS 1" sample_session "data"
           sample_left sample_right sample_labels).
  - repeat split.
  - reflexivity.
  - split; [vm_compute; discriminate | repeat constructor; vm_compute; discriminate].
  - split; [vm_compute; discriminate | repeat constructor; vm_compute; discriminate].
  - split; [vm_compute; discriminate | repeat constructor; vm_compute; discriminate].
Defined.

(** ** From [dataset_preparation] to [approximate_ts] *)

Lemma not_suffixed (s sfx c : string) :
  sfx <> EmptyString -> last_char (lower s) <> last_char (lower sfx) ->
  same_name s (c ++ sfx) = false.
Proof.
  intros Hs Hl. destruct (same_name s (c ++ sfx)) eqn:E; [|reflexivity].
  apply same_name_eq in E. exfalso. apply Hl. rewrite E, lower_append.
  apply last_char_append. now destruct sfx.
Qed.

Lemma occurrences_none (s : string) (cols : list string) :
  (forall c, In c cols -> same_name s c = false) -> occurrences s cols = 0%nat.
Proof. intros H. unfold occurrences. now rewrite filter_none. Qed.

(** A name that is no suffixed name occurs in the prepared table as it does
    among the shared columns and [road_condition]. *)
Lemma occurrences_prepared_plain (L R Lb : DataFrame) (s : string) :
  preparable L R Lb = true ->
  (forall c, same_name s (c ++ "_L") = false) -> (forall c, same_name s (c ++ "_R") = false) ->
  occurrences s (columns (prepared L R Lb))
  = occurrences s (shared_columns ++ ["road_condition"]).
Proof.
  intros Hprep HL HR. rewrite (prepared_columns _ _ _ Hprep), !occurrences_app.
  rewrite (occurrences_none s (other_names raw_timestamps (map (fun c => c ++ "_L") _))).
  - rewrite (occurrences_none s (other_names raw_timestamps (map (fun c => c ++ "_R") _))).
    + lia.
    + intros x Hin. apply In_other_names in Hin. destruct Hin as [Hin _].
      apply in_map_iff in Hin. destruct Hin as [c [<- _]]. apply HR.
  - intros x Hin. apply In_other_names in Hin. destruct Hin as [Hin _].
    apply in_map_iff in Hin. destruct Hin as [c [<- _]]. apply HL.
Qed.

Section Feeds.

Variables L R Lb : DataFrame.
Hypothesis Hprep : preparable L R Lb = true.

Let cols : list string := columns (prepared L R Lb).

Lemma prepared_has_builtin (s : string) :
  In s ["timestep"; "latitude"; "longitude"; "road_condition"] -> has_column cols s = true.
Proof.
  intros Hs. unfold has_column, cols. rewrite (occurrences_prepared_plain _ _ _ _ Hprep).
  - simpl in Hs. destruct Hs as [<-|[<-|[<-|[<-|[]]]]]; reflexivity.
  - intros c. apply not_suffixed; [discriminate|].
    simpl in Hs. destruct Hs as [<-|[<-|[<-|[<-|[]]]]]; cbn; discriminate.
  - intros c. apply not_suffixed; [discriminate|].
    simpl in Hs. destruct Hs as [<-|[<-|[<-|[<-|[]]]]]; cbn; discriminate.
Qed.

Lemma prepared_no_group_by : occurrences "group_by" cols = 0%nat.
Proof.
  unfold cols. rewrite (occurrences_prepared_plain _ _ _ _ Hprep); [reflexivity| |];
    intros c; (apply not_suffixed; [discriminate | cbn; discriminate]).
Qed.

Lemma prepared_source (s : string) :
  has_column (with_name "group_by" cols) s = true <->
  has_column cols s = true \/ same_name s "group_by" = true.
Proof.
  unfold has_column. destruct (same_name s "group_by") eqn:E.
  - rewrite (occurrences_as _ _ _ E), occurrences_with_name_same, prepared_no_group_by.
    split; [now right | reflexivity].
  - rewrite (occurrences_with_name_other _ _ _ E). split; [now left|].
    intros [H|H]; [exact H | discriminate].
Qed.

Lemma timestep_alias_once (label : bool) (features : list AggExpr) :
  has_column ("group_by" :: map alias (aggregations label features)) "timestep" = true <->
  Forall (fun a => same_name (alias a) "timestep" = false) features.
Proof.
  unfold has_column. rewrite timestep_alias_count, Nat.eqb_eq, Forall_forall. split.
  - intros H a Ha. destruct (same_name (alias a) "timestep") eqn:E; [|reflexivity].
    assert (Hin : In (alias a) (map alias features)) by now apply in_map.
    apply occurrences_In in Hin. rewrite (occurrences_as _ _ _ E) in Hin. lia.
  - intros H. f_equal. apply occurrences_none. intros x Hx. apply in_map_iff in Hx.
    destruct Hx as [a [<- Ha]]. rewrite same_name_sym. now apply H.
Qed.

Lemma aggregable_prepared (features : list AggExpr) (label : bool) :
  aggregable (prepared L R Lb) features label = true <->
  Forall (usable_feature (prepared L R Lb)) features.
Proof.
  unfold aggregable. fold cols.
  rewrite (prepared_has_builtin "timestep") by (simpl; tauto).
  assert (Hg : has_column (with_name "group_by" cols) "group_by" = true)
    by (apply prepared_source; now right).
  rewrite Hg. cbn [andb]. rewrite andb_true_iff, timestep_alias_once.
  assert (Hbuiltin : forallb (fun a => has_column (with_name "group_by" cols) (source a))
                             (aggregations label features)
                     = forallb (fun a => has_column (with_name "group_by" cols) (source a))
                               features).
  { assert (Hb : forall s, In s ["timestep"; "latitude"; "longitude"; "road_condition"] ->
                           has_column (with_name "group_by" cols) s = true).
    { intros s Hs. apply prepared_source. left. now apply prepared_has_builtin. }
    destruct label; cbn [aggregations app forallb source F_max F_mode F_avg];
      rewrite ?(Hb "timestep"), ?(Hb "road_condition"), ?(Hb "latitude"), ?(Hb "longitude")
        by (simpl; tauto); reflexivity. }
  rewrite Hbuiltin, forallb_forall, !Forall_forall. unfold usable_feature. fold cols.
  split.
  - intros [Hsrc Halias] a Ha. split; [apply prepared_source; now apply Hsrc | now apply Halias].
  - intros H. split; intros a Ha; [apply prepared_source|]; now apply H.
Qed.

End Feeds.

(** [approximate_ts] takes the table [dataset_preparation] returns, with and
    without [label]: the call returns exactly when every feature aggregates
    one column of the table (or [group_by]) and none is named [timestep]. *)
Theorem dataset_preparation_feeds_approximate_ts :
  forall (name : string) (spark_session : SparkSession) (data_path : string)
         (L R Lb : DataFrame),
    reads spark_session data_path name L R Lb ->
    preparable L R Lb = true ->
    exists out, dataset_preparation name spark_session data_path = Ok out /\
      forall (features : list AggExpr) (timesteps : Z) (label : bool),
        ((exists res, approximate_ts out features timesteps label = Ok res)
         <-> Forall (usable_feature out) features)
        /\ (~ Forall (usable_feature out) features ->
            approximate_ts out features timesteps label = Raise AnalysisException).
Proof.
  intros name spark_session data_path L R Lb Hreads Hprep.
  rewrite (dataset_preparation_spec _ _ _ L R Lb Hreads), Hprep.
  eexists. split; [reflexivity|]. intros features t label.
  rewrite approximate_ts_spec.
  pose proof (aggregable_prepared L R Lb Hprep features label) as Hagg.
  destruct (aggregable (prepared L R Lb) features label); split.
  - split; [intros _; now apply Hagg | intros _; now eexists].
  - intros Hn. exfalso. apply Hn. now apply Hagg.
  - split; [intros [res Hres]; discriminate | intros H; apply Hagg in H; discriminate].
  - reflexivity.
Qed.

Lemma dataset_preparation_feeds_approximate_ts_witness :
  exists out, dataset_preparation "PVS 1" sample_session "data" = Ok out /\
    forall (features : list AggExpr) (timesteps : Z) (label : bool),
      ((exists res, approximate_ts out features timesteps label = Ok res)
       <-> Forall (usable_feature out) features)
      /\ (~ Forall (usable_feature out) features ->
          approximate_ts out features timesteps label = Raise AnalysisException).
Proof.
  apply (dataset_preparation_feeds_approximate_ts "PVS 1" sample_session "data"
           sample_left sample_right sample_labels).
  - repeat split.
  - reflexivity.
Defined.

(** When each of the three files is read into one partition, the timesteps
    of the prepared table are the row numbers [0 .. n-1] of the left table,
    in this order, and [approximate_ts] turns the table into
    [ceil (n / timesteps)] rows (within the 32-bit range of the window
    index). *)
Theorem dataset_preparation_one_partition :
  forall (name : string) (spark_session : SparkSession) (data_path : string)
         (L R Lb : DataFrame),
    reads spark_session data_path name L R Lb ->
    preparable L R Lb = true ->
    one_partition L -> one_partition R -> one_partition Lb ->
    exists out, dataset_preparation name spark_session data_path = Ok out /\
      timestep_values out = range_values (count L) /\
      forall (features : list AggExpr) (timesteps : Z) (label : bool),
        Forall (usable_feature out) features ->
        1 <= timesteps ->
        ceil_div (Z.of_nat (count L)) timesteps <= 2 ^ 31 ->
        exists res, approximate_ts out features timesteps label = Ok res /\
          count res = Z.to_nat (ceil_div (Z.of_nat (count L)) timesteps).
Proof.
  intros name spark_session data_path L R Lb Hreads Hprep HL HR HLb.
  rewrite (dataset_preparation_spec _ _ _ L R Lb Hreads), Hprep.
  eexists. split; [reflexivity|].
  assert (Hts : timestep_values (prepared L R Lb) = range_values (count L)).
  { rewrite <- (assigned_ids_one_partition L HL).
    apply timestep_values_prepared; trivial.
    - now apply assigned_ids_NoDup, one_partition_limits.
    - now apply assigned_ids_NoDup, one_partition_limits.
    - now apply assigned_ids_sorted, one_partition_limits. }
  split; [exact Hts|].
  intros features t label Hf Ht Hrange.
  destruct (approximate_ts_window_count (prepared L R Lb) features t label (count L))
    as [res [Hres Hcount]].
  - now apply aggregable_prepared.
  - now rewrite Hts.
  - destruct HL as (rows & Hrows & Hlen). unfold count, collect. rewrite Hrows.
    cbn [List.concat]. rewrite app_nil_r.
    assert (H : 2 ^ 33 <= 2 ^ 53) by (apply Z.pow_le_mono_r; lia). lia.
  - exact Ht.
  - exists res. split; [exact Hres|]. rewrite Hcount. f_equal. lia.
Qed.

Lemma dataset_preparation_one_partition_witness :
  exists out, dataset_preparation "PVS 1" whole_session "data" = Ok out /\
    timestep_values out = range_values (count (whole sample_left)) /\
    forall (features : list AggExpr) (timesteps : Z) (label : bool),
      Forall (usable_feature out) features ->
      1 <= timesteps ->
      ceil_div (Z.of_nat (count (whole sample_left))) timesteps <= 2 ^ 31 ->
      exists res, approximate_ts out features timesteps label = Ok res /\
        count res = Z.to_nat (ceil_div (Z.of_nat (count (whole sample_left))) timesteps).
Proof.
  apply (dataset_preparation_one_partition "PVS 1" whole_session "data"
           (whole sample_left) (whole sample_right) (whole sample_labels)).
  - repeat split.
  - reflexivity.
  - eexists. split; [reflexivity | vm_compute; discriminate].
  - eexists. split; [reflexivity | vm_compute; discriminate].
  - eexists. split; [reflexivity | vm_compute; discriminate].
Defined.

(** ** Alignment and merge: the cells of a merged row *)

(** *** Lookup by name in rows laid side by side *)

Lemma index_of_app (name : string) (c1 c2 : list string) :
  index_of name (c1 ++ c2) =
    match index_of name c1 with
    | Some i => Some i
    | None => option_map (Nat.add (List.length c1)) (index_of name c2)
    end.
Proof.
  induction c1 as [|c c1 IH]; simpl.
  - now destruct (index_of name c2).
  - destruct (same_name c name); [reflexivity|]. rewrite IH.
    destruct (index_of name c1); [reflexivity|]. now destruct (index_of name c2).
Qed.

Lemma index_of_mem (name : string) (cols : list string) :
  index_of name cols = None <-> mem name cols = false.
Proof.
  unfold mem. induction cols as [|c cols IH]; simpl; [tauto|].
  rewrite (same_name_sym name c). destruct (same_name c name); simpl.
  - split; discriminate.
  - destruct (index_of name cols); simpl.
    + split; [discriminate|]. intros H. apply IH in H. discriminate.
    + split; [intros _; now apply IH | reflexivity].
Qed.

Lemma field_app (c1 c2 : list string) (r1 r2 : Row) (name : string) :
  List.length r1 = List.length c1 ->
  field (c1 ++ c2) (r1 ++ r2)%list name =
    match index_of name c1 with
    | Some _ => field c1 r1 name
    | None => field c2 r2 name
    end.
Proof.
  intros Hlen. unfold field. rewrite index_of_app.
  destruct (index_of name c1) as [i|] eqn:Hi.
  - apply index_of_Some in Hi. unfold cell. apply app_nth1. lia.
  - destruct (index_of name c2) as [j|]; simpl; [|reflexivity].
    unfold cell. rewrite <- Hlen. apply app_nth2_plus.
Qed.

Lemma length_project (idxs : list nat) (r : Row) :
  List.length (project idxs r) = List.length idxs.
Proof. apply length_map. Qed.

Lemma length_others_from (i : nat) (names cols : list string) :
  List.length (others_from i names cols) = List.length (other_names names cols).
Proof.
  unfold other_names. revert i. induction cols as [|c cols IH]; simpl; intros i; [reflexivity|].
  destruct (mem c names); simpl; now rewrite IH.
Qed.

(** The position a name is found at among the columns that are kept. *)
Lemma index_of_others (names cols : list string) (name : string) (s : nat) :
  mem name names = false ->
  match index_of name (other_names names cols) with
  | Some k => exists i, index_of name cols = Some i
                        /\ nth k (others_from s names cols) 0%nat = (s + i)%nat
  | None => index_of name cols = None
  end.
Proof.
  intros Hname. unfold other_names. revert s.
  induction cols as [|c cols IH]; intros s; simpl; [reflexivity|].
  specialize (IH (S s)).
  destruct (same_name c name) eqn:E.
  - rewrite (mem_as c name names E), Hname. simpl. rewrite E.
    exists 0%nat. split; [reflexivity | lia].
  - destruct (mem c names); simpl.
    + destruct (index_of name (filter _ cols)) as [k|].
      * destruct IH as [i [-> Hk]]. exists (S i). split; [reflexivity | rewrite Hk; lia].
      * now rewrite IH.
    + rewrite E.
      destruct (index_of name (filter _ cols)) as [k|]; simpl.
      * destruct IH as [i [-> Hk]]. exists (S i). split; [reflexivity | rewrite Hk; lia].
      * now rewrite IH.
Qed.

Lemma cell_project (idxs : list nat) (r : Row) (k : nat) :
  (k < List.length idxs)%nat -> cell (project idxs r) k = cell r (nth k idxs 0%nat).
Proof.
  intros Hk. unfold cell, project.
  rewrite (nth_indep _ VNull (nth 0 r VNull)) by (now rewrite length_map).
  apply (map_nth (fun i => nth i r VNull)).
Qed.

(** A kept column holds what it held. *)
Lemma field_project_others (names cols : list string) (r : Row) (name : string) :
  mem name names = false ->
  field (other_names names cols) (project (others names cols) r) name = field cols r name.
Proof.
  intros Hname. unfold field, others.
  pose proof (index_of_others names cols name 0 Hname) as H.
  destruct (index_of name (other_names names cols)) as [k|] eqn:Hk.
  - destruct H as [i [-> Hnth]]. apply index_of_Some in Hk.
    rewrite cell_project by (rewrite length_others_from; lia). now rewrite Hnth.
  - now rewrite H.
Qed.

(** A key column holds the key. *)
Lemma field_project_positions (cols on : list string) (r : Row) (name : string) :
  all_columns cols on = true -> mem name on = true ->
  field (names_at cols (positions cols on)) (project (positions cols on) r) name
  = field cols r name.
Proof.
  intros Hall Hin.
  rewrite (field_same_names _ on) by now apply names_at_same_names.
  unfold field at 1.
  destruct (index_of name on) as [i|] eqn:Hi; [|apply index_of_mem in Hi; congruence].
  apply index_of_Some in Hi. destruct Hi as [Hlt Hnth].
  unfold positions. rewrite cell_project by (now rewrite length_map).
  rewrite (nth_indep _ 0%nat (position cols "")) by (now rewrite length_map).
  rewrite (map_nth (position cols)).
  unfold field. rewrite <- (index_of_as _ _ cols Hnth).
  unfold all_columns in Hall. rewrite forallb_forall in Hall.
  destruct (resolve_has_column _ _ (Hall _ (nth_In on "" Hlt))) as [j [_ Hj]].
  unfold position. now rewrite Hj.
Qed.

Lemma field_nulls {A : Type} (cols : list string) (l : list A) (name : string) :
  field cols (map (fun _ => VNull) l) name = VNull.
Proof.
  unfold field. destruct (index_of name cols) as [i|]; [|reflexivity].
  unfold cell. revert i. induction l as [|x l IH]; intros [|i]; simpl; auto.
Qed.

Lemma field_missing (cols : list string) (r : Row) (name : string) :
  mem name cols = false -> field cols r name = VNull.
Proof. intros H. apply index_of_mem in H. unfold field. now rewrite H. Qed.

Lemma mem_other_names (names cols : list string) (name : string) :
  mem name cols = false -> mem name (other_names names cols) = false.
Proof.
  unfold mem, other_names. intros H. apply not_true_is_false. intros Hex.
  apply existsb_exists in Hex. destruct Hex as [x [Hx E]]. apply filter_In in Hx.
  assert (Hex : existsb (same_name name) cols = true)
    by (apply existsb_exists; exists x; tauto).
  congruence.
Qed.

(** *** Cells of the rows of a left join *)

Lemma In_join_rows (left right : DataFrame) (on : list string) (l m : Row) :
  In m (join_rows left right on l) ->
  let matches r := keys_match (project (positions (columns left) on) l)
                              (project (positions (columns right) on) r) in
  let base := (project (positions (columns left) on) l
                 ++ project (others on (columns left)) l)%list in
  ((forall r, In r (collect right) -> matches r = false)
   /\ m = (base ++ map (fun _ => VNull) (others on (columns right)))%list)
  \/ (exists r, In r (collect right) /\ matches r = true
                /\ m = (base ++ project (others on (columns right)) r)%list).
Proof.
  unfold join_rows. intros Hm. cbv zeta.
  destruct (filter _ (collect right)) as [|r0 rs] eqn:E.
  - left. destruct Hm as [<-|[]]. split; [|reflexivity].
    intros r Hr. destruct (keys_match _ (project _ r)) eqn:Hk; [|reflexivity].
    assert (Hin : In r []) by (rewrite <- E; apply filter_In; now split). destruct Hin.
  - right. apply in_map_iff in Hm. destruct Hm as [r [<- Hr]].
    rewrite <- E in Hr. apply filter_In in Hr. destruct Hr as [Hr Hk]. now exists r.
Qed.

Lemma index_of_keys (cols on : list string) (name : string) :
  all_columns cols on = true ->
  index_of name (names_at cols (positions cols on)) = index_of name on.
Proof. intros Hall. now apply index_of_same_names, names_at_same_names. Qed.

(** A name of the left table is looked up in the left part of a joined
    row. *)
Lemma field_joined_left (left right : DataFrame) (on : list string) (l m : Row)
                        (name : string) :
  all_columns (columns left) on = true ->
  In m (join_rows left right on l) ->
  mem name (columns left) = true \/ mem name (other_names on (columns right)) = false ->
  field (columns (joined left right on)) m name = field (columns left) l name.
Proof.
  intros Hall Hm Hname. cbn [joined columns].
  assert (Hgoal : forall rest : Row,
            field (names_at (columns left) (positions (columns left) on)
                     ++ other_names on (columns left) ++ other_names on (columns right))
                  ((project (positions (columns left) on) l
                      ++ project (others on (columns left)) l) ++ rest)%list name
            = field (columns left) l name).
  { intros rest. rewrite <- app_assoc.
    rewrite field_app by (unfold names_at, positions; now rewrite length_project, !length_map).
    rewrite (index_of_keys _ _ _ Hall).
    destruct (index_of name on) as [i|] eqn:Hi.
    - apply field_project_positions; [assumption|].
      destruct (mem name on) eqn:E; [reflexivity|]. apply index_of_mem in E. congruence.
    - assert (Hmem : mem name on = false) by now apply index_of_mem.
      rewrite field_app by (unfold others; now rewrite length_project, length_others_from).
      pose proof (field_project_others on (columns left) l name Hmem) as Hleft.
      pose proof (index_of_others on (columns left) name 0 Hmem) as Hidx.
      destruct (index_of name (other_names on (columns left))) eqn:Hk; [exact Hleft|].
      assert (Hnone : mem name (columns left) = false) by now apply index_of_mem.
      rewrite (field_missing (columns left) l name Hnone).
      apply field_missing. destruct Hname as [H|H]; [congruence | exact H]. }
  apply In_join_rows in Hm. cbv zeta in Hm.
  destruct Hm as [[_ ->]|[r [_ [_ ->]]]]; apply Hgoal.
Qed.

(** A name that is no name of the left table is looked up in the right part
    of a joined row. *)
Lemma field_joined_right (left right : DataFrame) (on : list string) (rest : Row)
                         (l : Row) (name : string) :
  all_columns (columns left) on = true ->
  mem name on = false -> mem name (columns left) = false ->
  field (columns (joined left right on))
        ((project (positions (columns left) on) l
            ++ project (others on (columns left)) l) ++ rest)%list name
  = field (other_names on (columns right)) rest name.
Proof.
  intros Hall Hon Hleft. cbn [joined columns]. rewrite <- app_assoc.
  rewrite field_app by (unfold names_at, positions; now rewrite length_project, !length_map).
  rewrite (index_of_keys _ _ _ Hall), (proj2 (index_of_mem name on) Hon).
  rewrite field_app by (unfold others; now rewrite length_project, length_others_from).
  assert (Hk : index_of name (other_names on (columns left)) = None)
    by (apply index_of_mem; now apply mem_other_names).
  now rewrite Hk.
Qed.

(** *** Names of the renamed tables *)

Lemma In_renamed (suffix x : string) (cols : list string) :
  In x (map (rename suffix) cols) -> In x shared_columns \/ exists c, x = c ++ suffix.
Proof.
  intros H. apply in_map_iff in H. destruct H as [c [<- _]]. unfold rename.
  destruct (listed c shared_columns) eqn:E; cbn [negb];
    [left; now apply listed_In | right; now exists c].
Qed.

Lemma mem_witness (name : string) (cols : list string) :
  mem name cols = true -> exists c, In c cols /\ same_name name c = true.
Proof. unfold mem. intros H. now apply existsb_exists in H. Qed.

Lemma last_char_same (a b : string) :
  same_name a b = true -> last_char (lower a) = last_char (lower b).
Proof. intros H. apply same_name_eq in H. now rewrite H. Qed.

Lemma last_char_suffixed (c suffix : string) :
  suffix <> EmptyString -> last_char (lower (c ++ suffix)) = last_char (lower suffix).
Proof.
  intros H. rewrite lower_append. apply last_char_append. now destruct suffix.
Qed.

(** A name of a renamed table that is no shared name ends as the suffix. *)
Lemma renamed_last_char (suffix x : string) (cols : list string) :
  suffix <> EmptyString ->
  mem x (map (rename suffix) cols) = true -> mem x shared_columns = false ->
  last_char (lower x) = last_char (lower suffix).
Proof.
  intros Hsfx Hx Hs. apply mem_witness in Hx. destruct Hx as [y [Hy E]].
  apply In_renamed in Hy. destruct Hy as [Hy|[c ->]].
  - rewrite (mem_as _ _ _ E), (mem_In _ _ Hy) in Hs. discriminate.
  - rewrite (last_char_same _ _ E). now apply last_char_suffixed.
Qed.

Lemma mem_by_last_char (x : string) (cols : list string) :
  (forall y, In y cols -> last_char (lower y) <> last_char (lower x)) -> mem x cols = false.
Proof.
  intros H. apply not_true_is_false. intros Hx. apply mem_witness in Hx.
  destruct Hx as [y [Hy E]]. apply (H y Hy). symmetry. now apply last_char_same.
Qed.

(** *** The three tables in a merged row *)

Lemma collect_labelled (df : DataFrame) :
  collect (labelled df)
  = map (fun r => [field (columns df) r "timestep"; eval cond 0 0 (field (columns df) r)])
        (collect df).
Proof. unfold collect, labelled. cbn [partitions]. apply concat_map_map. Qed.

Section Cells.

Variables L R Lb : DataFrame.
Hypothesis Hprep : preparable L R Lb = true.

Let TL : DataFrame := renamed "_L" (with_timestep L).
Let TR : DataFrame := renamed "_R" (with_timestep R).
Let TLb : DataFrame := with_timestep Lb.

Let sensors : DataFrame := joined TL TR shared_columns.

Let merged : DataFrame := joined sensors (labelled TLb) ["timestep"].

Lemma shared_left : all_columns (columns TL) shared_columns = true.
Proof.
  unfold TL. cbn [renamed columns with_timestep].
  rewrite (all_columns_rename "_L" _ distinguishing_L).
  now destruct (preparable_sensors _ _ _ Hprep).
Qed.

Lemma shared_right : all_columns (columns TR) shared_columns = true.
Proof.
  unfold TR. cbn [renamed columns with_timestep].
  rewrite (all_columns_rename "_R" _ distinguishing_R).
  now destruct (preparable_sensors _ _ _ Hprep).
Qed.

Lemma key_cell (cols : list string) (r : Row) (s : string) :
  all_columns cols shared_columns = true -> In s shared_columns ->
  cell r (position cols s) = field cols r s.
Proof.
  intros Hall Hs. symmetry. apply field_position.
  unfold all_columns in Hall. rewrite forallb_forall in Hall. now apply Hall.
Qed.

Lemma keys_match_sensors (l r : Row) :
  keys_match (project (positions (columns TL) shared_columns) l)
             (project (positions (columns TR) shared_columns) r)
  = same_keys (columns TL) (columns TR) shared_columns l r.
Proof.
  unfold same_keys, positions, shared_columns.
  cbn [map project keys_match forallb].
  rewrite !(key_cell (columns TL) l _ shared_left) by (unfold shared_columns; simpl; tauto).
  rewrite !(key_cell (columns TR) r _ shared_right) by (unfold shared_columns; simpl; tauto).
  reflexivity.
Qed.

(** No column of the left table has a name of the other columns of the
    right table, and the other way round. *)
Lemma left_not_right (x : string) :
  mem x (columns TL) = true -> mem x (other_names shared_columns (columns TR)) = false.
Proof.
  intros Hx. destruct (mem x shared_columns) eqn:Hs.
  - apply not_true_is_false. intros H. apply mem_witness in H. destruct H as [y [Hy E]].
    apply In_other_names in Hy. destruct Hy as [_ Hy].
    rewrite <- (mem_as _ _ _ E), Hs in Hy. discriminate.
  - pose proof (renamed_last_char "_L" x _ ltac:(discriminate) Hx Hs) as Hl.
    apply mem_by_last_char. intros y Hy. apply In_other_names in Hy. destruct Hy as [Hy Hys].
    rewrite (renamed_last_char "_R" y (columns (with_timestep R))), Hl;
      [discriminate | discriminate | now apply mem_In | exact Hys].
Qed.

Lemma right_not_left (x : string) :
  mem x (columns TR) = true -> mem x shared_columns = false -> mem x (columns TL) = false.
Proof.
  intros Hx Hs. pose proof (renamed_last_char "_R" x _ ltac:(discriminate) Hx Hs) as Hr.
  apply not_true_is_false. intros Hl.
  pose proof (renamed_last_char "_L" x _ ltac:(discriminate) Hl Hs) as Hl'.
  rewrite Hr in Hl'. discriminate.
Qed.

Lemma not_road_condition (suffix x : string) (cols : list string) :
  suffix = "_L" \/ suffix = "_R" ->
  mem x (map (rename suffix) cols) = true -> same_name x "road_condition" = false.
Proof.
  intros Hsfx Hx. destruct (same_name x "road_condition") eqn:E; [|reflexivity].
  apply mem_witness in Hx. destruct Hx as [y [Hy Exy]].
  rewrite (same_name_as _ _ _ Exy) in E. apply last_char_same in E.
  apply In_renamed in Hy. destruct Hy as [Hy|[c ->]].
  - simpl in Hy. destruct Hy as [<-|[<-|[<-|[<-|[]]]]]; discriminate.
  - destruct Hsfx as [-> | ->]; rewrite last_char_suffixed in E by discriminate;
      discriminate.
Qed.

Lemma sensors_left_cells (l s : Row) (x : string) :
  In s (join_rows TL TR shared_columns l) ->
  mem x (columns TL) = true ->
  field (columns sensors) s x = field (columns TL) l x.
Proof.
  intros Hs Hx. unfold sensors.
  apply (field_joined_left _ _ _ l s x shared_left Hs). now left.
Qed.

Lemma sensors_right_cells (l s : Row) :
  In s (join_rows TL TR shared_columns l) ->
  ((forall r, In r (collect TR) ->
              same_keys (columns TL) (columns TR) shared_columns l r = false)
   /\ forall x, mem x (columns TR) = true -> mem x shared_columns = false ->
                field (columns sensors) s x = VNull)
  \/ (exists r, In r (collect TR)
                /\ same_keys (columns TL) (columns TR) shared_columns l r = true
                /\ forall x, mem x (columns TR) = true -> mem x shared_columns = false ->
                     field (columns sensors) s x = field (columns TR) r x).
Proof.
  intros Hs. apply In_join_rows in Hs. cbv zeta in Hs.
  destruct Hs as [[Hnone ->]|[r [Hr [Hk ->]]]].
  - left. split.
    + intros r Hr. rewrite <- keys_match_sensors. now apply Hnone.
    + intros x Hx Hsh. unfold sensors.
      rewrite (field_joined_right _ _ _ _ _ _ shared_left Hsh (right_not_left x Hx Hsh)).
      apply field_nulls.
  - right. exists r. split; [exact Hr|]. split; [now rewrite <- keys_match_sensors|].
    intros x Hx Hsh. unfold sensors.
    rewrite (field_joined_right _ _ _ _ _ _ shared_left Hsh (right_not_left x Hx Hsh)).
    now apply field_project_others.
Qed.

Lemma timestep_sensors : all_columns (columns sensors) ["timestep"] = true.
Proof.
  destruct (preparable_sensors _ _ _ Hprep) as [HsL HsR].
  unfold all_columns. cbn [forallb]. unfold sensors, TL, TR.
  now rewrite (has_timestep_sensors L R HsL).
Qed.

Lemma road_condition_not_sensor : mem "road_condition" (columns sensors) = false.
Proof.
  destruct (preparable_sensors _ _ _ Hprep) as [HsL HsR].
  unfold sensors, TL, TR. rewrite (sensors_columns L R HsL).
  unfold mem. rewrite !existsb_app, !orb_false_iff. split; [reflexivity|].
  split; apply not_true_is_false; intros H; apply existsb_exists in H;
    destruct H as [y [Hy E]]; apply in_map_iff in Hy; destruct Hy as [c [<- _]];
    rewrite not_suffixed in E; discriminate.
Qed.

Lemma merged_sensor_cells (s m : Row) (x : string) :
  In m (join_rows sensors (labelled TLb) ["timestep"] s) ->
  same_name x "road_condition" = false ->
  field (columns merged) m x = field (columns sensors) s x.
Proof.
  intros Hm Hx. unfold merged.
  apply (field_joined_left _ _ _ s m x timestep_sensors Hm).
  right. cbn [labelled columns other_names filter mem existsb negb orb].
  change (same_name "timestep" "timestep") with true.
  change (same_name "road_condition" "timestep") with false.
  cbn [negb orb existsb]. now rewrite Hx.
Qed.

Lemma merged_label_cell (s m : Row) :
  In m (join_rows sensors (labelled TLb) ["timestep"] s) ->
  ((forall lb, In lb (collect TLb) ->
               join_eqb (field (columns sensors) s "timestep")
                        (field (columns TLb) lb "timestep") = false)
   /\ field (columns merged) m "road_condition" = VNull)
  \/ (exists lb, In lb (collect TLb)
                 /\ join_eqb (field (columns sensors) s "timestep")
                             (field (columns TLb) lb "timestep") = true
                 /\ field (columns merged) m "road_condition"
                    = eval cond 0 0 (field (columns TLb) lb)).
Proof.
  intros Hm. apply In_join_rows in Hm. cbv zeta in Hm.
  assert (Hkey : forall v : Row, cell v (position (columns sensors) "timestep")
                                 = field (columns sensors) v "timestep").
  { intros v. symmetry. apply field_position.
    pose proof timestep_sensors as H. unfold all_columns in H. cbn [forallb] in H.
    now rewrite andb_true_r in H. }
  destruct Hm as [[Hnone ->]|[lb' [Hlb' [Hk ->]]]].
  - left. split.
    + intros lb Hlb.
      specialize (Hnone [field (columns TLb) lb "timestep";
                         eval cond 0 0 (field (columns TLb) lb)]).
      rewrite collect_labelled in Hnone.
      specialize (Hnone (in_map _ _ _ Hlb)).
      cbn [positions map project keys_match] in Hnone.
      rewrite andb_true_r, Hkey in Hnone. exact Hnone.
    + unfold merged.
      rewrite (field_joined_right sensors (labelled TLb) ["timestep"] _ s "road_condition"
                 timestep_sensors eq_refl road_condition_not_sensor).
      apply field_nulls.
  - right. rewrite collect_labelled in Hlb'. apply in_map_iff in Hlb'.
    destruct Hlb' as [lb [<- Hlb]]. exists lb. split; [exact Hlb|]. split.
    + cbn [positions map project keys_match] in Hk.
      rewrite andb_true_r, Hkey in Hk. exact Hk.
    + unfold merged.
      rewrite (field_joined_right sensors (labelled TLb) ["timestep"] _ s "road_condition"
                 timestep_sensors eq_refl road_condition_not_sensor).
      reflexivity.
Qed.

Lemma prepared_cell (m : Row) (x : string) :
  mem x raw_timestamps = false ->
  field (columns (prepared L R Lb)) (project (others raw_timestamps (columns merged)) m) x
  = field (columns merged) m x.
Proof.
  intros Hx.
  change (columns (prepared L R Lb)) with (other_names raw_timestamps (columns merged)).
  now apply field_project_others.
Qed.

Lemma In_collect_prepared (o : Row) :
  In o (collect (prepared L R Lb)) ->
  exists l s m, In l (collect TL)
    /\ In s (join_rows TL TR shared_columns l)
    /\ In m (join_rows sensors (labelled TLb) ["timestep"] s)
    /\ o = project (others raw_timestamps (columns merged)) m.
Proof.
  rewrite (collect_prepared L R Lb Hprep). fold TL TR TLb. fold sensors. fold merged.
  intros Ho. apply in_map_iff in Ho. destruct Ho as [m [<- Hm]].
  apply In_sort_by in Hm. unfold merged in Hm. rewrite collect_joined in Hm.
  apply in_flat_map in Hm. destruct Hm as [s [Hs Hm]].
  unfold sensors in Hs. rewrite collect_joined in Hs.
  apply in_flat_map in Hs. destruct Hs as [l [Hl Hs]].
  exists l, s, m. repeat split; assumption.
Qed.

Lemma prepared_row_cells (o : Row) :
  In o (collect (prepared L R Lb)) ->
  exists l, In l (collect TL) /\
    (forall x, mem x (columns TL) = true -> mem x raw_timestamps = false ->
               field (columns (prepared L R Lb)) o x = field (columns TL) l x) /\
    ((exists r, In r (collect TR)
                /\ same_keys (columns TL) (columns TR) shared_columns l r = true
                /\ forall x, mem x (columns TR) = true -> mem x shared_columns = false ->
                     mem x raw_timestamps = false ->
                     field (columns (prepared L R Lb)) o x = field (columns TR) r x)
     \/ ((forall r, In r (collect TR) ->
                    same_keys (columns TL) (columns TR) shared_columns l r = false)
         /\ forall x, mem x (columns TR) = true -> mem x shared_columns = false ->
              mem x raw_timestamps = false ->
              field (columns (prepared L R Lb)) o x = VNull)) /\
    ((exists lb, In lb (collect TLb)
                 /\ join_eqb (field (columns TL) l "timestep")
                             (field (columns TLb) lb "timestep") = true
                 /\ field (columns (prepared L R Lb)) o "road_condition"
                    = eval cond 0 0 (field (columns TLb) lb))
     \/ ((forall lb, In lb (collect TLb) ->
                     join_eqb (field (columns TL) l "timestep")
                              (field (columns TLb) lb "timestep") = false)
         /\ field (columns (prepared L R Lb)) o "road_condition" = VNull)).
Proof.
  intros Ho. destruct (In_collect_prepared o Ho) as (l & s & m & Hl & Hs & Hm & ->).
  assert (Hts : field (columns sensors) s "timestep" = field (columns TL) l "timestep").
  { apply (sensors_left_cells l s "timestep" Hs).
    pose proof shared_left as H. unfold all_columns, shared_columns in H.
    cbn [forallb] in H. apply andb_true_iff in H. destruct H as [H _].
    unfold has_column in H. apply Nat.eqb_eq in H.
    destruct (mem "timestep" (columns TL)) eqn:E; [reflexivity|].
    apply mem_false_occurrences in E. lia. }
  exists l. split; [exact Hl|]. split; [|split].
  - intros x Hx Hraw. rewrite (prepared_cell m x Hraw).
    rewrite (merged_sensor_cells s m x Hm)
      by (apply (not_road_condition "_L" x (columns (with_timestep L))); [now left | exact Hx]).
    now apply sensors_left_cells.
  - destruct (sensors_right_cells l s Hs) as [[Hnone Hnull]|[r [Hr [Hk Hcells]]]].
    + right. split; [exact Hnone|]. intros x Hx Hsh Hraw. rewrite (prepared_cell m x Hraw).
      rewrite (merged_sensor_cells s m x Hm)
        by (apply (not_road_condition "_R" x (columns (with_timestep R)));
            [now right | exact Hx]).
      now apply Hnull.
    + left. exists r. split; [exact Hr|]. split; [exact Hk|].
      intros x Hx Hsh Hraw. rewrite (prepared_cell m x Hraw).
      rewrite (merged_sensor_cells s m x Hm)
        by (apply (not_road_condition "_R" x (columns (with_timestep R)));
            [now right | exact Hx]).
      now apply Hcells.
  - destruct (merged_label_cell s m Hm) as [[Hnone Hnull]|[lb [Hlb [Hk Hcell]]]].
    + right. rewrite (prepared_cell m "road_condition" eq_refl). split; [|exact Hnull].
      intros lb Hlb. rewrite <- Hts. now apply Hnone.
    + left. exists lb. split; [exact Hlb|].
      rewrite (prepared_cell m "road_condition" eq_refl).
      split; [now rewrite <- Hts | exact Hcell].
Qed.

End Cells.

(** Every row of the result merges one row of the left table, with its
    timestep and under the names the renaming gives its columns: whatever
    name of that table is looked up in the result, unless [drop] removes it,
    the row holds the cell of the left row.  Its other cells under the names
    of the right table are those of a right row that agrees with the left
    row on the four shared columns, or NULL when there is none; its
    [road_condition] is the label derived from a label row with the same
    timestep, or NULL when there is none. *)
Theorem dataset_preparation_row_cells :
  forall (name : string) (spark_session : SparkSession) (data_path : string)
         (L R Lb : DataFrame),
    reads spark_session data_path name L R Lb ->
    preparable L R Lb = true ->
    exists out, dataset_preparation name spark_session data_path = Ok out /\
      forall o, In o (collect out) ->
        exists l, In l (collect (renamed "_L" (with_timestep L))) /\
          (forall x, mem x (columns (renamed "_L" (with_timestep L))) = true ->
                     mem x raw_timestamps = false ->
                     field (columns out) o x
                     = field (columns (renamed "_L" (with_timestep L))) l x) /\
          ((exists r, In r (collect (renamed "_R" (with_timestep R)))
                      /\ same_keys (columns (renamed "_L" (with_timestep L)))
                                   (columns (renamed "_R" (with_timestep R)))
                                   shared_columns l r = true
                      /\ forall x, mem x (columns (renamed "_R" (with_timestep R))) = true ->
                           mem x shared_columns = false -> mem x raw_timestamps = false ->
                           field (columns out) o x
                           = field (columns (renamed "_R" (with_timestep R))) r x)
           \/ ((forall r, In r (collect (renamed "_R" (with_timestep R))) ->
                          same_keys (columns (renamed "_L" (with_timestep L)))
                                    (columns (renamed "_R" (with_timestep R)))
                                    shared_columns l r = false)
               /\ forall x, mem x (columns (renamed "_R" (with_timestep R))) = true ->
                    mem x shared_columns = false -> mem x raw_timestamps = false ->
                    field (columns out) o x = VNull)) /\
          ((exists lb, In lb (collect (with_timestep Lb))
                       /\ join_eqb (field (columns (renamed "_L" (with_timestep L))) l
                                          "timestep")
                                   (field (columns (with_timestep Lb)) lb "timestep") = true
                       /\ field (columns out) o "road_condition"
                          = eval cond 0 0 (field (columns (with_timestep Lb)) lb))
           \/ ((forall lb, In lb (collect (with_timestep Lb)) ->
                           join_eqb (field (columns (renamed "_L" (with_timestep L))) l
                                           "timestep")
                                    (field (columns (with_timestep Lb)) lb "timestep") = false)
               /\ field (columns out) o "road_condition" = VNull)).
Proof.
  intros name spark_session data_path L R Lb Hreads Hprep.
  rewrite (dataset_preparation_spec _ _ _ L R Lb Hreads), Hprep.
  eexists. split; [reflexivity|]. intros o Ho.
  exact (prepared_row_cells L R Lb Hprep o Ho).
Qed.

Lemma dataset_preparation_row_cells_witness :
  exists out, dataset_preparation "PVS 1" sample_session "data" = Ok out /\
    forall o, In o (collect out) ->
      exists l, In l (collect (renamed "_L" (with_timestep sample_left))) /\
        (forall x, mem x (columns (renamed "_L" (with_timestep sample_left))) = true ->
                   mem x raw_timestamps = false ->
                   field (columns out) o x
                   = field (columns (renamed "_L" (with_timestep sample_left))) l x) /\
        ((exists r, In r (collect (renamed "_R" (with_timestep sample_right)))
                    /\ same_keys (columns (renamed "_L" (with_timestep sample_left)))
                                 (columns (renamed "_R" (with_timestep sample_right)))
                                 shared_columns l r = true
                    /\ forall x, mem x (columns (renamed "_R" (with_timestep sample_right)))
                                 = true ->
                         mem x shared_columns = false -> mem x raw_timestamps = false ->
                         field (columns out) o x
                         = field (columns (renamed "_R" (with_timestep sample_right))) r x)
         \/ ((forall r, In r (collect (renamed "_R" (with_timestep sample_right))) ->
                        same_keys (columns (renamed "_L" (with_timestep sample_left)))
                                  (columns (renamed "_R" (with_timestep sample_right)))
                                  shared_columns l r = false)
             /\ forall x, mem x (columns (renamed "_R" (with_timestep sample_right))) = true ->
                  mem x shared_columns = false -> mem x raw_timestamps = false ->
                  field (columns out) o x = VNull)) /\
        ((exists lb, In lb (collect (with_timestep sample_labels))
                     /\ join_eqb (field (columns (renamed "_L" (with_timestep sample_left))) l
                                        "timestep")
                                 (field (columns (with_timestep sample_labels)) lb "timestep")
                        = true
                     /\ field (columns out) o "road_condition"
                        = eval cond 0 0 (field (columns (with_timestep sample_labels)) lb))
         \/ ((forall lb, In lb (collect (with_timestep sample_labels)) ->
                         join_eqb (field (columns (renamed "_L" (with_timestep sample_left))) l
                                         "timestep")
                                  (field (columns (with_timestep sample_labels)) lb "timestep")
                         = false)
             /\ field (columns out) o "road_condition" = VNull)).
Proof.
  apply (dataset_preparation_row_cells "PVS 1" sample_session "data"
           sample_left sample_right sample_labels).
  - repeat split.
  - reflexivity.
Defined.
